(** * Portfolio script: overlay controller, grid arming, deep links,
      meta rendering, text markup, image fallback and payload repair

    A shallow embedding of the page script ([script.js]) of the portfolio
    site, and the properties of its overlay controller and helpers.

    Conventions of the embedding.
    - A JavaScript string is a [string]: a sequence of code units below 256.
      [toLowerCase] maps the capital letters among them, those from U+00C0
      up included; [toUpperCase] does the same for the small letters, with
      [SS] for U+00DF.  The capitals of U+00B5 and U+00FF lie beyond 255:
      [toUpperCase] leaves these two as they are, and is exact on strings
      without them.
    - A number read from a JSON record is a natural number below [2^53],
      where [String(n)] is the decimal numeral of [n].
    - An optional property of a JSON record is an [option]; [None] is the
      absent property, and [truthy] is JavaScript's truthiness on it.
    - The module-level [let] variables of the script and the part of the
      document the script reads and writes form one [State] record that the
      functions pass along.  What is fixed once the page has loaded (the
      elements found by the top-level [querySelector] calls, the parsed
      project list) is a [Page].
    - A function that can dereference [null] returns an [Outcome]: either it
      returned, or it threw, in both cases with the state it left behind.
    - What the network answers to an image request is a function [loads]
      from URLs to [bool]; a chain of requests returns a [Probe]: the URLs
      assigned to [img.src], in order, and what the chain ended with. *)

From Stdlib Require Import ZArith List String Ascii Bool Lia PeanoNat.
From Stdlib Require Import Permutation.
From Stdlib Require Import DecimalString.
From Equations Require Import Equations.
Import ListNotations.

Local Open Scope string_scope.
Local Open Scope list_scope.
Local Open Scope nat_scope.

(* ================================================================== *)
(** ** JavaScript strings *)
(* ================================================================== *)

Module Js.

Definition code (c : ascii) : nat := nat_of_ascii c.

Definition isUpper (c : ascii) : bool := (65 <=? code c) && (code c <=? 90).
Definition isLower (c : ascii) : bool := (97 <=? code c) && (code c <=? 122).
Definition isDigit (c : ascii) : bool := (48 <=? code c) && (code c <=? 57).

(** The capital and the small letters from U+00C0 up: U+00C0 to U+00DE
    without the multiplication sign U+00D7, and U+00E0 to U+00FE without
    the division sign U+00F7. *)
Definition isUpperLatin1 (c : ascii) : bool :=
  (192 <=? code c) && (code c <=? 222) && negb (code c =? 215).
Definition isLowerLatin1 (c : ascii) : bool :=
  (224 <=? code c) && (code c <=? 254) && negb (code c =? 247).

Definition lowerChar (c : ascii) : ascii :=
  if isUpper c || isUpperLatin1 c then ascii_of_nat (code c + 32) else c.

(** The upper case of one code unit; that of U+00DF is [SS]. *)
Definition upperChar (c : ascii) : string :=
  if isLower c || isLowerLatin1 c
  then String (ascii_of_nat (code c - 32)) EmptyString
  else if code c =? 223 then "SS"
  else String c EmptyString.

Fixpoint mapChars (f : ascii -> ascii) (s : string) : string :=
  match s with
  | EmptyString => EmptyString
  | String c t => String (f c) (mapChars f t)
  end.

(** [s.toLowerCase()]. *)
Definition toLowerCase : string -> string := mapChars lowerChar.

(** [s.toUpperCase()]; exact for [s] without U+00B5 and U+00FF. *)
Fixpoint toUpperCase (s : string) : string :=
  match s with
  | EmptyString => EmptyString
  | String c t => upperChar c ++ toUpperCase t
  end.

(** White space and line terminators, as [trim] and the class [\s] see
    them (among the code units below 256). *)
Definition isSpace (c : ascii) : bool :=
  let n := code c in
  ((9 <=? n) && (n <=? 13)) || (n =? 32) || (n =? 160).

Fixpoint trimStart (s : string) : string :=
  match s with
  | String c t => if isSpace c then trimStart t else s
  | EmptyString => EmptyString
  end.

(** The string without its trailing white space. *)
Fixpoint trimEnd (s : string) : string :=
  match s with
  | EmptyString => EmptyString
  | String c t =>
      match trimEnd t with
      | EmptyString => if isSpace c then EmptyString else String c EmptyString
      | t' => String c t'
      end
  end.

(** [s.trim()]. *)
Definition trim (s : string) : string := trimEnd (trimStart s).

(** [s.startsWith(p)]. *)
Definition startsWith (p s : string) : bool := String.prefix p s.

(** [s.slice(n)] for [0 <= n]. *)
Fixpoint slice (n : nat) (s : string) : string :=
  match n, s with
  | O, _ => s
  | S n', String _ t => slice n' t
  | S _, EmptyString => EmptyString
  end.

(** [String(n)] for a non-negative integer below [2^53]: the decimal
    numeral.  (From [2^53] up not every integer is a number value, and from
    [10^21] up [String] answers in exponent form.) *)
Definition ofNat (n : nat) : string := NilEmpty.string_of_uint (Nat.to_uint n).
Definition ofN (n : N) : string := NilEmpty.string_of_uint (N.to_uint n).

(** Truthiness of an optional string property: absent and [''] are falsy. *)
Definition truthy (v : option string) : bool :=
  match v with
  | Some (String _ _) => true
  | _ => false
  end.

(** [v || ''] on an optional string. *)
Definition orEmpty (v : option string) : string :=
  match v with
  | Some s => s
  | None => EmptyString
  end.

Definition isEmpty (s : string) : bool :=
  match s with
  | EmptyString => true
  | String _ _ => false
  end.

(** A value read from a JSON record where the script accepts a string or a
    number. *)
Inductive Value : Type :=
| Undefined
| Str (s : string)
| Num (n : N).

Definition ofOption (v : option string) : Value :=
  match v with
  | Some s => Str s
  | None => Undefined
  end.

(** [String(value || '')]: [undefined], [''] and [0] are falsy. *)
Definition stringOrEmpty (v : Value) : string :=
  match v with
  | Undefined => EmptyString
  | Str s => s
  | Num 0%N => EmptyString
  | Num n => ofN n
  end.

End Js.

(* ================================================================== *)
(** ** Project records *)
(* ================================================================== *)

(** One entry of [custom_fields]. *)
Record CustomField : Type := mkCustomField {
  cf_id : option string;
  cf_label : option string;
  cf_value : option string
}.

(** A project record as the script reads it.  [title] is the one property
    the script dereferences without a guard. *)
Record Project : Type := mkProject {
  title : string;
  slug : option string;
  display_title : option string;
  index : Js.Value;
  location : option string;
  duration : option string;
  program : option string;
  studio : option string;
  year : option string;
  medium : option string;
  series : option string;
  team : option string;
  custom_fields : option (list CustomField);
  meta_field_order : option (list string);
  description : option string;
  description_ko : option string
}.

(** A record with a title and nothing else. *)
Definition bareProject (t : string) : Project :=
  mkProject t None None Js.Undefined None None None None None None None None
            None None None None.

(* ================================================================== *)
(** ** Deep-link keys *)
(* ================================================================== *)

(** [.replace(/&/g, 'and')]. *)
Fixpoint replaceAmpersand (s : string) : string :=
  match s with
  | EmptyString => EmptyString
  | String c t =>
      if Ascii.eqb c "&"%char then ("and" ++ replaceAmpersand t)%string
      else String c (replaceAmpersand t)
  end.

(** [.replace(/[^a-z0-9]+/g, '')]: every code unit outside [a-z0-9] goes. *)
Fixpoint keepAlnum (s : string) : string :=
  match s with
  | EmptyString => EmptyString
  | String c t =>
      if Js.isLower c || Js.isDigit c then String c (keepAlnum t)
      else keepAlnum t
  end.

Definition normalizeProjectKey (value : Js.Value) : string :=
  keepAlnum (replaceAmpersand (Js.toLowerCase (Js.stringOrEmpty value))).

(** [array.findIndex(pred)]: the first index whose element satisfies
    [pred], or [-1]. *)
Fixpoint findIndexFrom {A : Type} (pred : A -> bool) (l : list A) (i : Z) : Z :=
  match l with
  | [] => (-1)%Z
  | x :: t => if pred x then i else findIndexFrom pred t (i + 1)%Z
  end.

Definition findIndex {A : Type} (pred : A -> bool) (l : list A) : Z :=
  findIndexFrom pred l 0%Z.

(** The four keys a record answers to. *)
Definition projectKeys (project : Project) : list Js.Value :=
  [ Js.ofOption (slug project);
    Js.ofOption (display_title project);
    Js.Str (title project);
    index project ].

Definition keyMatches (normalizedParam : string) (project : Project) : bool :=
  existsb (fun key => String.eqb (normalizeProjectKey key) normalizedParam)
          (projectKeys project).

Definition findProjectIndexFromParam
    (projectsData : list Project) (param : option string) : Z :=
  let normalizedParam := normalizeProjectKey (Js.ofOption param) in
  if Js.isEmpty normalizedParam then (-1)%Z
  else findIndex (keyMatches normalizedParam) projectsData.

(* ================================================================== *)
(** ** Meta fields of the detail view ([renderProjectDetail]) *)
(* ================================================================== *)

(** A [Map] with string keys: the entries in insertion order, one per key. *)
Definition JsMap (V : Type) : Type := list (string * V).

Fixpoint mapSet {V : Type} (k : string) (v : V) (m : JsMap V) : JsMap V :=
  match m with
  | [] => [(k, v)]
  | (k', v') :: t =>
      if String.eqb k' k then (k', v) :: t else (k', v') :: mapSet k v t
  end.

Fixpoint mapGet {V : Type} (k : string) (m : JsMap V) : option V :=
  match m with
  | [] => None
  | (k', v') :: t => if String.eqb k' k then Some v' else mapGet k t
  end.

Definition mapHas {V : Type} (k : string) (m : JsMap V) : bool :=
  match mapGet k m with
  | Some _ => true
  | None => false
  end.

(** [new Map(entries)]. *)
Definition mapOfEntries {V : Type} (entries : list (string * V)) : JsMap V :=
  fold_left (fun m e => mapSet (fst e) (snd e) m) entries [].

(** [array.includes(k)] on an array of strings. *)
Definition includes (k : string) (l : list string) : bool :=
  existsb (String.eqb k) l.

(** [if (!l.includes(k)) l.push(k)]. *)
Definition pushIfNew (k : string) (l : list string) : list string :=
  if includes k l then l else l ++ [k].

(** [array.map((x, index) => f x index)], counting from [i]. *)
Fixpoint mapiFrom {A B : Type} (f : A -> nat -> B) (l : list A) (i : nat) : list B :=
  match l with
  | [] => []
  | x :: t => f x i :: mapiFrom f t (S i)
  end.

(** An entry of [customMetaFields]. *)
Record MetaField : Type := mkMetaField {
  mf_id : string;
  mf_token : string;
  mf_label : string;
  mf_value : string;
  mf_aliases : list string
}.

(** One rendered [.meta-item]: the label and the text handed to the markup
    translator for the value. *)
Record MetaItem : Type := mkMetaItem {
  meta_label : string;
  meta_value : string
}.

Definition baseMetaFields : list (string * string) :=
  [ ("location", "LOCATION");
    ("duration", "DURATION");
    ("program", "PROGRAM");
    ("studio", "STUDIO") ].

Definition reservedMetaLabels : list string :=
  [ "LOCATION"; "DURATION"; "PROGRAM"; "STUDIO" ].

Definition baseMetaFieldMap : JsMap string := mapOfEntries baseMetaFields.

(** [project[key]] for the keys of [baseMetaFields]. *)
Definition baseProperty (project : Project) (key : string) : option string :=
  if String.eqb key "location" then location project
  else if String.eqb key "duration" then duration project
  else if String.eqb key "program" then program project
  else if String.eqb key "studio" then studio project
  else None.

(** [String(field.label || '').trim().toUpperCase()]. *)
Definition normalizedLabelOf (label : string) : string :=
  Js.toUpperCase (Js.trim label).

(** The predicate of [custom_fields.filter]. *)
Definition keepCustomField (field : CustomField) : bool :=
  if negb (Js.truthy (cf_label field)) || negb (Js.truthy (cf_value field))
  then false
  else negb (includes (normalizedLabelOf (Js.orEmpty (cf_label field)))
                      reservedMetaLabels).

(** The function of [.map((field, index) => ...)]. *)
Definition toMetaField (field : CustomField) (index : nat) : MetaField :=
  let fieldId :=
    if Js.truthy (cf_id field) then Js.orEmpty (cf_id field)
    else ("index-" ++ Js.ofNat index)%string in
  let normalizedLabel := normalizedLabelOf (Js.orEmpty (cf_label field)) in
  {| mf_id := fieldId;
     mf_token := ("custom:" ++ fieldId)%string;
     mf_label := Js.orEmpty (cf_label field);
     mf_value := Js.orEmpty (cf_value field);
     mf_aliases :=
       [ fieldId;
         ("custom:" ++ fieldId)%string;
         if Js.isEmpty normalizedLabel then EmptyString
         else ("label:" ++ normalizedLabel)%string ] |}.

(** [customMetaFields] as first computed, before the legacy team entry. *)
Definition declaredMetaFields (project : Project) : list MetaField :=
  match custom_fields project with
  | Some fields => mapiFrom toMetaField (filter keepCustomField fields) 0
  | None => []
  end.

Definition teamField (value : string) : MetaField :=
  {| mf_id := "legacy-team";
     mf_token := "custom:legacy-team";
     mf_label := "TEAM";
     mf_value := value;
     mf_aliases := [ "legacy-team"; "custom:legacy-team"; "label:TEAM" ] |}.

(** Whether the legacy [team] property gets an entry of its own. *)
Definition addsTeamField (project : Project) : bool :=
  Js.truthy (team project) &&
  negb (existsb (fun field => String.eqb (normalizedLabelOf (mf_label field)) "TEAM")
                (declaredMetaFields project)).

(** [customMetaFields] once the team entry has been pushed. *)
Definition customMetaFields (project : Project) : list MetaField :=
  if addsTeamField project
  then declaredMetaFields project ++ [teamField (Js.orEmpty (team project))]
  else declaredMetaFields project.

(** [customMetaFieldMap], built from the declared entries, then [set] for
    the team entry. *)
Definition customMetaFieldMap (project : Project) : JsMap MetaField :=
  let declared :=
    mapOfEntries (map (fun field => (mf_token field, field))
                      (declaredMetaFields project)) in
  if addsTeamField project
  then mapSet "custom:legacy-team" (teamField (Js.orEmpty (team project))) declared
  else declared.

Definition resolveCustomMetaField (project : Project) (key : string)
  : option MetaField :=
  let normalizedKey := Js.trim key in
  if Js.isEmpty normalizedKey then None
  else if mapHas normalizedKey (customMetaFieldMap project)
  then mapGet normalizedKey (customMetaFieldMap project)
  else
    let prefixedKey :=
      if Js.startsWith "custom:" normalizedKey then normalizedKey
      else ("custom:" ++ normalizedKey)%string in
    if mapHas prefixedKey (customMetaFieldMap project)
    then mapGet prefixedKey (customMetaFieldMap project)
    else
      let normalizedLabelKey :=
        if Js.startsWith "label:" normalizedKey
        then ("label:" ++ Js.toUpperCase (Js.slice 6 normalizedKey))%string
        else ("label:" ++ Js.toUpperCase normalizedKey)%string in
      find (fun field =>
              includes normalizedKey (mf_aliases field)
              || includes prefixedKey (mf_aliases field)
              || includes normalizedLabelKey (mf_aliases field))
           (customMetaFields project).

(** The body of [project.meta_field_order.forEach]. *)
Definition placeOrderedKey (project : Project)
    (orderedMetaKeys : list string) (key : string) : list string :=
  let normalizedKey :=
    match resolveCustomMetaField project key with
    | Some customField =>
        if negb (mapHas key baseMetaFieldMap) then mf_token customField else key
    | None => key
    end in
  if (mapHas normalizedKey baseMetaFieldMap
      || mapHas normalizedKey (customMetaFieldMap project))
     && negb (includes normalizedKey orderedMetaKeys)
  then orderedMetaKeys ++ [normalizedKey]
  else orderedMetaKeys.

(** [orderedMetaKeys] after the three loops that fill it. *)
Definition orderedMetaKeys (project : Project) : list string :=
  let fromOrder :=
    match meta_field_order project with
    | Some keys => fold_left (placeOrderedKey project) keys []
    | None => []
    end in
  let withBase :=
    fold_left (fun acc field => pushIfNew (fst field) acc) baseMetaFields fromOrder in
  fold_left (fun acc field => pushIfNew (mf_token field) acc)
            (customMetaFields project) withBase.

(** The body of [orderedMetaKeys.forEach]: the items one key adds to
    [metaHTML]. *)
Definition renderMetaKey (project : Project) (key : string) : list MetaItem :=
  match mapGet key baseMetaFieldMap with
  | Some label =>
      if Js.truthy (baseProperty project key)
      then [ mkMetaItem label (Js.orEmpty (baseProperty project key)) ]
      else []
  | None =>
      match mapGet key (customMetaFieldMap project) with
      | Some customField =>
          if Js.isEmpty (mf_value customField) then []
          else [ mkMetaItem (mf_label customField) (mf_value customField) ]
      | None => []
      end
  end.

(** [if (project.year) metaHTML += ...] and its two siblings. *)
Definition renderTrailing (label : string) (value : option string) : list MetaItem :=
  if Js.truthy value then [ mkMetaItem label (Js.orEmpty value) ] else [].

(** The items of [metaHTML], in the order they are appended. *)
Definition metaItems (project : Project) : list MetaItem :=
  flat_map (renderMetaKey project) (orderedMetaKeys project)
  ++ renderTrailing "YEAR" (year project)
  ++ renderTrailing "MEDIUM" (medium project)
  ++ renderTrailing "SERIES" (series project).

Definition metaLabels (project : Project) : list string :=
  map meta_label (metaItems project).

(** The meta items as the snapshot of 2026-02-20 kept under [backups/]
    renders them (the oldest copy of the script does the same): four fixed
    fields, the three drawing fields, then every custom field that has a
    label and a value. *)
Definition snapshotMetaItems (project : Project) : list MetaItem :=
  renderTrailing "LOCATION" (location project)
  ++ renderTrailing "DURATION" (duration project)
  ++ renderTrailing "PROGRAM" (program project)
  ++ renderTrailing "STUDIO" (studio project)
  ++ renderTrailing "YEAR" (year project)
  ++ renderTrailing "MEDIUM" (medium project)
  ++ renderTrailing "SERIES" (series project)
  ++ match custom_fields project with
     | Some fields =>
         map (fun field => mkMetaItem (Js.orEmpty (cf_label field))
                                      (Js.orEmpty (cf_value field)))
             (filter (fun field => Js.truthy (cf_label field)
                                   && Js.truthy (cf_value field)) fields)
     | None => []
     end.

(* ================================================================== *)
(** ** The detail view and its language toggle *)
(* ================================================================== *)

(** The two [data-lang] values of the toggle buttons. *)
Inductive Lang : Type := EN | KR.

(** [element.style.display]: [''] or ['none']. *)
Inductive Display : Type := DisplayDefault | DisplayNone.


(** What [renderProjectDetail] leaves in [.project-detail], as far as the
    text of the view goes: the record shown, the meta items, the two
    description paragraphs (when rendered) with their [display], whether the
    toggle was rendered and which of its buttons carries [lang-btn--active].
    The image galleries, captions and reveal animations are not part of this
    record. *)
Record DetailView : Type := mkDetailView {
  dv_project : Project;
  dv_meta : list MetaItem;
  dv_toggle : bool;
  dv_active : Lang;
  dv_descEn : option Display;
  dv_descKo : option Display
}.

(** The markup written to [detail.innerHTML]. *)
Definition renderDetail (project : Project) : DetailView :=
  {| dv_project := project;
     dv_meta := metaItems project;
     dv_toggle := Js.truthy (description_ko project);
     dv_active := EN;
     dv_descEn :=
       if Js.truthy (description project) then Some DisplayDefault else None;
     dv_descKo :=
       if Js.truthy (description_ko project) then Some DisplayNone else None |}.

(** The click listener [setupLangToggle] puts on the button with
    [data-lang = lang]; there is none when the toggle was not rendered. *)
Definition clickLangButton (lang : Lang) (view : DetailView) : DetailView :=
  if dv_toggle view then
    {| dv_project := dv_project view;
       dv_meta := dv_meta view;
       dv_toggle := dv_toggle view;
       dv_active := lang;
       dv_descEn := option_map (fun _ => DisplayDefault) (dv_descEn view);
       dv_descKo :=
         match lang with
         | EN => option_map (fun _ => DisplayNone) (dv_descKo view)
         | KR => option_map (fun _ => DisplayDefault) (dv_descKo view)
         end |}
  else view.



(* ================================================================== *)
(** ** Page and state *)
(* ================================================================== *)

(** The elements the focus can rest on.  Those that outlive a render of
    the detail view: [<body>], the controls the script looks up, and any
    other element that stays in the document, [PageElement].  And those
    inside the detail view (a language button, a link of a text):
    [DetailElement render id] is one that the render number [render] of
    the detail view wrote; the next render replaces it. *)
Inductive Element : Type :=
| Body
| GridButton (i : nat)
| FooterLink (i : nat)
| CloseButton
| PrevButton
| NextButton
| TopButton
| PageElement (id : nat)
| DetailElement (render id : nat).

(** [a === b] on elements. *)
Definition sameElement (a b : Element) : bool :=
  match a, b with
  | Body, Body => true
  | GridButton i, GridButton j => Nat.eqb i j
  | FooterLink i, FooterLink j => Nat.eqb i j
  | CloseButton, CloseButton => true
  | PrevButton, PrevButton => true
  | NextButton, NextButton => true
  | TopButton, TopButton => true
  | PageElement i, PageElement j => Nat.eqb i j
  | DetailElement r i, DetailElement r' j => Nat.eqb r r' && Nat.eqb i j
  | _, _ => false
  end.

(** What [overlay.querySelector] finds inside [#projectOverlay]. *)
Record OverlayEl : Type := mkOverlayEl {
  has_detail : bool;
  has_close : bool;
  has_backdrop : bool;
  has_prev : bool;
  has_next : bool;
  has_scroll : bool
}.

Record Page : Type := mkPage {
  overlay : option OverlayEl;
  gridItemContainers : nat;
  projectsData : list Project;
  pathname : string
}.

(** The callbacks the script hands to [setTimeout] and
    [requestAnimationFrame]. *)
Inductive Callback : Type :=
| RunClearArmed
| FocusCloseButton
| RunOpenProject (i : Z).

Record Timer : Type := mkTimer {
  timer_id : positive;
  timer_ms : nat;
  timer_callback : Callback
}.

Record State : Type := mkState {
  (* variables of the script *)
  currentProjectIndex : Z;
  isOverlayOpen : bool;
  lastFocusedElement : option Element;
  armedGridIndex : Z;
  armedGridResetTimer : option positive;
  heroImagePreloadCache : list string;
  (* document *)
  activeElement : option Element;
  ariaHidden : bool;
  bodyOverlayOpen : bool;
  detail : option DetailView;
  detailRenders : nat;
  prevDisabled : bool;
  nextDisabled : bool;
  overlayScrollTop : Z;
  armedItems : list nat;
  (* event loop *)
  timers : list Timer;
  nextTimerId : positive;
  frames : list Callback
}.

(** The three fields of the overlay state. *)
Record OverlayState : Type := mkOverlayState {
  isOpen : bool;
  currentIndex : Z;
  lastFocused : option Element
}.

Definition overlayState (s : State) : OverlayState :=
  {| isOpen := isOverlayOpen s;
     currentIndex := currentProjectIndex s;
     lastFocused := lastFocusedElement s |}.

Section Setters.
Variable s : State.

Definition set_currentProjectIndex (v : Z) : State :=
  mkState v (isOverlayOpen s) (lastFocusedElement s) (armedGridIndex s)
    (armedGridResetTimer s) (heroImagePreloadCache s) (activeElement s)
    (ariaHidden s) (bodyOverlayOpen s) (detail s) (detailRenders s)
    (prevDisabled s) (nextDisabled s) (overlayScrollTop s) (armedItems s)
    (timers s) (nextTimerId s) (frames s).

Definition set_isOverlayOpen (v : bool) : State :=
  mkState (currentProjectIndex s) v (lastFocusedElement s) (armedGridIndex s)
    (armedGridResetTimer s) (heroImagePreloadCache s) (activeElement s)
    (ariaHidden s) (bodyOverlayOpen s) (detail s) (detailRenders s)
    (prevDisabled s) (nextDisabled s) (overlayScrollTop s) (armedItems s)
    (timers s) (nextTimerId s) (frames s).

Definition set_lastFocusedElement (v : option Element) : State :=
  mkState (currentProjectIndex s) (isOverlayOpen s) v (armedGridIndex s)
    (armedGridResetTimer s) (heroImagePreloadCache s) (activeElement s)
    (ariaHidden s) (bodyOverlayOpen s) (detail s) (detailRenders s)
    (prevDisabled s) (nextDisabled s) (overlayScrollTop s) (armedItems s)
    (timers s) (nextTimerId s) (frames s).

Definition set_armedGridIndex (v : Z) : State :=
  mkState (currentProjectIndex s) (isOverlayOpen s) (lastFocusedElement s) v
    (armedGridResetTimer s) (heroImagePreloadCache s) (activeElement s)
    (ariaHidden s) (bodyOverlayOpen s) (detail s) (detailRenders s)
    (prevDisabled s) (nextDisabled s) (overlayScrollTop s) (armedItems s)
    (timers s) (nextTimerId s) (frames s).

Definition set_armedGridResetTimer (v : option positive) : State :=
  mkState (currentProjectIndex s) (isOverlayOpen s) (lastFocusedElement s)
    (armedGridIndex s) v (heroImagePreloadCache s) (activeElement s)
    (ariaHidden s) (bodyOverlayOpen s) (detail s) (detailRenders s)
    (prevDisabled s) (nextDisabled s) (overlayScrollTop s) (armedItems s)
    (timers s) (nextTimerId s) (frames s).

Definition set_heroImagePreloadCache (v : list string) : State :=
  mkState (currentProjectIndex s) (isOverlayOpen s) (lastFocusedElement s)
    (armedGridIndex s) (armedGridResetTimer s) v (activeElement s)
    (ariaHidden s) (bodyOverlayOpen s) (detail s) (detailRenders s)
    (prevDisabled s) (nextDisabled s) (overlayScrollTop s) (armedItems s)
    (timers s) (nextTimerId s) (frames s).

Definition set_activeElement (v : option Element) : State :=
  mkState (currentProjectIndex s) (isOverlayOpen s) (lastFocusedElement s)
    (armedGridIndex s) (armedGridResetTimer s) (heroImagePreloadCache s) v
    (ariaHidden s) (bodyOverlayOpen s) (detail s) (detailRenders s)
    (prevDisabled s) (nextDisabled s) (overlayScrollTop s) (armedItems s)
    (timers s) (nextTimerId s) (frames s).

Definition set_ariaHidden (v : bool) : State :=
  mkState (currentProjectIndex s) (isOverlayOpen s) (lastFocusedElement s)
    (armedGridIndex s) (armedGridResetTimer s) (heroImagePreloadCache s)
    (activeElement s) v (bodyOverlayOpen s) (detail s) (detailRenders s)
    (prevDisabled s) (nextDisabled s) (overlayScrollTop s) (armedItems s)
    (timers s) (nextTimerId s) (frames s).

Definition set_bodyOverlayOpen (v : bool) : State :=
  mkState (currentProjectIndex s) (isOverlayOpen s) (lastFocusedElement s)
    (armedGridIndex s) (armedGridResetTimer s) (heroImagePreloadCache s)
    (activeElement s) (ariaHidden s) v (detail s) (detailRenders s)
    (prevDisabled s) (nextDisabled s) (overlayScrollTop s) (armedItems s)
    (timers s) (nextTimerId s) (frames s).

Definition set_detail (v : option DetailView) : State :=
  mkState (currentProjectIndex s) (isOverlayOpen s) (lastFocusedElement s)
    (armedGridIndex s) (armedGridResetTimer s) (heroImagePreloadCache s)
    (activeElement s) (ariaHidden s) (bodyOverlayOpen s) v (detailRenders s)
    (prevDisabled s) (nextDisabled s) (overlayScrollTop s) (armedItems s)
    (timers s) (nextTimerId s) (frames s).

Definition set_detailRenders (v : nat) : State :=
  mkState (currentProjectIndex s) (isOverlayOpen s) (lastFocusedElement s)
    (armedGridIndex s) (armedGridResetTimer s) (heroImagePreloadCache s)
    (activeElement s) (ariaHidden s) (bodyOverlayOpen s) (detail s) v
    (prevDisabled s) (nextDisabled s) (overlayScrollTop s) (armedItems s)
    (timers s) (nextTimerId s) (frames s).

Definition set_navDisabled (p n : bool) : State :=
  mkState (currentProjectIndex s) (isOverlayOpen s) (lastFocusedElement s)
    (armedGridIndex s) (armedGridResetTimer s) (heroImagePreloadCache s)
    (activeElement s) (ariaHidden s) (bodyOverlayOpen s) (detail s)
    (detailRenders s) p n (overlayScrollTop s) (armedItems s) (timers s)
    (nextTimerId s) (frames s).

Definition set_overlayScrollTop (v : Z) : State :=
  mkState (currentProjectIndex s) (isOverlayOpen s) (lastFocusedElement s)
    (armedGridIndex s) (armedGridResetTimer s) (heroImagePreloadCache s)
    (activeElement s) (ariaHidden s) (bodyOverlayOpen s) (detail s)
    (detailRenders s) (prevDisabled s) (nextDisabled s) v (armedItems s)
    (timers s) (nextTimerId s) (frames s).

Definition set_armedItems (v : list nat) : State :=
  mkState (currentProjectIndex s) (isOverlayOpen s) (lastFocusedElement s)
    (armedGridIndex s) (armedGridResetTimer s) (heroImagePreloadCache s)
    (activeElement s) (ariaHidden s) (bodyOverlayOpen s) (detail s)
    (detailRenders s) (prevDisabled s) (nextDisabled s) (overlayScrollTop s) v
    (timers s) (nextTimerId s) (frames s).

Definition set_timers (v : list Timer) (next : positive) : State :=
  mkState (currentProjectIndex s) (isOverlayOpen s) (lastFocusedElement s)
    (armedGridIndex s) (armedGridResetTimer s) (heroImagePreloadCache s)
    (activeElement s) (ariaHidden s) (bodyOverlayOpen s) (detail s)
    (detailRenders s) (prevDisabled s) (nextDisabled s) (overlayScrollTop s)
    (armedItems s) v next (frames s).

Definition set_frames (v : list Callback) : State :=
  mkState (currentProjectIndex s) (isOverlayOpen s) (lastFocusedElement s)
    (armedGridIndex s) (armedGridResetTimer s) (heroImagePreloadCache s)
    (activeElement s) (ariaHidden s) (bodyOverlayOpen s) (detail s)
    (detailRenders s) (prevDisabled s) (nextDisabled s) (overlayScrollTop s)
    (armedItems s) (timers s) (nextTimerId s) v.
End Setters.

(** The state the script starts from: the initial values of its [let]
    declarations, and a document in which [focused] has the focus. *)
Definition initialState (focused : option Element) : State :=
  {| currentProjectIndex := 0%Z;
     isOverlayOpen := false;
     lastFocusedElement := None;
     armedGridIndex := (-1)%Z;
     armedGridResetTimer := None;
     heroImagePreloadCache := [];
     activeElement := focused;
     ariaHidden := true;
     bodyOverlayOpen := false;
     detail := None;
     detailRenders := 0;
     prevDisabled := false;
     nextDisabled := false;
     overlayScrollTop := 0%Z;
     armedItems := [];
     timers := [];
     nextTimerId := 1%positive;
     frames := [] |}.

(** ** Outcomes *)

Inductive JsError : Type :=
| TypeError (what : string).

Inductive Outcome : Type :=
| Returned (s : State)
| Threw (e : JsError) (s : State).

Definition Proc : Type := State -> Outcome.

Definition andThen (p q : Proc) : Proc :=
  fun s =>
    match p s with
    | Returned s' => q s'
    | Threw e s' => Threw e s'
    end.

Definition run (f : State -> State) : Proc := fun s => Returned (f s).

Notation "p ;; q" := (andThen p q) (at level 61, right associativity).

(** The state a call leaves behind, whether it returned or threw. *)
Definition stateOf (o : Outcome) : State :=
  match o with
  | Returned s => s
  | Threw _ s => s
  end.

Definition returns (o : Outcome) : bool :=
  match o with
  | Returned _ => true
  | Threw _ _ => false
  end.

(* ================================================================== *)
(** ** Browser primitives *)
(* ================================================================== *)

(** [setTimeout(callback, ms)]: the new timer's id and the state holding
    it. *)
Definition setTimeout (callback : Callback) (ms : nat) (s : State)
  : positive * State :=
  let id := nextTimerId s in
  (id, set_timers s (timers s ++ [mkTimer id ms callback]) (Pos.succ id)).

(** [clearTimeout(id)]. *)
Definition clearTimeout (id : positive) (s : State) : State :=
  set_timers s
    (filter (fun t => negb (Pos.eqb (timer_id t) id)) (timers s))
    (nextTimerId s).

(** [requestAnimationFrame(callback)]. *)
Definition requestAnimationFrame (callback : Callback) (s : State) : State :=
  set_frames s (frames s ++ [callback]).

(** [classList.add] and [classList.remove] of [grid-item--armed] on the
    container of tile [i]. *)
Definition addArmedClass (i : nat) (s : State) : State :=
  if existsb (Nat.eqb i) (armedItems s) then s
  else set_armedItems s (armedItems s ++ [i]).

Definition removeArmedClass (i : nat) (s : State) : State :=
  set_armedItems s (filter (fun j => negb (Nat.eqb j i)) (armedItems s)).

(** [array[index]] for an integer [index]: [undefined] out of range. *)
Definition at_ {A : Type} (l : list A) (index : Z) : option A :=
  if (index <? 0)%Z then None else nth_error l (Z.to_nat index).

(** [gridItemContainers[index]]: the tile, when there is one. *)
Definition gridItemAt (pg : Page) (index : Z) : option nat :=
  if ((0 <=? index) && (index <? Z.of_nat (gridItemContainers pg)))%Z
  then Some (Z.to_nat index) else None.

(* ================================================================== *)
(** ** Grid interaction *)
(* ================================================================== *)

Definition clearArmedGridItem (pg : Page) (s : State) : State :=
  let s1 :=
    match armedGridResetTimer s with
    | Some t => set_armedGridResetTimer (clearTimeout t s) None
    | None => s
    end in
  if (armedGridIndex s1 <? 0)%Z then s1
  else
    let s2 :=
      match gridItemAt pg (armedGridIndex s1) with
      | Some armedItem => removeArmedClass armedItem s1
      | None => s1
      end in
    set_armedGridIndex s2 (-1)%Z.

Definition armGridItem (pg : Page) (index : nat) (s : State) : State :=
  let s1 := clearArmedGridItem pg s in
  match gridItemAt pg (Z.of_nat index) with
  | None => s1
  | Some item =>
      let s2 := addArmedClass item s1 in
      let s3 := set_armedGridIndex s2 (Z.of_nat index) in
      let (id, s4) := setTimeout RunClearArmed 2400 s3 in
      set_armedGridResetTimer s4 (Some id)
  end.

(* ================================================================== *)
(** ** Hero image preloading (the cache only) *)
(* ================================================================== *)

(** [.replace(/\s+/g, '-')]: each run of white space becomes one dash. *)
Fixpoint dashSpacesFrom (inRun : bool) (s : string) : string :=
  match s with
  | EmptyString => EmptyString
  | String c t =>
      if Js.isSpace c
      then if inRun then dashSpacesFrom true t
           else String "-"%char (dashSpacesFrom true t)
      else String c (dashSpacesFrom false t)
  end.

Definition dashSpaces : string -> string := dashSpacesFrom false.

(** [haystack.includes(needle)]. *)
Fixpoint includesText (needle haystack : string) : bool :=
  String.prefix needle haystack ||
  match haystack with
  | EmptyString => false
  | String _ t => includesText needle t
  end.

Definition projectSlug (project : Project) : string :=
  if Js.truthy (slug project) then Js.orEmpty (slug project)
  else dashSpaces (Js.toLowerCase (title project)).

Definition getProjectImageBasePath (pg : Page) (project : option Project) : string :=
  match project with
  | None => EmptyString
  | Some p =>
      let imageFolder :=
        if includesText "drawings" (pathname pg) then "images/drawings"
        else if includesText "graphics" (pathname pg) then "images/graphics"
        else "images/projects" in
      (imageFolder ++ "/" ++ projectSlug p)%string
  end.

Definition getProjectHeroCandidates (pg : Page) (project : option Project)
  : list string :=
  let basePath := getProjectImageBasePath pg project in
  if Js.isEmpty basePath then []
  else [ (basePath ++ "/main.jpg")%string;
         (basePath ++ "/main.webp")%string;
         (basePath ++ "/cover.jpg")%string;
         (basePath ++ "/cover.webp")%string;
         (basePath ++ "/thumb.jpg")%string;
         (basePath ++ "/thumb.webp")%string ].

(** [preloadProjectHeroImage]: the entry it makes in
    [heroImagePreloadCache]; the image loads themselves run later (see
    [preloadImageSequence]). *)
Definition preloadProjectHeroImage (pg : Page) (project : option Project)
    (s : State) : State :=
  let basePath := getProjectImageBasePath pg project in
  if Js.isEmpty basePath then s
  else if includes basePath (heroImagePreloadCache s) then s
  else set_heroImagePreloadCache s (heroImagePreloadCache s ++ [basePath]).

(** [preloadHero] of [init], the listener of [pointerenter], [focus] and
    [touchstart] on grid button [index]. *)
Definition preloadHero (pg : Page) (index : nat) (s : State) : State :=
  match nth_error (projectsData pg) index with
  | Some project => preloadProjectHeroImage pg (Some project) s
  | None => s
  end.

(* ================================================================== *)
(** ** Focus *)
(* ================================================================== *)

Definition hasFocus (e : Element) (s : State) : bool :=
  match activeElement s with
  | Some active => sameElement active e
  | None => false
  end.

(** The listeners of the [focus] event: the grid buttons have one,
    [preloadHero]. *)
Definition focusListeners (pg : Page) (e : Element) (s : State) : State :=
  match e with
  | GridButton index => preloadHero pg index s
  | _ => s
  end.

(** The focus lands on [e]: if [e] did not have it, it becomes the active
    element and its [focus] listeners run. *)
Definition takeFocus (pg : Page) (e : Element) (s : State) : State :=
  if hasFocus e s then s
  else focusListeners pg e (set_activeElement s (Some e)).

(** Whether [element.focus()] can give [e] the focus: not [<body>], which
    is not focusable (it is [document.activeElement] when nothing has the
    focus), not a disabled button, and not an element of the detail view
    that a later render has replaced.  The script takes no element out of
    the focus order in another way: closing the overlay sets [aria-hidden]
    and removes a class of [<body>], which leave the controls of the
    overlay focusable; what the style sheet, which is not among the
    sources, makes of them is not followed here. *)
Definition canTakeFocus (e : Element) (s : State) : bool :=
  match e with
  | Body => false
  | PrevButton => negb (prevDisabled s)
  | NextButton => negb (nextDisabled s)
  | DetailElement render _ => (0 <? render) && (render =? detailRenders s)
  | _ => true
  end.

(** [element.focus()]. *)
Definition focus (pg : Page) (e : Element) (s : State) : State :=
  if canTakeFocus e s then takeFocus pg e s else s.

(** The focus moves without the script: by a click, by the browser's own
    handling of Tab, or away from every element ([None]). *)
Definition moveFocus (pg : Page) (target : option Element) (s : State) : State :=
  match target with
  | Some e => takeFocus pg e s
  | None => set_activeElement s None
  end.

(* ================================================================== *)
(** ** Overlay functions *)
(* ================================================================== *)

Definition isNil {A : Type} (l : list A) : bool :=
  match l with
  | [] => true
  | _ :: _ => false
  end.

Definition renderProjectDetail (pg : Page) (project : option Project)
    (s : State) : State :=
  match overlay pg, project with
  | Some ov, Some p =>
      if has_detail ov
      then set_detailRenders (set_detail s (Some (renderDetail p)))
                             (S (detailRenders s))
      else s
  | _, _ => s
  end.

(** [overlay.querySelector(...)] with [overlay] possibly [null]. *)
Definition withOverlay (pg : Page) (body : OverlayEl -> State -> State) : Proc :=
  fun s =>
    match overlay pg with
    | Some ov => Returned (body ov s)
    | None => Threw (TypeError "overlay is null") s
    end.

Definition updateNavButtons (pg : Page) : Proc :=
  withOverlay pg (fun ov s =>
    let p := if has_prev ov then (currentProjectIndex s =? 0)%Z
             else prevDisabled s in
    let n := if has_next ov
             then (currentProjectIndex s =? Z.of_nat (List.length (projectsData pg)) - 1)%Z
             else nextDisabled s in
    set_navDisabled s p n).

Definition scrollOverlayToTop (pg : Page) : Proc :=
  withOverlay pg (fun ov s =>
    if has_scroll ov then set_overlayScrollTop s 0%Z else s).

Definition openProject (pg : Page) (index : Z) : Proc :=
  fun s =>
    match overlay pg with
    | None => Returned s
    | Some ov =>
        if isNil (projectsData pg) then Returned s
        else
          (run (clearArmedGridItem pg) ;;
           run (fun s => set_currentProjectIndex s index) ;;
           run (fun s => set_lastFocusedElement s (activeElement s)) ;;
           run (preloadProjectHeroImage pg (at_ (projectsData pg) index)) ;;
           run (renderProjectDetail pg (at_ (projectsData pg) index)) ;;
           updateNavButtons pg ;;
           run (fun s => set_isOverlayOpen s true) ;;
           run (fun s => set_ariaHidden s false) ;;
           run (fun s => set_bodyOverlayOpen s true) ;;
           run (fun s => snd (setTimeout FocusCloseButton 100 s)) ;;
           run (fun s => if has_scroll ov then set_overlayScrollTop s 0%Z else s)) s
    end.

Definition closeOverlay (pg : Page) : Proc :=
  fun s =>
    match overlay pg with
    | None => Returned s
    | Some _ =>
        if negb (isOverlayOpen s) then Returned s
        else
          (run (fun s => set_isOverlayOpen s false) ;;
           run (fun s => set_ariaHidden s true) ;;
           run (fun s => set_bodyOverlayOpen s false) ;;
           run (fun s =>
                  match lastFocusedElement s with
                  | Some e => focus pg e s
                  | None => s
                  end)) s
    end.

Definition goToPrevProject (pg : Page) : Proc :=
  fun s =>
    if (currentProjectIndex s >? 0)%Z then
      (run (fun s => set_currentProjectIndex s (currentProjectIndex s - 1)%Z) ;;
       run (fun s => renderProjectDetail pg
                       (at_ (projectsData pg) (currentProjectIndex s)) s) ;;
       updateNavButtons pg ;;
       scrollOverlayToTop pg) s
    else Returned s.

Definition goToNextProject (pg : Page) : Proc :=
  fun s =>
    if (currentProjectIndex s <? Z.of_nat (List.length (projectsData pg)) - 1)%Z then
      (run (fun s => set_currentProjectIndex s (currentProjectIndex s + 1)%Z) ;;
       run (fun s => renderProjectDetail pg
                       (at_ (projectsData pg) (currentProjectIndex s)) s) ;;
       updateNavButtons pg ;;
       scrollOverlayToTop pg) s
    else Returned s.

(** ** Deep link *)

(** [openProjectFromQueryParam], given [params.get('project')] and
    [params.get('autopopup')]. *)
Definition openProjectFromQueryParam (pg : Page)
    (projectParam autopopup : option string) (s : State) : State :=
  match overlay pg with
  | None => s
  | Some _ =>
      if isNil (projectsData pg) then s
      else
        let forceOpen :=
          match autopopup with
          | Some v => String.eqb v "1"
          | None => false
          end in
        if negb (Js.truthy projectParam) && negb forceOpen then s
        else
          let projectIndex := findProjectIndexFromParam (projectsData pg) projectParam in
          if (projectIndex <? 0)%Z then
            if negb forceOpen then s
            else requestAnimationFrame (RunOpenProject 0%Z) s
          else requestAnimationFrame (RunOpenProject projectIndex) s
  end.

(* ================================================================== *)
(** ** The focus trap ([trapFocus]) *)
(* ================================================================== *)

Section FocusTrap.

(** The elements the selector of [trapFocus] can find, compared by
    identity. *)
Variable Node : Type.
Variable sameNode : Node -> Node -> bool.

Definition isActive (activeElement : option Node) (element : Node) : bool :=
  match activeElement with
  | Some active => sameNode active element
  | None => false
  end.

(** [trapFocus(e)] on a page with the overlay element, given what
    [overlay.querySelectorAll] finds, in document order: the element it
    moves the focus to after [e.preventDefault()], or [None] where it
    leaves the key to the browser. *)
Definition trapFocus (focusableElements : list Node) (shiftKey : bool)
    (activeElement : option Node) : option Node :=
  match focusableElements with
  | [] => None
  | firstElement :: _ =>
      let lastElement := last focusableElements firstElement in
      if shiftKey then
        if isActive activeElement firstElement then Some lastElement else None
      else
        if isActive activeElement lastElement then Some firstElement else None
  end.

(** The focus after Tab or Shift+Tab while the overlay is open: where
    [trapFocus] puts it, or else where the browser's own handling of the
    key, [browserTab], does. *)
Definition focusAfterTab (browserTab : bool -> option Node -> option Node)
    (focusableElements : list Node) (shiftKey : bool)
    (activeElement : option Node) : option Node :=
  match trapFocus focusableElements shiftKey activeElement with
  | Some target => Some target
  | None => browserTab shiftKey activeElement
  end.

End FocusTrap.

Arguments isActive {Node}.
Arguments trapFocus {Node}.
Arguments focusAfterTab {Node}.

(** ** Callbacks and the event loop *)

Definition runCallback (pg : Page) (callback : Callback) : Proc :=
  match callback with
  | RunClearArmed => run (clearArmedGridItem pg)
  | FocusCloseButton =>
      withOverlay pg (fun ov s => if has_close ov then focus pg CloseButton s else s)
  | RunOpenProject i => openProject pg i
  end.

(** The timer [id] expires: it leaves the list and its callback runs. *)
Definition fireTimer (pg : Page) (id : positive) : Proc :=
  fun s =>
    match find (fun t => Pos.eqb (timer_id t) id) (timers s) with
    | Some t => runCallback pg (timer_callback t) (clearTimeout id s)
    | None => Returned s
    end.

(** The next animation frame: the queued callbacks run in order. *)
Fixpoint runCallbacks (pg : Page) (callbacks : list Callback) : Proc :=
  match callbacks with
  | [] => Returned
  | c :: rest => fun s => runCallbacks pg rest (stateOf (runCallback pg c s))
  end.

Definition runFrame (pg : Page) : Proc :=
  fun s => runCallbacks pg (frames s) (set_frames s []).

(** The keys the listeners tell apart.  A [Tab] comes with the state of
    the Shift key and with what the selector of [trapFocus] finds in the
    overlay at that moment, in document order.  Where a listener does not
    call [preventDefault], what the browser then does with the key (its own
    move of the focus on Tab) is an event of its own, [FocusMoves]. *)
Inductive Key : Type :=
| Escape
| ArrowLeft
| ArrowRight
| Enter
| Space
| OtherKey
| Tab (shiftKey : bool) (focusableElements : list Element).

(** [trapFocus(e)]. *)
Definition trapFocusOnTab (pg : Page) (shiftKey : bool)
    (focusableElements : list Element) (s : State) : State :=
  match overlay pg with
  | None => s
  | Some _ =>
      match trapFocus sameElement focusableElements shiftKey (activeElement s) with
      | Some target => focus pg target s
      | None => s
      end
  end.

Definition handleKeyDown (pg : Page) (key : Key) : Proc :=
  fun s =>
    if negb (isOverlayOpen s) then Returned s
    else
      match key with
      | Escape => closeOverlay pg s
      | ArrowLeft => goToPrevProject pg s
      | ArrowRight => goToNextProject pg s
      | Tab shiftKey focusableElements =>
          Returned (trapFocusOnTab pg shiftKey focusableElements s)
      | _ => Returned s
      end.

(** What the user or the browser can do to the page. *)
Inductive Event : Type :=
| ClickGridButton (index : nat) (directOpen : bool)
| KeyOnGridButton (index : nat) (key : Key)
| ClickElsewhere
| ClickClose
| ClickBackdrop
| ClickPrev
| ClickNext
| ClickFooterLink (projectIndex : Z)
| ClickLang (lang : Lang)
| KeyDown (key : Key)
| FocusMoves (target : option Element)
| TimerExpires (id : positive)
| AnimationFrame
| PointerOnGridButton (index : nat)
| PrimedHeroPreload (index : nat).

(** The listeners [init] binds.  [directOpen] is what
    [isDesktopDirectOpenMode()] answers at the click.  A click outside the
    grid buttons also reaches the document listener, which disarms.
    [PointerOnGridButton] is a [pointerenter] or a [touchstart] on a grid
    button.  [PrimedHeroPreload] is one of the preloads that
    [primeInitialHeroImages] schedules for the first two records; they are
    not entered into [timers], and the event may occur at any time. *)
Definition handle (pg : Page) (ev : Event) : Proc :=
  match ev with
  | ClickGridButton index directOpen =>
      fun s =>
        if directOpen then
          (run (clearArmedGridItem pg) ;; openProject pg (Z.of_nat index)) s
        else if (armedGridIndex s =? Z.of_nat index)%Z then
          (run (clearArmedGridItem pg) ;; openProject pg (Z.of_nat index)) s
        else run (armGridItem pg index) s
  | KeyOnGridButton index key =>
      match key with
      | Enter | Space =>
          run (clearArmedGridItem pg) ;; openProject pg (Z.of_nat index) ;;
          handleKeyDown pg key
      | _ => handleKeyDown pg key
      end
  | ClickElsewhere => run (clearArmedGridItem pg)
  | ClickClose =>
      fun s =>
        match overlay pg with
        | Some ov =>
            run (clearArmedGridItem pg)
                (stateOf (if has_close ov then closeOverlay pg s else Returned s))
        | None => run (clearArmedGridItem pg) s
        end
  | ClickBackdrop =>
      fun s =>
        match overlay pg with
        | Some ov =>
            run (clearArmedGridItem pg)
                (stateOf (if has_backdrop ov then closeOverlay pg s else Returned s))
        | None => run (clearArmedGridItem pg) s
        end
  | ClickPrev =>
      fun s =>
        match overlay pg with
        | Some ov =>
            run (clearArmedGridItem pg)
                (stateOf (if has_prev ov then goToPrevProject pg s else Returned s))
        | None => run (clearArmedGridItem pg) s
        end
  | ClickNext =>
      fun s =>
        match overlay pg with
        | Some ov =>
            run (clearArmedGridItem pg)
                (stateOf (if has_next ov then goToNextProject pg s else Returned s))
        | None => run (clearArmedGridItem pg) s
        end
  | ClickFooterLink projectIndex =>
      fun s =>
        run (clearArmedGridItem pg)
            (stateOf (if (projectIndex <? 0)%Z then Returned s
                      else openProject pg projectIndex s))
  | ClickLang lang =>
      run (fun s => clearArmedGridItem pg
                      (set_detail s (option_map (clickLangButton lang) (detail s))))
  | KeyDown key => handleKeyDown pg key
  | FocusMoves target => run (moveFocus pg target)
  | TimerExpires id => fireTimer pg id
  | AnimationFrame => runFrame pg
  | PointerOnGridButton index => run (preloadHero pg index)
  | PrimedHeroPreload index =>
      run (fun s => if index <? 2 then preloadHero pg index s else s)
  end.

(** The state after an event: an uncaught exception ends the listener and
    leaves the state as it is then. *)
Definition step (pg : Page) (s : State) (ev : Event) : State :=
  stateOf (handle pg ev s).

Definition steps (pg : Page) (evs : list Event) (s : State) : State :=
  fold_left (step pg) evs s.

(** The states the page can be in: those reached from the state [init]
    leaves, by a sequence of events.  Of the steps of [init] only
    [openProjectFromQueryParam] writes to the state modelled here before
    [init] returns; [primeInitialHeroImages] schedules preloads that run
    later ([PrimedHeroPreload]), and the others render the footer, start
    reveal animations and load thumbnails. *)
Definition pageLoaded (pg : Page) (projectParam autopopup : option string)
    (focused : option Element) : State :=
  openProjectFromQueryParam pg projectParam autopopup (initialState focused).

Inductive Reachable (pg : Page) : State -> Prop :=
| reach_init : forall projectParam autopopup focused,
    Reachable pg (pageLoaded pg projectParam autopopup focused)
| reach_step : forall s ev,
    Reachable pg s -> Reachable pg (step pg s ev).

(* ================================================================== *)
(** ** Image fallback *)
(* ================================================================== *)

Section ImageFallback.

(** What the network answers for a URL assigned to [img.src]: [true] when
    the [load] event fires, [false] when [error] fires. *)
Variable loads : string -> bool.

(** The result of a fallback chain: the URLs assigned to [img.src], in the
    order they were tried, and what the chain ended with. *)
Record Probe (A : Type) : Type := mkProbe {
  attempts : list string;
  outcome : A
}.
Arguments mkProbe {A}.
Arguments attempts {A}.
Arguments outcome {A}.

(** [candidates[index]] for an index in range; the test
    [index >= candidates.length] is [le_lt_dec] below. *)
Definition candidateAt (candidates : list string) (index : nat) : string :=
  nth index candidates EmptyString.

(** [tryLoad] of [preloadImageSequence]; the outcome is the value the
    promise resolves with. *)
Equations? tryLoad (candidates : list string) (index : nat) : Probe string
  by wf (List.length candidates - index) lt :=
  tryLoad candidates index with le_lt_dec (List.length candidates) index => {
    | left _ := mkProbe [] EmptyString
    | right _ with loads (candidateAt candidates index) => {
        | true :=
            mkProbe [candidateAt candidates index] (candidateAt candidates index)
        | false :=
            let later := tryLoad candidates (index + 1) in
            mkProbe (candidateAt candidates index :: attempts later)
                    (outcome later) } }.
Proof. lia. Qed.

Definition preloadImageSequence (candidates : list string) : Probe string :=
  if isNil candidates then mkProbe [] EmptyString
  else tryLoad candidates 0.

(** A grid thumbnail: its two [data-] attributes, the URL the script put
    in its [background-image], and the two classes the script adds. *)
Record Thumb : Type := mkThumb {
  data_thumb : option string;
  data_cover : option string;
  backgroundImage : option string;
  class_loaded : bool;
  class_placeholder : bool
}.

Definition markLoaded (thumb : Thumb) : Thumb :=
  mkThumb (data_thumb thumb) (data_cover thumb) (backgroundImage thumb)
          true (class_placeholder thumb).

Definition markPlaceholder (thumb : Thumb) : Thumb :=
  mkThumb (data_thumb thumb) (data_cover thumb) (backgroundImage thumb)
          true true.

Definition showImage (url : string) (thumb : Thumb) : Thumb :=
  mkThumb (data_thumb thumb) (data_cover thumb) (Some url)
          true (class_placeholder thumb).

(** Whether [s], compared without regard to case, is [ext]. *)
Definition isExt (ext s : string) : bool := String.eqb (Js.toLowerCase s) ext.

(** [url.replace(/\.(jpg|jpeg|png)$/i, '.webp')]. *)
Fixpoint getWebpUrl (url : string) : string :=
  if isExt ".jpg" url || isExt ".jpeg" url || isExt ".png" url then ".webp"
  else match url with
       | EmptyString => EmptyString
       | String c t => String c (getWebpUrl t)
       end.

(** A match of [/\.webp($|\?)/i] at the start of [s]: what follows
    [.webp]. *)
Definition webpHere (s : string) : option string :=
  if String.eqb (Js.toLowerCase (String.substring 0 5 s)) ".webp"
  then match Js.slice 5 s with
       | EmptyString => Some EmptyString
       | String c t => if Ascii.eqb c "?"%char then Some (String c t) else None
       end
  else None.

(** [/\.webp($|\?)/i.test(url)]. *)
Fixpoint isWebpUrl (url : string) : bool :=
  match webpHere url with
  | Some _ => true
  | None => match url with
            | EmptyString => false
            | String _ t => isWebpUrl t
            end
  end.

(** [url.replace(/\.webp($|\?)/i, '.jpg$1')]. *)
Fixpoint webpToJpg (url : string) : string :=
  match webpHere url with
  | Some rest => (".jpg" ++ rest)%string
  | None => match url with
            | EmptyString => EmptyString
            | String c t => String c (webpToJpg t)
            end
  end.

(** [pushCandidate]: [seenUrls] holds exactly the entries of [urlsToTry]. *)
Definition pushCandidate (url : string) (urlsToTry : list string) : list string :=
  if Js.isEmpty url || includes url urlsToTry then urlsToTry
  else urlsToTry ++ [url].

Definition pushCandidates (url : option string) (urlsToTry : list string)
  : list string :=
  if negb (Js.truthy url) then urlsToTry
  else
    let u := Js.orEmpty url in
    if isWebpUrl u then pushCandidate (webpToJpg u) (pushCandidate u urlsToTry)
    else pushCandidate u (pushCandidate (getWebpUrl u) urlsToTry).

(** [tryNextUrl] of [loadThumbnail]; the outcome is the thumbnail as the
    chain leaves it. *)
Equations? tryNextUrl (urlsToTry : list string) (thumb : Thumb) (index : nat)
  : Probe Thumb by wf (List.length urlsToTry - index) lt :=
  tryNextUrl urlsToTry thumb index with le_lt_dec (List.length urlsToTry) index => {
    | left _ := mkProbe [] (markPlaceholder thumb)
    | right _ with loads (candidateAt urlsToTry index) => {
        | true :=
            mkProbe [candidateAt urlsToTry index]
                    (showImage (candidateAt urlsToTry index) thumb)
        | false :=
            let later := tryNextUrl urlsToTry thumb (index + 1) in
            mkProbe (candidateAt urlsToTry index :: attempts later)
                    (outcome later) } }.
Proof. lia. Qed.

Definition thumbnailCandidates (thumb : Thumb) : list string :=
  pushCandidates (data_cover thumb) (pushCandidates (data_thumb thumb) []).

Definition loadThumbnail (thumb : Thumb) : Probe Thumb :=
  if negb (Js.truthy (data_thumb thumb)) && negb (Js.truthy (data_cover thumb))
  then mkProbe [] (markLoaded thumb)
  else tryNextUrl (thumbnailCandidates thumb) thumb 0.

End ImageFallback.

Arguments mkProbe {A}.
Arguments attempts {A}.
Arguments outcome {A}.

(** The first candidate that loads, if any: what a search in order finds. *)
Definition firstLoading (loads : string -> bool) (candidates : list string)
  : option string :=
  find loads candidates.

(* ================================================================== *)
(** ** The embedded payload ([init]) *)
(* ================================================================== *)

Definition quote : ascii := ascii_of_nat 34.
Definition backslash : ascii := ascii_of_nat 92.
Definition lineFeed : ascii := ascii_of_nat 10.
Definition carriageReturn : ascii := ascii_of_nat 13.

(** The characters the regular expression's [.] refuses. *)
Definition isLineTerminator (c : ascii) : bool :=
  Ascii.eqb c lineFeed || Ascii.eqb c carriageReturn.

(** The pattern of [init] (a quote; characters other than quote and
    backslash, interleaved with pairs of a backslash and any character that
    [.] accepts; a quote) tried just after an opening quote: the text
    matched from there, closing quote included, and what follows it.  There
    is at most one way to match: a backslash must take the next character
    with it, and that character must not be a line terminator. *)
Fixpoint matchQuoted (s : string) : option (string * string) :=
  match s with
  | EmptyString => None
  | String c t =>
      if Ascii.eqb c quote then Some (String c EmptyString, t)
      else if Ascii.eqb c backslash then
        match t with
        | EmptyString => None
        | String d t' =>
            if isLineTerminator d then None
            else match matchQuoted t' with
                 | Some (m, rest) => Some (String c (String d m), rest)
                 | None => None
                 end
        end
      else match matchQuoted t with
           | Some (m, rest) => Some (String c m, rest)
           | None => None
           end
  end.

(** [.replace(/\n/g, '\\n')]. *)
Fixpoint escapeLineFeeds (s : string) : string :=
  match s with
  | EmptyString => EmptyString
  | String c t =>
      if Ascii.eqb c lineFeed
      then String backslash (String "n"%char (escapeLineFeeds t))
      else String c (escapeLineFeeds t)
  end.

(** [.replace(/\r/g, '')]. *)
Fixpoint dropCarriageReturns (s : string) : string :=
  match s with
  | EmptyString => EmptyString
  | String c t =>
      if Ascii.eqb c carriageReturn then dropCarriageReturns t
      else String c (dropCarriageReturns t)
  end.

(** The replacer applied to one match. *)
Definition repairMatch (m : string) : string :=
  dropCarriageReturns (escapeLineFeeds m).

Lemma matchQuoted_shorter (s m rest : string) :
  matchQuoted s = Some (m, rest) -> String.length rest < String.length s.
Proof.
  revert m rest.
  induction s as [s IH] using
    (well_founded_induction (well_founded_ltof _ String.length)).
  intros m rest. destruct s as [| c t]; cbn [matchQuoted]; [discriminate |].
  destruct (Ascii.eqb c quote).
  - intros [= <- <-]. cbn. lia.
  - destruct (Ascii.eqb c backslash).
    + destruct t as [| d t']; [discriminate |].
      destruct (isLineTerminator d); [discriminate |].
      destruct (matchQuoted t') as [[m' r'] |] eqn:E; [| discriminate].
      intros [= <- <-]. apply IH in E; [cbn; lia | unfold ltof; cbn; lia].
    + destruct (matchQuoted t) as [[m' r'] |] eqn:E; [| discriminate].
      intros [= <- <-]. apply IH in E; [cbn; lia | unfold ltof; cbn; lia].
Qed.

(** A value to match on, with the equation that says where it came from. *)
Definition inspect {A : Type} (x : A) : {y : A | x = y} := exist _ x eq_refl.

(** The match at position 0 of [s], if the pattern matches there. *)
Definition matchHere (s : string) : option (string * string) :=
  match s with
  | EmptyString => None
  | String c t => if Ascii.eqb c quote then matchQuoted t else None
  end.

(** [jsonText.replace(pattern, replacer)] with the global flag: at each
    position, from the left, a match is replaced and the scan goes on after
    it; where the pattern does not match, the character is kept. *)
Equations? escapeNewlines (s : string) : string by wf (String.length s) lt :=
  escapeNewlines EmptyString := EmptyString;
  escapeNewlines (String c t) with inspect (matchHere (String c t)) => {
    | exist _ (Some (m, rest)) _ :=
        (String c (repairMatch m) ++ escapeNewlines rest)%string
    | exist _ None _ := String c (escapeNewlines t) }.
Proof.
  cbn [matchHere] in e. destruct (Ascii.eqb c quote); [| discriminate].
  apply matchQuoted_shorter in e. cbn [String.length]. lia.
Qed.

(** *** The lexical layer of [JSON.parse] *)

(** A token of a JSON text: a string, by the code units of its value, or
    any character outside the strings. *)
Inductive Token : Type :=
| TString (value : list N)
| TChar (c : ascii).

Definition hexDigit (c : ascii) : option N :=
  let n := Js.code c in
  if Js.isDigit c then Some (N.of_nat (n - 48))
  else if (97 <=? n) && (n <=? 102) then Some (N.of_nat (n - 87))
  else if (65 <=? n) && (n <=? 70) then Some (N.of_nat (n - 55))
  else None.

Definition hex4 (a b c d : ascii) : option N :=
  match hexDigit a, hexDigit b, hexDigit c, hexDigit d with
  | Some x, Some y, Some z, Some w => Some (((x * 16 + y) * 16 + z) * 16 + w)%N
  | _, _, _, _ => None
  end.

(** The character a two-character escape stands for. *)
Definition escapeValue (c : ascii) : option N :=
  if Ascii.eqb c quote then Some 34%N
  else if Ascii.eqb c backslash then Some 92%N
  else if Ascii.eqb c "/"%char then Some 47%N
  else if Ascii.eqb c "b"%char then Some 8%N
  else if Ascii.eqb c "f"%char then Some 12%N
  else if Ascii.eqb c "n"%char then Some 10%N
  else if Ascii.eqb c "r"%char then Some 13%N
  else if Ascii.eqb c "t"%char then Some 9%N
  else None.

Definition consValue (n : N) (r : option (list N * string))
  : option (list N * string) :=
  match r with
  | Some (v, rest) => Some (n :: v, rest)
  | None => None
  end.

(** A string token read from just after its opening quote: its value and
    the text after the closing quote.  The strict reading is JSON's: no
    code unit below 32 may stand unescaped.  The lenient reading is that of
    the payload as the page embeds it: a raw line feed stands for itself
    and a raw carriage return is skipped. *)
Fixpoint scanString (lenient : bool) (s : string) : option (list N * string) :=
  match s with
  | EmptyString => None
  | String c t =>
      if Ascii.eqb c quote then Some ([], t)
      else if Ascii.eqb c backslash then
        match t with
        | EmptyString => None
        | String d t' =>
            if Ascii.eqb d "u"%char then
              match t' with
              | String h1 (String h2 (String h3 (String h4 t''))) =>
                  match hex4 h1 h2 h3 h4 with
                  | Some n => consValue n (scanString lenient t'')
                  | None => None
                  end
              | _ => None
              end
            else
              match escapeValue d with
              | Some n => consValue n (scanString lenient t')
              | None => None
              end
        end
      else if Js.code c <? 32 then
        if lenient then
          if Ascii.eqb c lineFeed then consValue 10%N (scanString lenient t)
          else if Ascii.eqb c carriageReturn then scanString lenient t
          else None
        else None
      else consValue (N_of_ascii c) (scanString lenient t)
  end.

Lemma scanString_shorter (lenient : bool) (s : string) (v : list N) (rest : string) :
  scanString lenient s = Some (v, rest) -> String.length rest < String.length s.
Proof.
  revert v rest.
  induction s as [s IH] using
    (well_founded_induction (well_founded_ltof _ String.length)).
  assert (IH' : forall t v rest, String.length t < String.length s ->
            scanString lenient t = Some (v, rest) ->
            String.length rest < String.length t)
    by (intros t v rest Hlt; apply IH; exact Hlt).
  clear IH. intros v rest.
  assert (Hcons : forall n t, String.length t < String.length s ->
            consValue n (scanString lenient t) = Some (v, rest) ->
            String.length rest < String.length t).
  { intros n t Hlt H. destruct (scanString lenient t) as [[v' r'] |] eqn:E;
      [| discriminate]. cbn in H. injection H as <- <-. eapply IH'; eauto. }
  destruct s as [| c t]; cbn [scanString]; [discriminate |].
  destruct (Ascii.eqb c quote); [intros [= <- <-]; cbn; lia |].
  destruct (Ascii.eqb c backslash).
  - destruct t as [| d t']; [discriminate |].
    destruct (Ascii.eqb d "u"%char).
    + destruct t' as [| h1 [| h2 [| h3 [| h4 t'']]]]; try discriminate.
      destruct (hex4 h1 h2 h3 h4); [| discriminate].
      intros H. apply Hcons in H; cbn in *; lia.
    + destruct (escapeValue d); [| discriminate].
      intros H. apply Hcons in H; cbn in *; lia.
  - destruct (Js.code c <? 32).
    + destruct lenient; [| discriminate].
      destruct (Ascii.eqb c lineFeed).
      * intros H. apply Hcons in H; cbn in *; lia.
      * destruct (Ascii.eqb c carriageReturn); [| discriminate].
        intros H. apply IH' in H; cbn in *; lia.
    + intros H. apply Hcons in H; cbn in *; lia.
Qed.

Definition scanHere (lenient : bool) (s : string) : option (list N * string) :=
  match s with
  | EmptyString => None
  | String c t => if Ascii.eqb c quote then scanString lenient t else None
  end.

(** The tokens of a text, or [None] where a string token is malformed. *)
Equations? tokenize (lenient : bool) (s : string) : option (list Token)
  by wf (String.length s) lt :=
  tokenize lenient EmptyString := Some [];
  tokenize lenient (String c t) with Ascii.eqb c quote => {
    | false := option_map (cons (TChar c)) (tokenize lenient t)
    | true with inspect (scanHere lenient (String c t)) => {
        | exist _ (Some (v, rest)) _ :=
            option_map (cons (TString v)) (tokenize lenient rest)
        | exist _ None _ := None } }.
Proof.
  cbn [scanHere] in e. destruct (Ascii.eqb c quote); [| discriminate].
  apply scanString_shorter in e. cbn [String.length]. lia.
Qed.

Section Init.

(** The rest of [JSON.parse], from the tokens to the array of records. *)
Variable parseTokens : list Token -> option (list Project).

Definition JSON_parse (text : string) : option (list Project) :=
  match tokenize false text with
  | Some tokens => parseTokens tokens
  | None => None
  end.

(** What the payload denotes when raw newlines in its strings are read as
    they stand. *)
Definition lenientParse (text : string) : option (list Project) :=
  match tokenize true text with
  | Some tokens => parseTokens tokens
  | None => None
  end.

(** The [try] block of [init]: [projectsData] after it, given the text
    content of [#projectsData] if the element exists.  A parse error is
    caught and leaves the initial [[]]. *)
Definition parseProjectsData (textContent : option string) : list Project :=
  match textContent with
  | None => []
  | Some jsonText =>
      match JSON_parse (escapeNewlines jsonText) with
      | Some records => records
      | None => []
      end
  end.

End Init.

(* ================================================================== *)
(** ** Thumbnails of the grid ([handleThumbnailFallback]) *)
(* ================================================================== *)

Section Thumbnails.

Variable loads : string -> bool.

(** [String(thumb.style.backgroundImage || '').includes('url(')]: whether
    the thumbnail has an image in its inline style already. *)
Definition hasInlineBg (thumb : Thumb) : bool :=
  match backgroundImage thumb with
  | Some _ => true
  | None => false
  end.

(** The body of the [forEach] of [handleThumbnailFallback]; [isMobile] is
    what the media query [(max-width: 768px)] answers. *)
Definition handleThumbnail (isMobile : bool) (thumb : Thumb) : Probe Thumb :=
  let thumb := markLoaded thumb in
  if isMobile && hasInlineBg thumb then mkProbe [] thumb
  else loadThumbnail loads thumb.

Definition handleThumbnailFallback (isMobile : bool) (thumbs : list Thumb)
  : list (Probe Thumb) :=
  map (handleThumbnail isMobile) thumbs.

End Thumbnails.


(* ================================================================== *)
(** ** Images of the detail view *)
(* ================================================================== *)

(** A lazily loaded image of the detail view: its [data-src] and
    [data-src-webp] attributes, its [src], the [data-tried-webp] mark, the
    class [lazy-loaded], whether the current [src] is shown
    ([img.complete && img.naturalWidth > 0]), and of its surroundings:
    whether it has a parent element and whether that is hidden, and the
    loading state of its frame ([None] where [img.closest(...)] finds no
    frame or the state was never set). *)
Record LazyImage : Type := mkLazyImage {
  lazy_src : option string;
  lazy_srcWebp : option string;
  img_src : option string;
  triedWebp : bool;
  lazy_loaded : bool;
  img_shown : bool;
  has_parent : bool;
  parent_hidden : bool;
  has_frame : bool;
  frame_loading : option bool
}.

(** [setImageLoadingState(img, isLoading)]. *)
Definition setImageLoadingState (isLoading : bool) (img : LazyImage) : LazyImage :=
  if has_frame img
  then mkLazyImage (lazy_src img) (lazy_srcWebp img) (img_src img) (triedWebp img)
                   (lazy_loaded img) (img_shown img) (has_parent img)
                   (parent_hidden img) (has_frame img) (Some isLoading)
  else img.

Section DetailImages.

Variable loads : string -> bool.

(** [img.src = url]: the request is made, and the image is shown when it
    loads. *)
Definition assignSrc (url : string) (img : LazyImage) : LazyImage :=
  mkLazyImage (lazy_src img) (lazy_srcWebp img) (Some url) (triedWebp img)
              (lazy_loaded img) (loads url) (has_parent img)
              (parent_hidden img) (has_frame img) (frame_loading img).

(** The [onload] handler of [loadLazyImageWithFallback]. *)
Definition lazyOnLoad (img : LazyImage) : LazyImage :=
  setImageLoadingState false
    (mkLazyImage (lazy_src img) (lazy_srcWebp img) (img_src img) (triedWebp img)
                 true (img_shown img) (has_parent img)
                 (parent_hidden img) (has_frame img) (frame_loading img)).

Definition markTriedWebp (img : LazyImage) : LazyImage :=
  mkLazyImage (lazy_src img) (lazy_srcWebp img) (img_src img) true
              (lazy_loaded img) (img_shown img) (has_parent img)
              (parent_hidden img) (has_frame img) (frame_loading img).

Definition hideParent (img : LazyImage) : LazyImage :=
  mkLazyImage (lazy_src img) (lazy_srcWebp img) (img_src img) (triedWebp img)
              (lazy_loaded img) (img_shown img) (has_parent img)
              true (has_frame img) (frame_loading img).

(** The last branch of the [onerror] handler. *)
Definition lazyGiveUp (img : LazyImage) : LazyImage :=
  if has_parent img then hideParent (setImageLoadingState false img) else img.

(** [loadLazyImageWithFallback(img)] for an element [img]: the requests
    made and the image as the handlers leave it.  The [onerror] handler
    runs again when the fallback fails, and finds the mark set then. *)
Definition loadLazyImageWithFallback (img : LazyImage) : Probe LazyImage :=
  if lazy_loaded img && Js.truthy (img_src img) && img_shown img
  then mkProbe [] (setImageLoadingState false img)
  else if negb (Js.truthy (lazy_src img)) && negb (Js.truthy (lazy_srcWebp img))
  then mkProbe [] img
  else
    let first :=
      if Js.truthy (lazy_src img) then Js.orEmpty (lazy_src img)
      else Js.orEmpty (lazy_srcWebp img) in
    let img1 := assignSrc first img in
    if loads first then mkProbe [first] (lazyOnLoad img1)
    else if Js.truthy (lazy_srcWebp img) && negb (triedWebp img1) then
      let webp := Js.orEmpty (lazy_srcWebp img) in
      let img2 := assignSrc webp (markTriedWebp img1) in
      if loads webp then mkProbe [first; webp] (lazyOnLoad img2)
      else mkProbe [first; webp] (lazyGiveUp img2)
    else mkProbe [first] (lazyGiveUp img1).

(** *** The hero image *)






(** *** Model images *)










(** *** Slides beyond the rendered ones *)

Definition slideUrl (basePath : string) (index : nat) (ext : string) : string :=
  (basePath ++ "/slide_images/" ++ Js.ofNat index ++ ext)%string.

(** The loop of [discoverExtraSlideImages] from [nextIndex] on, while the
    container stays connected: the requests its probes make and the
    indices of the slides it appends.  The loop ends at the first index
    whose two files both fail; [fuel] bounds the number of rounds, and
    [None] is the loop still running when it is used up. *)
Fixpoint discoverFrom (fuel : nat) (basePath : string) (nextIndex : nat)
  : option (Probe (list nat)) :=
  match fuel with
  | O => None
  | S fuel' =>
      let p := preloadImageSequence loads
                 [slideUrl basePath nextIndex ".jpg";
                  slideUrl basePath nextIndex ".webp"] in
      if Js.isEmpty (outcome p) then Some (mkProbe (attempts p) [])
      else
        match discoverFrom fuel' basePath (nextIndex + 1) with
        | None => None
        | Some later =>
            Some (mkProbe (attempts p ++ attempts later)
                          (nextIndex :: outcome later))
        end
  end.

(** [discoverExtraSlideImages] on a container with [existingSlides]
    slides and a slide section. *)
Definition discoverExtraSlideImages (fuel : nat) (basePath : string)
    (existingSlides : nat) : option (Probe (list nat)) :=
  discoverFrom fuel basePath (Nat.max (existingSlides + 1) 21).

End DetailImages.


(* ================================================================== *)
(** ** Markup of texts ([escapeHtml], [renderLinkedText]) *)
(* ================================================================== *)

Definition nbsp : ascii := ascii_of_nat 160.

(** What the serialization of a text node makes of one code unit. *)
Definition escapeHtmlChar (c : ascii) : string :=
  if Ascii.eqb c "&"%char then "&amp;"
  else if Ascii.eqb c "<"%char then "&lt;"
  else if Ascii.eqb c ">"%char then "&gt;"
  else if Ascii.eqb c nbsp then "&nbsp;"
  else String c EmptyString.

(** [escapeHtml(str)]: the [innerHTML] of an element whose [textContent]
    is [str]. *)
Fixpoint escapeHtml (str : string) : string :=
  match str with
  | EmptyString => EmptyString
  | String c t => (escapeHtmlChar c ++ escapeHtml t)%string
  end.

(** The longest prefix of code units that satisfy [keep], and what follows
    it: a greedy character class. *)
Fixpoint spanChars (keep : ascii -> bool) (s : string) : string * string :=
  match s with
  | EmptyString => (EmptyString, EmptyString)
  | String c t =>
      if keep c then (String c (fst (spanChars keep t)), snd (spanChars keep t))
      else (EmptyString, s)
  end.

(** The text before the first occurrence of [needle] and the text after
    it: a lazy [[\s\S]*?] followed by a literal. *)
Fixpoint splitAtFirst (needle s : string) : option (string * string) :=
  if String.prefix needle s then Some (EmptyString, Js.slice (String.length needle) s)
  else match s with
       | EmptyString => None
       | String c t =>
           match splitAtFirst needle t with
           | Some (before, after) => Some (String c before, after)
           | None => None
           end
       end.

(** The text before the last occurrence of [sep] and the text after it
    ([lastIndexOf] and the two slices). *)
Fixpoint splitAtLast (sep : ascii) (s : string) : option (string * string) :=
  match s with
  | EmptyString => None
  | String c t =>
      match splitAtLast sep t with
      | Some (before, after) => Some (String c before, after)
      | None => if Ascii.eqb c sep then Some (EmptyString, t) else None
      end
  end.

(** The first alternative of the pattern, tried at the start of [s]:
    [[size=], two or three digits, a closing bracket, then as little as
    possible up to [[/size]].  The digits, the text between and the text
    after the match. *)
Definition matchSizeHere (s : string) : option (string * string * string) :=
  if String.prefix "[size=" s then
    match Js.slice 6 s with
    | String d1 (String d2 after) =>
        if Js.isDigit d1 && Js.isDigit d2 then
          let digitsAndBody :=
            match after with
            | String c3 after3 =>
                if Ascii.eqb c3 "]"%char
                then Some (String d1 (String d2 EmptyString), after3)
                else if Js.isDigit c3 then
                  match after3 with
                  | String c4 after4 =>
                      if Ascii.eqb c4 "]"%char
                      then Some (String d1 (String d2 (String c3 EmptyString)), after4)
                      else None
                  | EmptyString => None
                  end
                else None
            | EmptyString => None
            end in
          match digitsAndBody with
          | Some (digits, body) =>
              match splitAtFirst "[/size]" body with
              | Some (inner, rest) => Some (digits, inner, rest)
              | None => None
              end
          | None => None
          end
        else None
    | _ => None
    end
  else None.

(** The second alternative: a bracket, one or more code units other than
    the closing bracket, the closing bracket, white space, a parenthesis,
    one or more code units other than the closing parenthesis, the closing
    parenthesis.  The link text, the URL part and the text after the
    match. *)
Definition matchLinkHere (s : string) : option (string * string * string) :=
  match s with
  | String c s1 =>
      if Ascii.eqb c "["%char then
        let linkText := fst (spanChars (fun x => negb (Ascii.eqb x "]"%char)) s1) in
        if Js.isEmpty linkText then None
        else
          match snd (spanChars (fun x => negb (Ascii.eqb x "]"%char)) s1) with
          | String _ s3 =>
              match Js.trimStart s3 with
              | String p s5 =>
                  if Ascii.eqb p "("%char then
                    let urlPart :=
                      fst (spanChars (fun x => negb (Ascii.eqb x ")"%char)) s5) in
                    if Js.isEmpty urlPart then None
                    else
                      match snd (spanChars (fun x => negb (Ascii.eqb x ")"%char)) s5) with
                      | String _ rest => Some (linkText, urlPart, rest)
                      | EmptyString => None
                      end
                  else None
              | EmptyString => None
              end
          | EmptyString => None
          end
      else None
  | EmptyString => None
  end.

(** A match of the pattern at the start of the text. *)
Inductive MarkupMatch : Type :=
| SizeMatch (digits inner rest : string)
| LinkMatch (linkText urlPart rest : string).

Definition matchMarkupHere (s : string) : option MarkupMatch :=
  match matchSizeHere s with
  | Some (digits, inner, rest) => Some (SizeMatch digits inner rest)
  | None =>
      match matchLinkHere s with
      | Some (linkText, urlPart, rest) => Some (LinkMatch linkText urlPart rest)
      | None => None
      end
  end.

(** [Number.parseInt(digits, 10)] on a string of digits. *)
Definition parseDigits (digits : string) : nat :=
  fold_left (fun acc c => acc * 10 + (Js.code c - 48)) (list_ascii_of_string digits) 0.

(** [Math.max(70, Math.min(sizePercent, 200))]. *)
Definition safeSize (digits : string) : nat :=
  Nat.max 70 (Nat.min (parseDigits digits) 200).

Definition digitChar (n : nat) : ascii := ascii_of_nat (48 + n).

(** [(n / 100).toFixed(2)] for a whole number [n]. *)
Definition fixed2 (n : nat) : string :=
  (Js.ofNat (n / 100)
   ++ String "."%char
        (String (digitChar (n mod 100 / 10))
           (String (digitChar (n mod 10)) EmptyString)))%string.

(** [name="value"]. *)
Definition attribute (name value : string) : string :=
  (name ++ String "="%char (String quote (value ++ String quote EmptyString)))%string.

Definition sizeMarkup (digits renderedInner : string) : string :=
  ("<span " ++ attribute "class" "text-size-adjust" ++ " "
   ++ attribute "style" ("font-size: " ++ fixed2 (safeSize digits) ++ "em;")
   ++ ">" ++ renderedInner ++ "</span>")%string.

Definition linkUrl (urlPart : string) : string :=
  match splitAtLast "|"%char urlPart with
  | Some (before, _) => Js.trim before
  | None => Js.trim urlPart
  end.

Definition linkStyle (urlPart : string) : string :=
  match splitAtLast "|"%char urlPart with
  | Some (_, after) => Js.toLowerCase (Js.trim after)
  | None => "highlight"
  end.

Definition linkMarkup (linkText urlPart : string) : string :=
  let className :=
    if String.eqb (linkStyle urlPart) "underline" then "link-underline"
    else "link-highlight" in
  ("<a " ++ attribute "href" (escapeHtml (linkUrl urlPart)) ++ " "
   ++ attribute "class" className ++ " "
   ++ attribute "target" "_blank" ++ " "
   ++ attribute "rel" "noopener"
   ++ ">" ++ escapeHtml linkText ++ "</a>")%string.

Lemma spanChars_length (keep : ascii -> bool) (s : string) :
  String.length (fst (spanChars keep s)) + String.length (snd (spanChars keep s))
  = String.length s.
Proof.
  induction s as [| c t IH]; [reflexivity |]. cbn [spanChars].
  destruct (keep c); cbn [fst snd String.length]; lia.
Qed.

Lemma slice_length (n : nat) (s : string) :
  String.length (Js.slice n s) <= String.length s.
Proof.
  revert s. induction n as [| n IH]; intros s; [cbn; lia |].
  destruct s as [| c t]; cbn [Js.slice String.length]; [lia |].
  specialize (IH t). lia.
Qed.

Lemma splitAtFirst_length (needle s before after : string) :
  splitAtFirst needle s = Some (before, after) ->
  String.length before + String.length after <= String.length s.
Proof.
  revert before after. induction s as [| c t IH]; intros before after.
  - cbn [splitAtFirst]. destruct (String.prefix needle EmptyString);
      [| discriminate].
    intros [= <- <-]. pose proof (slice_length (String.length needle) EmptyString).
    cbn [String.length] in *. lia.
  - cbn [splitAtFirst]. destruct (String.prefix needle (String c t)).
    + intros [= <- <-].
      pose proof (slice_length (String.length needle) (String c t)).
      cbn [String.length] in *. lia.
    + destruct (splitAtFirst needle t) as [[b a] |]; [| discriminate].
      intros [= <- <-]. specialize (IH b a eq_refl). cbn [String.length]. lia.
Qed.

Lemma trimStart_length (s : string) :
  String.length (Js.trimStart s) <= String.length s.
Proof.
  induction s as [| c t IH]; [cbn; lia |]. cbn [Js.trimStart].
  destruct (Js.isSpace c); cbn [String.length]; lia.
Qed.

Lemma matchSizeHere_shorter (s digits inner rest : string) :
  matchSizeHere s = Some (digits, inner, rest) ->
  String.length inner < String.length s /\ String.length rest < String.length s.
Proof.
  unfold matchSizeHere. destruct (String.prefix "[size=" s); [| discriminate].
  pose proof (slice_length 6 s) as Hs.
  destruct (Js.slice 6 s) as [| d1 [| d2 after]]; try discriminate.
  destruct (Js.isDigit d1 && Js.isDigit d2); [| discriminate].
  cbn zeta.
  assert (G : forall body,
            String.length body < String.length s ->
            match splitAtFirst "[/size]" body with
            | Some (inner0, rest0) => Some (digits, inner0, rest0)
            | None => None
            end = Some (digits, inner, rest) ->
            String.length inner < String.length s /\ String.length rest < String.length s).
  { intros body Hb H.
    destruct (splitAtFirst "[/size]" body) as [[i r] |] eqn:E; [| discriminate].
    injection H as <- <-. apply splitAtFirst_length in E. lia. }
  destruct after as [| c3 after3]; [discriminate |].
  destruct (Ascii.eqb c3 "]"%char).
  - intros H.
    destruct (splitAtFirst "[/size]" after3) as [[i r] |] eqn:E; [| discriminate].
    injection H as _ <- <-. apply splitAtFirst_length in E.
    cbn [String.length] in Hs. lia.
  - destruct (Js.isDigit c3); [| discriminate].
    destruct after3 as [| c4 after4]; [discriminate |].
    destruct (Ascii.eqb c4 "]"%char); [| discriminate].
    intros H.
    destruct (splitAtFirst "[/size]" after4) as [[i r] |] eqn:E; [| discriminate].
    injection H as _ <- <-. apply splitAtFirst_length in E.
    cbn [String.length] in Hs. lia.
Qed.

Lemma matchLinkHere_shorter (s linkText urlPart rest : string) :
  matchLinkHere s = Some (linkText, urlPart, rest) ->
  String.length rest < String.length s.
Proof.
  unfold matchLinkHere. destruct s as [| c s1]; [discriminate |].
  destruct (Ascii.eqb c "["%char); [| discriminate]. cbn zeta.
  pose proof (spanChars_length (fun x => negb (Ascii.eqb x "]"%char)) s1) as H1.
  destruct (Js.isEmpty _); [discriminate |].
  destruct (snd (spanChars (fun x => negb (Ascii.eqb x "]"%char)) s1))
    as [| b s3]; [discriminate |].
  pose proof (trimStart_length s3) as H3.
  destruct (Js.trimStart s3) as [| p s5]; [discriminate |].
  destruct (Ascii.eqb p "("%char); [| discriminate].
  pose proof (spanChars_length (fun x => negb (Ascii.eqb x ")"%char)) s5) as H5.
  destruct (Js.isEmpty _); [discriminate |].
  destruct (snd (spanChars (fun x => negb (Ascii.eqb x ")"%char)) s5))
    as [| e rest']; [discriminate |].
  intros [= _ _ <-]. cbn [String.length] in *. lia.
Qed.

(** The loop of [renderLinkedText]: [plain] is the text since the end of
    the last match, [text] what is still to be searched.  Where the
    pattern matches, the plain text before it is escaped and the markup of
    the match follows; the text inside a size span is rendered by a call
    of its own. *)
Equations? scanLinkedText (plain text : string) : string
  by wf (String.length text) lt :=
  scanLinkedText plain EmptyString := escapeHtml plain;
  scanLinkedText plain (String c t) with inspect (matchMarkupHere (String c t)) => {
    | exist _ (Some (SizeMatch digits inner rest)) _ :=
        (escapeHtml plain
         ++ sizeMarkup digits (scanLinkedText EmptyString inner)
         ++ scanLinkedText EmptyString rest)%string
    | exist _ (Some (LinkMatch linkText urlPart rest)) _ :=
        (escapeHtml plain
         ++ linkMarkup linkText urlPart
         ++ scanLinkedText EmptyString rest)%string
    | exist _ None _ := scanLinkedText (plain ++ String c EmptyString) t }.
Proof.
  - unfold matchMarkupHere in e.
    destruct (matchSizeHere (String c t)) as [[[d i] r] |] eqn:E.
    + injection e as <- <- <-. apply matchSizeHere_shorter in E. apply E.
    + destruct (matchLinkHere (String c t)) as [[[a b] r] |]; discriminate.
  - unfold matchMarkupHere in e.
    destruct (matchSizeHere (String c t)) as [[[d i] r] |] eqn:E.
    + injection e as <- <- <-. apply matchSizeHere_shorter in E. apply E.
    + destruct (matchLinkHere (String c t)) as [[[a b] r] |]; discriminate.
  - unfold matchMarkupHere in e.
    destruct (matchSizeHere (String c t)) as [[[d i] r] |] eqn:E; [discriminate |].
    destruct (matchLinkHere (String c t)) as [[[a b] r] |] eqn:E2; [| discriminate].
    injection e as <- <- <-. apply matchLinkHere_shorter in E2. exact E2.
Qed.

(** [renderLinkedText(text)]. *)
Definition renderLinkedText (text : string) : string :=
  scanLinkedText EmptyString text.


(* ================================================================== *)
(** * Properties *)
(* ================================================================== *)

(** ** Overlay controller *)

(** The number of parsed projects. *)
Definition projectCount (pg : Page) : Z := Z.of_nat (List.length (projectsData pg)).

Lemma isNil_false_length {A : Type} (l : list A) :
  isNil l = false <-> 0 < List.length l.
Proof. destruct l; cbn; split; intros; try lia; try discriminate; reflexivity. Qed.

Lemma at_in_range {A : Type} (l : list A) (i : Z) :
  (0 <= i < Z.of_nat (List.length l))%Z -> exists x, at_ l i = Some x.
Proof.
  intros Hi. unfold at_.
  destruct (Z.ltb_spec i 0); [lia |].
  destruct (nth_error l (Z.to_nat i)) eqn:E; [eauto |].
  apply nth_error_None in E. lia.
Qed.

Lemma at_out_of_range {A : Type} (l : list A) (i : Z) :
  (i < 0 \/ Z.of_nat (List.length l) <= i)%Z -> at_ l i = None.
Proof.
  intros Hi. unfold at_.
  destruct (Z.ltb_spec i 0); [reflexivity |].
  apply nth_error_None. lia.
Qed.

(** [clearArmedGridItem] touches the arming variables, the armed class and
    the timers, nothing of the overlay. *)
Lemma clearArmedGridItem_frame (pg : Page) (s : State) :
  let s' := clearArmedGridItem pg s in
  currentProjectIndex s' = currentProjectIndex s
  /\ isOverlayOpen s' = isOverlayOpen s
  /\ lastFocusedElement s' = lastFocusedElement s
  /\ activeElement s' = activeElement s
  /\ detail s' = detail s
  /\ frames s' = frames s
  /\ heroImagePreloadCache s' = heroImagePreloadCache s.
Proof.
  unfold clearArmedGridItem.
  destruct (armedGridResetTimer s); cbn;
    match goal with |- context [if ?b then _ else _] => destruct b end; cbn;
    try match goal with |- context [match ?o with Some _ => _ | None => _ end] =>
          destruct o end; cbn; repeat split; reflexivity.
Qed.

Lemma preloadProjectHeroImage_frame (pg : Page) (p : option Project) (s : State) :
  let s' := preloadProjectHeroImage pg p s in
  currentProjectIndex s' = currentProjectIndex s
  /\ isOverlayOpen s' = isOverlayOpen s
  /\ lastFocusedElement s' = lastFocusedElement s
  /\ activeElement s' = activeElement s
  /\ detail s' = detail s.
Proof.
  unfold preloadProjectHeroImage.
  destruct (Js.isEmpty _); [repeat split |].
  destruct (includes _ _); repeat split.
Qed.

Lemma renderProjectDetail_frame (pg : Page) (p : option Project) (s : State) :
  let s' := renderProjectDetail pg p s in
  currentProjectIndex s' = currentProjectIndex s
  /\ isOverlayOpen s' = isOverlayOpen s
  /\ lastFocusedElement s' = lastFocusedElement s
  /\ activeElement s' = activeElement s.
Proof.
  unfold renderProjectDetail.
  destruct (overlay pg) as [ov |], p; try (repeat split; reflexivity).
  destruct (has_detail ov); repeat split.
Qed.

Lemma renderProjectDetail_none (pg : Page) (s : State) :
  renderProjectDetail pg None s = s.
Proof. unfold renderProjectDetail. destruct (overlay pg); reflexivity. Qed.

(** What [openProject] does once past its guard, field by field. *)
Lemma openProject_past_guard (pg : Page) (ov : OverlayEl) (index : Z) (s : State) :
  overlay pg = Some ov ->
  projectsData pg <> [] ->
  exists s',
    openProject pg index s = Returned s'
    /\ isOverlayOpen s' = true
    /\ currentProjectIndex s' = index
    /\ lastFocusedElement s' = activeElement s
    /\ activeElement s' = activeElement s
    /\ detail s' =
         detail (renderProjectDetail pg (at_ (projectsData pg) index) s).
Proof.
  intros Hov Hne. unfold openProject. rewrite Hov.
  destruct (projectsData pg) as [| p0 ps] eqn:Hps; [congruence |].
  cbn [isNil]. rewrite <- Hps.
  unfold andThen, run, updateNavButtons, withOverlay. rewrite Hov.
  eexists. split; [reflexivity |].
  pose proof (clearArmedGridItem_frame pg s) as Hc. cbn zeta in Hc.
  destruct Hc as (Hc1 & Hc2 & Hc3 & Hc4 & Hc5 & _).
  set (s1 := clearArmedGridItem pg s) in *.
  set (proj := at_ (projectsData pg) index).
  set (s2 := set_lastFocusedElement (set_currentProjectIndex s1 index)
               (activeElement (set_currentProjectIndex s1 index))).
  pose proof (preloadProjectHeroImage_frame pg proj s2) as Hp. cbn zeta in Hp.
  destruct Hp as (Hp1 & Hp2 & Hp3 & Hp4 & Hp5).
  set (s3 := preloadProjectHeroImage pg proj s2) in *.
  pose proof (renderProjectDetail_frame pg proj s3) as Hr. cbn zeta in Hr.
  destruct Hr as (Hr1 & Hr2 & Hr3 & Hr4).
  set (s4 := renderProjectDetail pg proj s3) in *.
  destruct (has_scroll ov); cbn;
    (repeat split;
     [ rewrite Hr1, Hp1; reflexivity
     | rewrite Hr3, Hp3; cbn; exact Hc4
     | rewrite Hr4, Hp4; cbn; exact Hc4
     | subst s4; unfold renderProjectDetail; rewrite Hov;
       destruct proj; [| rewrite Hp5; cbn; exact Hc5];
       destruct (has_detail ov); cbn; [reflexivity | rewrite Hp5; cbn; exact Hc5] ]).
Qed.

(** ** Invariants of the reachable states *)

Definition isArmTimer (t : Timer) : bool :=
  match timer_callback t with
  | RunClearArmed => true
  | _ => false
  end.

(** The ids of the pending auto-disarm timers. *)
Definition armTimerIds (s : State) : list positive :=
  map timer_id (filter isArmTimer (timers s)).

Definition pendingIds (s : State) : list positive := map timer_id (timers s).

(** No tile is armed. *)
Definition Disarmed (s : State) : Prop :=
  armedGridIndex s = (-1)%Z
  /\ armedGridResetTimer s = None
  /\ armedItems s = []
  /\ armTimerIds s = [].

(** Tile [k] is the armed one, and [id] is its auto-disarm timer. *)
Definition ArmedAt (pg : Page) (k : nat) (id : positive) (s : State) : Prop :=
  armedGridIndex s = Z.of_nat k
  /\ k < gridItemContainers pg
  /\ armedGridResetTimer s = Some id
  /\ armedItems s = [k]
  /\ armTimerIds s = [id].

(** As [ArmedAt], while the callback of timer [id] is running: the timer
    has left the list already. *)
Definition ArmedLoosely (pg : Page) (k : nat) (id : positive) (s : State) : Prop :=
  armedGridIndex s = Z.of_nat k
  /\ k < gridItemContainers pg
  /\ armedGridResetTimer s = Some id
  /\ armedItems s = [k]
  /\ (forall x, In x (armTimerIds s) -> x = id).

Definition TimersOk (s : State) : Prop :=
  NoDup (pendingIds s)
  /\ Forall (fun t => (timer_id t < nextTimerId s)%positive) (timers s).

Record Inv (pg : Page) (s : State) : Prop := mkInv {
  inv_overlay : overlay pg = None -> isOverlayOpen s = false;
  inv_arm : Disarmed s \/ exists k id, ArmedAt pg k id s;
  inv_timers : TimersOk s
}.

(** The part of the state the arming invariant reads. *)
Definition armView (s : State)
  : Z * option positive * list nat * list Timer * positive :=
  (armedGridIndex s, armedGridResetTimer s, armedItems s, timers s, nextTimerId s).

Lemma armView_Inv (pg : Page) (s s' : State) :
  armView s' = armView s ->
  (overlay pg = None -> isOverlayOpen s' = false) ->
  Inv pg s -> Inv pg s'.
Proof.
  unfold armView. intros [= H1 H2 H3 H4 H5] Hov [_ Harm [Hnd Hfr]].
  constructor; [exact Hov | |].
  - destruct Harm as [(A & B & C & D) | (k & id & A & B & C & D & E)].
    + left. unfold Disarmed, armTimerIds. rewrite H1, H2, H3, H4. auto.
    + right. exists k, id. unfold ArmedAt, armTimerIds.
      rewrite H1, H2, H3, H4. auto.
  - unfold TimersOk, pendingIds. rewrite H4, H5. auto.
Qed.

Lemma ArmedAt_loosely (pg : Page) (k : nat) (id : positive) (s : State) :
  ArmedAt pg k id s -> ArmedLoosely pg k id s.
Proof.
  intros (A & B & C & D & E). repeat split; auto.
  rewrite E. intros x [<- | []]. reflexivity.
Qed.

Lemma filter_ids_arm (id : positive) (l : list Timer) :
  map timer_id (filter isArmTimer
                  (filter (fun t => negb (Pos.eqb (timer_id t) id)) l))
  = filter (fun x => negb (Pos.eqb x id)) (map timer_id (filter isArmTimer l)).
Proof.
  induction l as [| t l IH]; [reflexivity |].
  cbn [filter]. destruct (isArmTimer t) eqn:Ha;
    destruct (negb (Pos.eqb (timer_id t) id)) eqn:Hn; cbn [filter map];
    rewrite ?Ha, ?Hn; cbn [map]; rewrite IH; reflexivity.
Qed.

Lemma filter_ids (id : positive) (l : list Timer) :
  map timer_id (filter (fun t => negb (Pos.eqb (timer_id t) id)) l)
  = filter (fun x => negb (Pos.eqb x id)) (map timer_id l).
Proof.
  induction l as [| t l IH]; [reflexivity |].
  cbn [filter map]. destruct (negb (Pos.eqb (timer_id t) id)); cbn [map];
    rewrite IH; reflexivity.
Qed.

Lemma TimersOk_clearTimeout (id : positive) (s : State) :
  TimersOk s -> TimersOk (clearTimeout id s).
Proof.
  intros [Hnd Hfr]. split.
  - unfold pendingIds, clearTimeout. cbn. rewrite filter_ids.
    apply NoDup_filter. exact Hnd.
  - unfold clearTimeout. cbn. apply Forall_forall. intros t Ht.
    apply filter_In in Ht. destruct Ht as [Ht _].
    rewrite Forall_forall in Hfr. apply Hfr. exact Ht.
Qed.

Lemma TimersOk_setTimeout (callback : Callback) (ms : nat) (s : State) :
  TimersOk s -> TimersOk (snd (setTimeout callback ms s)).
Proof.
  intros [Hnd Hfr]. unfold setTimeout, TimersOk, pendingIds. cbn. split.
  - rewrite map_app. cbn. apply NoDup_app; [exact Hnd | repeat constructor; auto |].
    intros x Hx [<- | []]. apply in_map_iff in Hx. destruct Hx as (t & Ht & Hin).
    rewrite Forall_forall in Hfr. apply Hfr in Hin. lia.
  - apply Forall_app. split.
    + eapply Forall_impl; [| exact Hfr]. cbn. intros t Ht. lia.
    + repeat constructor. cbn. lia.
Qed.

(** The result of [clearArmedGridItem] on a state where at most the
    recorded timer is pending. *)
Lemma clearArmedGridItem_disarms (pg : Page) (s : State) :
  (Disarmed s \/ exists k id, ArmedLoosely pg k id s) ->
  Disarmed (clearArmedGridItem pg s)
  /\ timers (clearArmedGridItem pg s)
     = match armedGridResetTimer s with
       | Some id => filter (fun t => negb (Pos.eqb (timer_id t) id)) (timers s)
       | None => timers s
       end
  /\ nextTimerId (clearArmedGridItem pg s) = nextTimerId s.
Proof.
  intros [(A & B & C & D) | (k & id & A & B & C & D & E)];
    unfold clearArmedGridItem.
  - rewrite B. rewrite A. cbn. repeat split; auto.
  - rewrite C. cbn. rewrite A.
    destruct (Z.ltb_spec (Z.of_nat k) 0); [lia |].
    unfold gridItemAt.
    destruct (Z.leb_spec 0 (Z.of_nat k)); [| lia].
    destruct (Z.ltb_spec (Z.of_nat k) (Z.of_nat (gridItemContainers pg))); [| lia].
    cbn. rewrite Nat2Z.id.
    split; [| split; reflexivity].
    unfold Disarmed, removeArmedClass. cbn. rewrite D. cbn.
    rewrite Nat.eqb_refl. cbn. repeat split.
    unfold armTimerIds. cbn. rewrite filter_ids_arm.
    fold (armTimerIds s).
    destruct (filter _ (armTimerIds s)) as [| x l] eqn:F; [reflexivity |].
    assert (Hx : In x (filter (fun x => negb (Pos.eqb x id)) (armTimerIds s)))
      by (rewrite F; left; reflexivity).
    apply filter_In in Hx. destruct Hx as [Hx Hne].
    apply E in Hx. subst x. rewrite Pos.eqb_refl in Hne. discriminate.
Qed.

Lemma clearArmedGridItem_TimersOk (pg : Page) (s : State) :
  TimersOk s -> TimersOk (clearArmedGridItem pg s).
Proof.
  intros H. unfold clearArmedGridItem.
  destruct (armedGridResetTimer s) as [id |].
  - apply (TimersOk_clearTimeout id) in H.
    set (s1 := set_armedGridResetTimer (clearTimeout id s) None).
    assert (H1 : TimersOk s1) by exact H.
    destruct (armedGridIndex s1 <? 0)%Z; [exact H1 |].
    destruct (gridItemAt pg (armedGridIndex s1)); exact H1.
  - destruct (armedGridIndex s <? 0)%Z; [exact H |].
    destruct (gridItemAt pg (armedGridIndex s)); exact H.
Qed.

Lemma clearArmedGridItem_Inv (pg : Page) (s : State) :
  Inv pg s -> Inv pg (clearArmedGridItem pg s).
Proof.
  intros [Hov Harm Hok]. constructor.
  - intros H. destruct (clearArmedGridItem_frame pg s) as (_ & -> & _). auto.
  - left. apply clearArmedGridItem_disarms.
    destruct Harm as [H | (k & id & H)]; [left; exact H |].
    right. exists k, id. apply ArmedAt_loosely. exact H.
  - apply clearArmedGridItem_TimersOk. exact Hok.
Qed.

(** Arming a tile that exists, from a state with nothing armed. *)
Lemma arm_from_disarmed (pg : Page) (j : nat) (s1 : State) :
  Disarmed s1 -> TimersOk s1 -> j < gridItemContainers pg ->
  let s' :=
    set_armedGridResetTimer
      (snd (setTimeout RunClearArmed 2400
              (set_armedGridIndex (addArmedClass j s1) (Z.of_nat j))))
      (Some (nextTimerId s1)) in
  ArmedAt pg j (nextTimerId s1) s'
  /\ TimersOk s'
  /\ timers s' = timers s1 ++ [mkTimer (nextTimerId s1) 2400 RunClearArmed].
Proof.
  intros (A & B & C & D) Hok Hj. cbn zeta.
  unfold addArmedClass. rewrite C. cbn.
  split; [| split; [| reflexivity]].
  - repeat split; auto.
    unfold armTimerIds. cbn. rewrite filter_app, map_app. cbn.
    fold (armTimerIds s1). rewrite D. reflexivity.
  - apply (TimersOk_setTimeout RunClearArmed 2400) in Hok.
    unfold setTimeout in Hok. exact Hok.
Qed.

Lemma armGridItem_unfold (pg : Page) (j : nat) (s : State) :
  j < gridItemContainers pg ->
  armGridItem pg j s =
  set_armedGridResetTimer
    (snd (setTimeout RunClearArmed 2400
            (set_armedGridIndex (addArmedClass j (clearArmedGridItem pg s))
                                (Z.of_nat j))))
    (Some (nextTimerId (clearArmedGridItem pg s))).
Proof.
  intros Hj. unfold armGridItem, gridItemAt.
  destruct (Z.leb_spec 0 (Z.of_nat j)); [| lia].
  destruct (Z.ltb_spec (Z.of_nat j) (Z.of_nat (gridItemContainers pg))); [| lia].
  cbn. rewrite Nat2Z.id.
  unfold addArmedClass.
  destruct (existsb (Nat.eqb j) (armedItems (clearArmedGridItem pg s)));
    reflexivity.
Qed.

Lemma armGridItem_Inv (pg : Page) (j : nat) (s : State) :
  Inv pg s -> Inv pg (armGridItem pg j s).
Proof.
  intros HI. pose proof (clearArmedGridItem_Inv pg s HI) as [Hov Harm Hok].
  assert (Hdis : Disarmed (clearArmedGridItem pg s)).
  { apply clearArmedGridItem_disarms. destruct HI as [_ [H | (k & id & H)] _];
      [left; exact H | right; exists k, id; apply ArmedAt_loosely; exact H]. }
  destruct (Nat.lt_ge_cases j (gridItemContainers pg)) as [Hj | Hj].
  - rewrite armGridItem_unfold by exact Hj.
    destruct (arm_from_disarmed pg j _ Hdis Hok Hj) as (Ha & Ht & _).
    constructor; [| right; eauto | exact Ht].
    intros H. cbn. unfold addArmedClass.
    destruct (existsb _ _); cbn; auto.
  - unfold armGridItem, gridItemAt.
    destruct (Z.ltb_spec (Z.of_nat j) (Z.of_nat (gridItemContainers pg))); [lia |].
    rewrite andb_false_r. constructor; auto.
Qed.

Lemma sameElement_eq (a b : Element) : sameElement a b = true <-> a = b.
Proof.
  destruct a, b; cbn; rewrite ?andb_true_iff, ?Nat.eqb_eq;
    split; intros H; try discriminate; try reflexivity;
    try (destruct H; congruence); try (injection H; auto); congruence.
Qed.

(** What a move of the focus writes: the active element and, through the
    [focus] listener of a grid button, the preload cache; nothing else. *)
Lemma state_eta (s : State) :
  s = set_heroImagePreloadCache (set_activeElement s (activeElement s))
        (heroImagePreloadCache s).
Proof. destruct s; reflexivity. Qed.

Lemma preloadProjectHeroImage_shape (pg : Page) (p : option Project) (s : State) :
  exists cache, preloadProjectHeroImage pg p s = set_heroImagePreloadCache s cache.
Proof.
  unfold preloadProjectHeroImage.
  destruct (Js.isEmpty _);
    [exists (heroImagePreloadCache s); destruct s; reflexivity |].
  destruct (includes _ _); [| eauto].
  exists (heroImagePreloadCache s); destruct s; reflexivity.
Qed.

Lemma preloadHero_shape (pg : Page) (index : nat) (s : State) :
  exists cache, preloadHero pg index s = set_heroImagePreloadCache s cache.
Proof.
  unfold preloadHero. destruct (nth_error _ _);
    [apply preloadProjectHeroImage_shape |].
  exists (heroImagePreloadCache s); destruct s; reflexivity.
Qed.

Lemma focusListeners_shape (pg : Page) (e : Element) (s : State) :
  exists cache, focusListeners pg e s = set_heroImagePreloadCache s cache.
Proof.
  destruct e; cbn [focusListeners];
    try (exists (heroImagePreloadCache s); destruct s; reflexivity).
  apply preloadHero_shape.
Qed.

Lemma takeFocus_shape (pg : Page) (e : Element) (s : State) :
  exists active cache,
    takeFocus pg e s
    = set_heroImagePreloadCache (set_activeElement s active) cache.
Proof.
  unfold takeFocus. destruct (hasFocus e s);
    [exists (activeElement s), (heroImagePreloadCache s); apply state_eta |].
  exists (Some e). destruct e; cbn [focusListeners];
    try (exists (heroImagePreloadCache s); destruct s; reflexivity).
  apply preloadHero_shape.
Qed.

Lemma focus_shape (pg : Page) (e : Element) (s : State) :
  exists active cache,
    focus pg e s = set_heroImagePreloadCache (set_activeElement s active) cache.
Proof.
  unfold focus. destruct (canTakeFocus e s); [apply takeFocus_shape |].
  exists (activeElement s), (heroImagePreloadCache s); apply state_eta.
Qed.

Lemma moveFocus_shape (pg : Page) (target : option Element) (s : State) :
  exists active cache,
    moveFocus pg target s
    = set_heroImagePreloadCache (set_activeElement s active) cache.
Proof.
  destruct target as [e |]; cbn [moveFocus]; [apply takeFocus_shape |].
  exists None, (heroImagePreloadCache s). destruct s; reflexivity.
Qed.

Lemma trapFocusOnTab_shape (pg : Page) (shiftKey : bool)
    (focusableElements : list Element) (s : State) :
  exists active cache,
    trapFocusOnTab pg shiftKey focusableElements s
    = set_heroImagePreloadCache (set_activeElement s active) cache.
Proof.
  unfold trapFocusOnTab.
  destruct (overlay pg);
    [| exists (activeElement s), (heroImagePreloadCache s); apply state_eta].
  destruct (trapFocus _ _ _ _); [apply focus_shape |].
  exists (activeElement s), (heroImagePreloadCache s); apply state_eta.
Qed.

Lemma preloadProjectHeroImage_armView (pg : Page) (p : option Project) (s : State) :
  armView (preloadProjectHeroImage pg p s) = armView s.
Proof.
  unfold preloadProjectHeroImage.
  destruct (Js.isEmpty _); [reflexivity |].
  destruct (includes _ _); reflexivity.
Qed.

Lemma renderProjectDetail_armView (pg : Page) (p : option Project) (s : State) :
  armView (renderProjectDetail pg p s) = armView s.
Proof.
  unfold renderProjectDetail.
  destruct (overlay pg) as [ov |], p; try reflexivity.
  destruct (has_detail ov); reflexivity.
Qed.

(** The arming variables and the timers after [openProject]: once past the
    guard, the tile is disarmed and the focus timer is added. *)
Lemma openProject_armView (pg : Page) (ov : OverlayEl) (index : Z) (s : State) :
  overlay pg = Some ov ->
  projectsData pg <> [] ->
  let s1 := clearArmedGridItem pg s in
  armView (stateOf (openProject pg index s)) =
  (armedGridIndex s1, armedGridResetTimer s1, armedItems s1,
   timers s1 ++ [mkTimer (nextTimerId s1) 100 FocusCloseButton],
   Pos.succ (nextTimerId s1)).
Proof.
  intros Hov Hne. unfold openProject. rewrite Hov.
  destruct (projectsData pg) as [| p0 ps] eqn:Hps; [congruence |].
  cbn [isNil]. rewrite <- Hps.
  unfold andThen, run, updateNavButtons, withOverlay. rewrite Hov.
  cbn zeta.
  set (s1 := clearArmedGridItem pg s).
  set (proj := at_ (projectsData pg) index).
  set (s2 := set_lastFocusedElement (set_currentProjectIndex s1 index)
               (activeElement (set_currentProjectIndex s1 index))).
  pose proof (preloadProjectHeroImage_armView pg proj s2) as Hp.
  set (s3 := preloadProjectHeroImage pg proj s2) in *.
  pose proof (renderProjectDetail_armView pg proj s3) as Hr.
  set (s4 := renderProjectDetail pg proj s3) in *.
  rewrite Hp in Hr. unfold armView in Hr. cbn in Hr.
  injection Hr as H1 H2 H3 H4 H5.
  destruct (has_scroll ov); unfold armView; cbn;
    rewrite H1, H2, H3, H4, H5; reflexivity.
Qed.

Lemma armTimerIds_app_focus (l : list Timer) (id : positive) (ms : nat) :
  map timer_id (filter isArmTimer (l ++ [mkTimer id ms FocusCloseButton]))
  = map timer_id (filter isArmTimer l).
Proof. rewrite filter_app. cbn. rewrite app_nil_r. reflexivity. Qed.

Lemma openProject_returns (pg : Page) (index : Z) (s : State) :
  exists s', openProject pg index s = Returned s'.
Proof.
  unfold openProject. destruct (overlay pg) as [ov |] eqn:Hov; [| eauto].
  destruct (isNil (projectsData pg)); [eauto |].
  unfold andThen, run, updateNavButtons, withOverlay. rewrite Hov. eauto.
Qed.

Lemma openProject_Inv (pg : Page) (index : Z) (s : State) :
  Inv pg s -> Inv pg (stateOf (openProject pg index s)).
Proof.
  intros HI.
  destruct (overlay pg) as [ov |] eqn:Hov;
    [| unfold openProject; rewrite Hov; exact HI].
  destruct (projectsData pg) as [| p0 ps] eqn:Hps;
    [unfold openProject; rewrite Hov, Hps; exact HI |].
  assert (Hne : projectsData pg <> []) by congruence.
  pose proof (openProject_armView pg ov index s Hov Hne) as Hv.
  cbn zeta in Hv.
  set (s' := stateOf (openProject pg index s)) in *.
  pose proof (clearArmedGridItem_Inv pg s HI) as [_ Harm [Hnd Hfr]].
  assert (Hdis : Disarmed (clearArmedGridItem pg s)).
  { apply clearArmedGridItem_disarms. destruct HI as [_ [H | (k & id & H)] _];
      [left; exact H | right; exists k, id; apply ArmedAt_loosely; exact H]. }
  unfold armView in Hv. injection Hv as H1 H2 H3 H4 H5.
  destruct Hdis as (A & B & C & D).
  constructor.
  - intros H. congruence.
  - left. unfold Disarmed, armTimerIds. rewrite H1, H2, H3, H4.
    rewrite armTimerIds_app_focus. auto.
  - pose proof (TimersOk_setTimeout FocusCloseButton 100 _ (conj Hnd Hfr)) as Hok.
    unfold setTimeout, TimersOk, pendingIds in Hok. cbn in Hok.
    unfold TimersOk, pendingIds. rewrite H4, H5. exact Hok.
Qed.

(** [closeOverlay] on an open overlay, step by step. *)
Definition closedOverlay (s : State) : State :=
  set_bodyOverlayOpen (set_ariaHidden (set_isOverlayOpen s false) true) false.

Lemma closeOverlay_open (pg : Page) (ov : OverlayEl) (s : State) :
  overlay pg = Some ov -> isOverlayOpen s = true ->
  closeOverlay pg s
  = Returned match lastFocusedElement s with
             | Some e => focus pg e (closedOverlay s)
             | None => closedOverlay s
             end.
Proof.
  intros Hov Hopen. unfold closeOverlay. rewrite Hov, Hopen. reflexivity.
Qed.

Lemma closeOverlay_armView (pg : Page) (s : State) :
  armView (stateOf (closeOverlay pg s)) = armView s.
Proof.
  destruct (overlay pg) as [ov |] eqn:Hov;
    [| unfold closeOverlay; rewrite Hov; reflexivity].
  destruct (isOverlayOpen s) eqn:Hopen;
    [| unfold closeOverlay; rewrite Hov, Hopen; reflexivity].
  rewrite (closeOverlay_open pg ov s Hov Hopen). cbn [stateOf].
  destruct (lastFocusedElement s) as [e |]; [| reflexivity].
  destruct (focus_shape pg e (closedOverlay s)) as (a & c & ->).
  reflexivity.
Qed.

Lemma closeOverlay_Inv (pg : Page) (s : State) :
  Inv pg s -> Inv pg (stateOf (closeOverlay pg s)).
Proof.
  intros HI. apply (armView_Inv pg s); [apply closeOverlay_armView | | exact HI].
  intros H. unfold closeOverlay. rewrite H. cbn. apply (inv_overlay pg s HI H).
Qed.

(** [goToPrevProject] and [goToNextProject] leave the arming variables,
    the timers and the open flag alone, also when they throw. *)
Lemma goTo_frame (pg : Page) (s : State) (delta : Z) :
  let o :=
    (run (fun s => set_currentProjectIndex s (currentProjectIndex s + delta)%Z) ;;
     run (fun s => renderProjectDetail pg
                     (at_ (projectsData pg) (currentProjectIndex s)) s) ;;
     updateNavButtons pg ;;
     scrollOverlayToTop pg) s in
  armView (stateOf o) = armView s
  /\ isOverlayOpen (stateOf o) = isOverlayOpen s
  /\ lastFocusedElement (stateOf o) = lastFocusedElement s
  /\ activeElement (stateOf o) = activeElement s.
Proof.
  cbn zeta. unfold andThen, run, updateNavButtons, scrollOverlayToTop, withOverlay.
  set (s1 := set_currentProjectIndex s (currentProjectIndex s + delta)%Z).
  pose proof (renderProjectDetail_armView pg
                (at_ (projectsData pg) (currentProjectIndex s1)) s1) as Hv.
  pose proof (renderProjectDetail_frame pg
                (at_ (projectsData pg) (currentProjectIndex s1)) s1) as Hf.
  cbn zeta in Hf. destruct Hf as (_ & Hf2 & Hf3 & Hf4).
  set (s2 := renderProjectDetail pg _ s1) in *.
  unfold armView in Hv. cbn in Hv. injection Hv as H1 H2 H3 H4 H5.
  destruct (overlay pg) as [ov |]; cbn.
  - destruct (has_scroll ov); unfold armView; cbn;
      rewrite H1, H2, H3, H4, H5, Hf2, Hf3, Hf4; auto.
  - unfold armView. rewrite H1, H2, H3, H4, H5, Hf2, Hf3, Hf4. auto.
Qed.

Lemma goToPrevProject_frame (pg : Page) (s : State) :
  armView (stateOf (goToPrevProject pg s)) = armView s
  /\ isOverlayOpen (stateOf (goToPrevProject pg s)) = isOverlayOpen s
  /\ lastFocusedElement (stateOf (goToPrevProject pg s)) = lastFocusedElement s
  /\ activeElement (stateOf (goToPrevProject pg s)) = activeElement s.
Proof.
  unfold goToPrevProject. destruct (currentProjectIndex s >? 0)%Z; [| auto].
  exact (goTo_frame pg s (-1)).
Qed.

Lemma goToNextProject_frame (pg : Page) (s : State) :
  armView (stateOf (goToNextProject pg s)) = armView s
  /\ isOverlayOpen (stateOf (goToNextProject pg s)) = isOverlayOpen s
  /\ lastFocusedElement (stateOf (goToNextProject pg s)) = lastFocusedElement s
  /\ activeElement (stateOf (goToNextProject pg s)) = activeElement s.
Proof.
  unfold goToNextProject.
  destruct (currentProjectIndex s <? _)%Z; [| auto].
  exact (goTo_frame pg s 1).
Qed.

Lemma goToPrevProject_Inv (pg : Page) (s : State) :
  Inv pg s -> Inv pg (stateOf (goToPrevProject pg s)).
Proof.
  intros HI. destruct (goToPrevProject_frame pg s) as (Hv & Ho & _).
  apply (armView_Inv pg s); [exact Hv | | exact HI].
  intros H. rewrite Ho. apply (inv_overlay pg s HI H).
Qed.

Lemma goToNextProject_Inv (pg : Page) (s : State) :
  Inv pg s -> Inv pg (stateOf (goToNextProject pg s)).
Proof.
  intros HI. destruct (goToNextProject_frame pg s) as (Hv & Ho & _).
  apply (armView_Inv pg s); [exact Hv | | exact HI].
  intros H. rewrite Ho. apply (inv_overlay pg s HI H).
Qed.

(** The preloader reads the cache only, and writes it only. *)
Lemma preloadHero_cache_only (pg : Page) (index : nat) (s s' : State) :
  heroImagePreloadCache s' = heroImagePreloadCache s ->
  heroImagePreloadCache (preloadHero pg index s')
  = heroImagePreloadCache (preloadHero pg index s).
Proof.
  intros E. unfold preloadHero.
  destruct (nth_error _ _); [| exact E].
  unfold preloadProjectHeroImage. destruct (Js.isEmpty _); [exact E |].
  rewrite E. destruct (includes _ _); [exact E |].
  cbn [heroImagePreloadCache set_heroImagePreloadCache]. reflexivity.
Qed.

Lemma focus_cache (pg : Page) (e : Element) (s : State) :
  heroImagePreloadCache (focus pg e s) = heroImagePreloadCache s
  \/ exists index,
       heroImagePreloadCache (focus pg e s)
       = heroImagePreloadCache (preloadHero pg index s).
Proof.
  unfold focus. destruct (canTakeFocus e s); [| left; reflexivity].
  unfold takeFocus. destruct (hasFocus e s); [left; reflexivity |].
  destruct e; cbn [focusListeners]; try (left; reflexivity).
  right. exists i. apply preloadHero_cache_only. reflexivity.
Qed.

Lemma focus_moved_Inv (pg : Page) (s : State)
    (active : option Element) (cache : list string) :
  Inv pg s -> Inv pg (set_heroImagePreloadCache (set_activeElement s active) cache).
Proof.
  intros HI. apply (armView_Inv pg s); [reflexivity | | exact HI].
  apply (inv_overlay pg s HI).
Qed.

Lemma focus_Inv (pg : Page) (e : Element) (s : State) :
  Inv pg s -> Inv pg (focus pg e s).
Proof.
  intros HI. destruct (focus_shape pg e s) as (a & c & ->).
  apply focus_moved_Inv, HI.
Qed.

Lemma preloadHero_Inv (pg : Page) (index : nat) (s : State) :
  Inv pg s -> Inv pg (preloadHero pg index s).
Proof.
  intros HI. destruct (preloadHero_shape pg index s) as (c & ->).
  apply (armView_Inv pg s); [reflexivity | | exact HI].
  apply (inv_overlay pg s HI).
Qed.

Lemma handleKeyDown_Inv (pg : Page) (key : Key) (s : State) :
  Inv pg s -> Inv pg (stateOf (handleKeyDown pg key s)).
Proof.
  intros HI. unfold handleKeyDown. destruct (negb (isOverlayOpen s)); [exact HI |].
  destruct key as [| | | | | | shiftKey focusableElements]; try exact HI.
  - apply closeOverlay_Inv, HI.
  - apply goToPrevProject_Inv, HI.
  - apply goToNextProject_Inv, HI.
  - cbn [stateOf].
    destruct (trapFocusOnTab_shape pg shiftKey focusableElements s) as (a & c & ->).
    apply focus_moved_Inv, HI.
Qed.

Lemma runCallback_Inv (pg : Page) (callback : Callback) (s : State) :
  Inv pg s -> Inv pg (stateOf (runCallback pg callback s)).
Proof.
  intros HI. destruct callback; cbn [runCallback].
  - apply clearArmedGridItem_Inv, HI.
  - unfold withOverlay. destruct (overlay pg) as [ov |]; [| exact HI].
    cbn [run stateOf]. destruct (has_close ov); [| exact HI].
    apply focus_Inv, HI.
  - apply openProject_Inv, HI.
Qed.

Lemma runCallbacks_Inv (pg : Page) (callbacks : list Callback) (s : State) :
  Inv pg s -> Inv pg (stateOf (runCallbacks pg callbacks s)).
Proof.
  revert s. induction callbacks as [| c rest IH]; intros s HI; [exact HI |].
  cbn [runCallbacks]. apply IH, runCallback_Inv, HI.
Qed.

Lemma find_timer_In (id : positive) (l : list Timer) (t : Timer) :
  find (fun t => Pos.eqb (timer_id t) id) l = Some t ->
  In t l /\ timer_id t = id.
Proof.
  intros H. apply find_some in H. destruct H as [Hin Heq].
  apply Pos.eqb_eq in Heq. auto.
Qed.

Lemma NoDup_ids_inj (l : list Timer) (t t' : Timer) :
  NoDup (map timer_id l) -> In t l -> In t' l ->
  timer_id t = timer_id t' -> t = t'.
Proof.
  induction l as [| x l IH]; [intros _ [] |].
  cbn. intros Hnd [-> | Ht] [-> | Ht'] Heq; inversion Hnd; subst.
  - reflexivity.
  - exfalso. apply H1. rewrite Heq. apply in_map. exact Ht'.
  - exfalso. apply H1. rewrite <- Heq. apply in_map. exact Ht.
  - apply IH; auto.
Qed.

Lemma filter_keeps_all {A : Type} (f : A -> bool) (l : list A) :
  (forall x, In x l -> f x = true) -> filter f l = l.
Proof.
  induction l as [| x l IH]; [reflexivity |]. intros H. cbn.
  rewrite (H x (or_introl eq_refl)). f_equal. apply IH.
  intros y Hy. apply H. right. exact Hy.
Qed.

(** Cancelling or firing a timer that is not the auto-disarm timer keeps
    the invariant. *)
Lemma clearTimeout_other_Inv (pg : Page) (t : Timer) (s : State) :
  Inv pg s -> In t (timers s) -> isArmTimer t = false ->
  Inv pg (clearTimeout (timer_id t) s).
Proof.
  intros [Hov Harm Hok] Hin Hna. constructor.
  - exact Hov.
  - destruct Harm as [(A & B & C & D) | (k & id & A & B & C & D & E)].
    + left. repeat split; auto.
      unfold armTimerIds, clearTimeout. cbn. rewrite filter_ids_arm.
      fold (armTimerIds s). rewrite D. reflexivity.
    + right. exists k, id. repeat split; auto.
      unfold armTimerIds, clearTimeout. cbn. rewrite filter_ids_arm.
      fold (armTimerIds s). rewrite E. cbn.
      destruct (Pos.eqb_spec id (timer_id t)) as [Heq | Hneq]; [| reflexivity].
      exfalso.
      assert (Hid : In id (armTimerIds s)) by (rewrite E; left; reflexivity).
      unfold armTimerIds in Hid. apply in_map_iff in Hid.
      destruct Hid as (t' & Ht' & Hin').
      apply filter_In in Hin'. destruct Hin' as [Hin' Harm'].
      assert (t' = t).
      { apply (NoDup_ids_inj (timers s)); auto; [apply Hok | congruence]. }
      subst t'. congruence.
  - apply TimersOk_clearTimeout. exact Hok.
Qed.

Lemma fireTimer_Inv (pg : Page) (id : positive) (s : State) :
  Inv pg s -> Inv pg (stateOf (fireTimer pg id s)).
Proof.
  intros HI. unfold fireTimer.
  destruct (find _ (timers s)) as [t |] eqn:F; [| exact HI].
  apply find_timer_In in F. destruct F as [Hin <-].
  destruct (isArmTimer t) eqn:Ha.
  - assert (Ecb : timer_callback t = RunClearArmed)
      by (unfold isArmTimer in Ha; destruct (timer_callback t); congruence).
    rewrite Ecb. cbn [runCallback run stateOf].
    destruct HI as [Hov Harm Hok].
    assert (Hid : In (timer_id t) (armTimerIds s)).
    { unfold armTimerIds. apply in_map, filter_In. split; [exact Hin | exact Ha]. }
    constructor.
    + intros H. destruct (clearArmedGridItem_frame pg (clearTimeout (timer_id t) s))
        as (_ & -> & _). cbn. auto.
    + left. apply clearArmedGridItem_disarms.
      destruct Harm as [(A & B & C & D) | (k & id & A & B & C & D & E)].
      * rewrite D in Hid. destruct Hid.
      * right. exists k, id. repeat split; auto.
        unfold armTimerIds, clearTimeout. cbn. rewrite filter_ids_arm.
        fold (armTimerIds s). rewrite E. cbn.
        intros x. destruct (negb _); cbn; intros []; auto; contradiction.
    + apply clearArmedGridItem_TimersOk, TimersOk_clearTimeout, Hok.
  - apply runCallback_Inv. apply clearTimeout_other_Inv; auto.
Qed.

Lemma initialState_Inv (pg : Page) (focused : option Element) :
  Inv pg (initialState focused).
Proof.
  constructor.
  - reflexivity.
  - left. repeat split.
  - split; constructor.
Qed.

Lemma pageLoaded_Inv (pg : Page) (projectParam autopopup : option string)
    (focused : option Element) :
  Inv pg (pageLoaded pg projectParam autopopup focused).
Proof.
  unfold pageLoaded, openProjectFromQueryParam.
  pose proof (initialState_Inv pg focused) as HI.
  destruct (overlay pg); [| exact HI].
  destruct (isNil _); [exact HI |].
  destruct (negb (Js.truthy projectParam) && negb _); [exact HI |].
  destruct (_ <? 0)%Z; [destruct (negb _); [exact HI |] |];
    (apply (armView_Inv pg (initialState focused)); [reflexivity | | exact HI];
     intros H; reflexivity).
Qed.

Lemma after_listener_Inv (pg : Page) (s : State) :
  Inv pg s -> Inv pg (stateOf (run (clearArmedGridItem pg) s)).
Proof. intros HI. cbn. apply clearArmedGridItem_Inv, HI. Qed.

Lemma step_Inv (pg : Page) (s : State) (ev : Event) :
  Inv pg s -> Inv pg (step pg s ev).
Proof.
  intros HI. unfold step.
  destruct ev as [idx directOpen | idx key | | | | | | projectIndex | lang | key
                 | target | id | | index | index]; cbn [handle].
  - (* ClickGridButton *)
    assert (Hopen : Inv pg (stateOf ((run (clearArmedGridItem pg) ;;
                                      openProject pg (Z.of_nat idx)) s))).
    { unfold andThen, run. apply openProject_Inv, clearArmedGridItem_Inv, HI. }
    destruct directOpen; [exact Hopen |].
    destruct (armedGridIndex s =? Z.of_nat idx)%Z; [exact Hopen |].
    cbn. apply armGridItem_Inv, HI.
  - (* KeyOnGridButton *)
    assert (Hopen : Inv pg (stateOf ((run (clearArmedGridItem pg) ;;
                                      openProject pg (Z.of_nat idx) ;;
                                      handleKeyDown pg key) s))).
    { unfold andThen, run.
      destruct (openProject_returns pg (Z.of_nat idx) (clearArmedGridItem pg s))
        as (s' & Hs').
      pose proof (openProject_Inv pg (Z.of_nat idx) _
                    (clearArmedGridItem_Inv pg s HI)) as H.
      rewrite Hs' in *. cbn in H. apply handleKeyDown_Inv, H. }
    destruct key; try exact Hopen; apply handleKeyDown_Inv, HI.
  - (* ClickElsewhere *)
    apply after_listener_Inv, HI.
  - (* ClickClose *)
    destruct (overlay pg) as [ov |]; [| apply after_listener_Inv, HI].
    apply after_listener_Inv.
    destruct (has_close ov); [apply closeOverlay_Inv, HI | exact HI].
  - (* ClickBackdrop *)
    destruct (overlay pg) as [ov |]; [| apply after_listener_Inv, HI].
    apply after_listener_Inv.
    destruct (has_backdrop ov); [apply closeOverlay_Inv, HI | exact HI].
  - (* ClickPrev *)
    destruct (overlay pg) as [ov |]; [| apply after_listener_Inv, HI].
    apply after_listener_Inv.
    destruct (has_prev ov); [apply goToPrevProject_Inv, HI | exact HI].
  - (* ClickNext *)
    destruct (overlay pg) as [ov |]; [| apply after_listener_Inv, HI].
    apply after_listener_Inv.
    destruct (has_next ov); [apply goToNextProject_Inv, HI | exact HI].
  - (* ClickFooterLink *)
    apply after_listener_Inv.
    destruct (projectIndex <? 0)%Z; [exact HI | apply openProject_Inv, HI].
  - (* ClickLang *)
    cbn. apply clearArmedGridItem_Inv.
    apply (armView_Inv pg s); [reflexivity | | exact HI].
    apply (inv_overlay pg s HI).
  - (* KeyDown *)
    apply handleKeyDown_Inv, HI.
  - (* FocusMoves *)
    cbn [run stateOf].
    destruct (moveFocus_shape pg target s) as (a & c & ->).
    apply focus_moved_Inv, HI.
  - (* TimerExpires *)
    apply fireTimer_Inv, HI.
  - (* AnimationFrame *)
    unfold runFrame. apply runCallbacks_Inv.
    apply (armView_Inv pg s); [reflexivity | | exact HI].
    apply (inv_overlay pg s HI).
  - (* PointerOnGridButton *)
    cbn [run stateOf]. apply preloadHero_Inv, HI.
  - (* PrimedHeroPreload *)
    cbn [run stateOf]. destruct (index <? 2); [apply preloadHero_Inv, HI | exact HI].
Qed.

Lemma Reachable_Inv (pg : Page) (s : State) : Reachable pg s -> Inv pg s.
Proof.
  induction 1 as [projectParam autopopup focused | s ev _ IH].
  - apply pageLoaded_Inv.
  - apply step_Inv, IH.
Qed.

(** ** Claims about the overlay controller *)

(** A page with an overlay and one project, for the examples. *)
Definition demoOverlay : OverlayEl := mkOverlayEl true true true true true true.

Definition demoPage : Page :=
  mkPage (Some demoOverlay) 3
         [ bareProject "Alpha"; bareProject "Beta"; bareProject "Gamma" ]
         "/projects.html".

Definition demoState : State := initialState (Some (GridButton 0)).

(** C1, as stated, fails: with three projects parsed, [openProject(5)] is
    no no-op.  The overlay state goes from closed at index 0 with no
    remembered element to open at index 5 with the focused grid button
    remembered. *)
Lemma openProject_out_of_range_not_noop :
  (5 < 0 \/ projectCount demoPage <= 5)%Z
  /\ overlayState demoState = mkOverlayState false 0%Z None
  /\ overlayState (stateOf (openProject demoPage 5%Z demoState))
     = mkOverlayState true 5%Z (Some (GridButton 0))
  /\ overlayState (stateOf (openProject demoPage 5%Z demoState))
     <> overlayState demoState.
Proof.
  split; [right; vm_compute; discriminate |].
  split; [reflexivity |]. split; [reflexivity |].
  vm_compute. discriminate.
Qed.

(** C1, amended: for every integer [i] outside [[0, N-1]], [openProject(i)]
    returns without raising an error.  It is a no-op when the overlay
    element is missing or no project was parsed.  Otherwise nothing is
    rendered (the detail view keeps its content), but the overlay state
    changes: the overlay is open, [currentProjectIndex] is [i] and
    [lastFocusedElement] is the element that had the focus. *)
Theorem openProject_out_of_range (pg : Page) (i : Z) (s : State)
    (Hout : (i < 0 \/ projectCount pg <= i)%Z) :
  exists s',
    openProject pg i s = Returned s'
    /\ (overlay pg = None \/ projectsData pg = [] -> s' = s)
    /\ (overlay pg <> None -> projectsData pg <> [] ->
        overlayState s' = mkOverlayState true i (activeElement s)
        /\ detail s' = detail s).
Proof.
  destruct (overlay pg) as [ov |] eqn:Hov.
  - destruct (projectsData pg) as [| p0 ps] eqn:Hps.
    + exists s. unfold openProject. rewrite Hov, Hps. cbn.
      repeat split; auto; congruence.
    + assert (Hne : projectsData pg <> []) by congruence.
      destruct (openProject_past_guard pg ov i s Hov Hne)
        as (s' & Hs' & Ho & Hc & Hl & _ & Hd).
      exists s'. rewrite <- Hps. split; [exact Hs' |]. split.
      * intros [H | H]; congruence.
      * intros _ _. unfold overlayState. rewrite Ho, Hc, Hl.
        split; [reflexivity |].
        rewrite Hd, at_out_of_range by exact Hout.
        rewrite renderProjectDetail_none. reflexivity.
  - exists s. unfold openProject. rewrite Hov.
    repeat split; auto; congruence.
Qed.

Lemma openProject_out_of_range_witness :
  (5 < 0 \/ projectCount demoPage <= 5)%Z
  /\ exists s',
    openProject demoPage 5%Z demoState = Returned s'
    /\ (overlay demoPage = None \/ projectsData demoPage = [] -> s' = demoState)
    /\ (overlay demoPage <> None -> projectsData demoPage <> [] ->
        overlayState s' = mkOverlayState true 5%Z (activeElement demoState)
        /\ detail s' = detail demoState).
Proof.
  assert (Hout : (5 < 0 \/ projectCount demoPage <= 5)%Z)
    by (right; vm_compute; discriminate).
  split; [exact Hout |].
  exact (openProject_out_of_range demoPage 5%Z demoState Hout).
Defined.

(** What the detail view shows after a move to index [i]: the record at
    [i] when the overlay has a detail region, the old content otherwise. *)
Definition detailAfterMove (pg : Page) (ov : OverlayEl) (i : Z) (s : State)
  : option DetailView :=
  match at_ (projectsData pg) i with
  | Some p => if has_detail ov then Some (renderDetail p) else detail s
  | None => detail s
  end.

Lemma goTo_moves (pg : Page) (ov : OverlayEl) (s : State) (delta : Z) :
  overlay pg = Some ov ->
  exists s',
    (run (fun s => set_currentProjectIndex s (currentProjectIndex s + delta)%Z) ;;
     run (fun s => renderProjectDetail pg
                     (at_ (projectsData pg) (currentProjectIndex s)) s) ;;
     updateNavButtons pg ;;
     scrollOverlayToTop pg) s = Returned s'
    /\ currentProjectIndex s' = (currentProjectIndex s + delta)%Z
    /\ detail s' = detailAfterMove pg ov (currentProjectIndex s + delta)%Z s.
Proof.
  intros Hov.
  unfold andThen, run, updateNavButtons, scrollOverlayToTop, withOverlay.
  rewrite Hov. eexists. split; [reflexivity |].
  unfold detailAfterMove, renderProjectDetail. rewrite Hov. cbn.
  destruct (at_ (projectsData pg) (currentProjectIndex s + delta)%Z);
    destruct (has_detail ov); destruct (has_scroll ov); cbn; auto.
Qed.

(** C2: in any state the page can be in with the overlay open at a valid
    index [i], [goToNextProject] moves to [i + 1] and [goToPrevProject] to
    [i - 1], each rendering the record it moves to and leaving the overlay
    open; at the last index [goToNextProject], and at index 0
    [goToPrevProject], return the state unchanged. *)
Theorem next_prev_clamped (pg : Page) (s : State)
    (Hreach : Reachable pg s)
    (Hopen : isOverlayOpen s = true)
    (Hi : (0 <= currentProjectIndex s < projectCount pg)%Z) :
  let i := currentProjectIndex s in
  exists ov,
    overlay pg = Some ov
    /\ ((i < projectCount pg - 1)%Z ->
        exists s', goToNextProject pg s = Returned s'
                   /\ overlayState s'
                      = mkOverlayState true (i + 1)%Z (lastFocusedElement s)
                   /\ detail s' = detailAfterMove pg ov (i + 1)%Z s)
    /\ (i = (projectCount pg - 1)%Z -> goToNextProject pg s = Returned s)
    /\ ((0 < i)%Z ->
        exists s', goToPrevProject pg s = Returned s'
                   /\ overlayState s'
                      = mkOverlayState true (i - 1)%Z (lastFocusedElement s)
                   /\ detail s' = detailAfterMove pg ov (i - 1)%Z s)
    /\ (i = 0%Z -> goToPrevProject pg s = Returned s).
Proof.
  cbn zeta. pose proof (Reachable_Inv pg s Hreach) as HI.
  destruct (overlay pg) as [ov |] eqn:Hov;
    [| rewrite (inv_overlay pg s HI Hov) in Hopen; discriminate].
  exists ov. split; [reflexivity |].
  unfold projectCount in *. repeat split.
  - intros Hlt.
    destruct (goTo_moves pg ov s 1 Hov) as (s' & Hs' & Hc & Hd).
    pose proof (goTo_frame pg s 1) as Hf. cbn zeta in Hf. rewrite Hs' in Hf.
    cbn [stateOf] in Hf. destruct Hf as (_ & Ho & Hl & _).
    unfold goToNextProject.
    destruct (Z.ltb_spec (currentProjectIndex s)
                (Z.of_nat (List.length (projectsData pg)) - 1)); [| lia].
    exists s'. split; [exact Hs' |].
    unfold overlayState. rewrite Ho, Hl, Hc, Hopen. auto.
  - intros Heq. unfold goToNextProject.
    destruct (Z.ltb_spec (currentProjectIndex s)
                (Z.of_nat (List.length (projectsData pg)) - 1)); [lia | reflexivity].
  - intros Hgt.
    destruct (goTo_moves pg ov s (-1) Hov) as (s' & Hs' & Hc & Hd).
    pose proof (goTo_frame pg s (-1)) as Hf. cbn zeta in Hf. rewrite Hs' in Hf.
    cbn [stateOf] in Hf. destruct Hf as (_ & Ho & Hl & _).
    unfold goToPrevProject.
    destruct (Z.gtb_spec (currentProjectIndex s) 0); [| lia].
    exists s'. split; [exact Hs' |].
    unfold overlayState. rewrite Ho, Hl, Hc, Hopen. auto.
  - intros Heq. unfold goToPrevProject.
    destruct (Z.gtb_spec (currentProjectIndex s) 0); [lia | reflexivity].
Qed.

(** The demo page with the overlay open on its middle project. *)
Definition demoOpenState : State :=
  step demoPage (pageLoaded demoPage None None (Some (GridButton 1)))
       (ClickGridButton 1 true).

Lemma next_prev_clamped_witness :
  Reachable demoPage demoOpenState
  /\ isOverlayOpen demoOpenState = true
  /\ (0 <= currentProjectIndex demoOpenState < projectCount demoPage)%Z
  /\ (exists s', goToNextProject demoPage demoOpenState = Returned s'
                 /\ currentProjectIndex s' = 2%Z)
  /\ (exists s', goToPrevProject demoPage demoOpenState = Returned s'
                 /\ currentProjectIndex s' = 0%Z).
Proof.
  assert (Hreach : Reachable demoPage demoOpenState)
    by apply reach_step, reach_init.
  assert (Hopen : isOverlayOpen demoOpenState = true) by reflexivity.
  assert (Hi : (0 <= currentProjectIndex demoOpenState < projectCount demoPage)%Z)
    by (vm_compute; split; [discriminate | reflexivity]).
  destruct (next_prev_clamped demoPage demoOpenState Hreach Hopen Hi)
    as (ov & _ & Hnext & _ & Hprev & _).
  split; [exact Hreach |]. split; [exact Hopen |]. split; [exact Hi |]. split.
  - destruct Hnext as (s' & Hs' & Hst & _); [vm_compute; reflexivity |].
    exists s'. split; [exact Hs' |].
    change (currentIndex (overlayState s') = 2%Z). rewrite Hst. reflexivity.
  - destruct Hprev as (s' & Hs' & Hst & _); [vm_compute; reflexivity |].
    exists s'. split; [exact Hs' |].
    change (currentIndex (overlayState s') = 0%Z). rewrite Hst. reflexivity.
Defined.

(** *** Focus: what [focus()] and the focus timer do *)

Lemma activeElement_takeFocus (pg : Page) (e : Element) (s : State) :
  activeElement (takeFocus pg e s) = Some e.
Proof.
  unfold takeFocus, hasFocus.
  destruct (activeElement s) as [active |] eqn:Ha.
  - destruct (sameElement active e) eqn:He.
    + apply sameElement_eq in He. congruence.
    + destruct (focusListeners_shape pg e (set_activeElement s (Some e)))
        as (c & ->). reflexivity.
  - destruct (focusListeners_shape pg e (set_activeElement s (Some e)))
      as (c & ->). reflexivity.
Qed.

Lemma activeElement_focus (pg : Page) (e : Element) (s : State) :
  activeElement (focus pg e s)
  = if canTakeFocus e s then Some e else activeElement s.
Proof.
  unfold focus. destruct (canTakeFocus e s); [| reflexivity].
  apply activeElement_takeFocus.
Qed.

Lemma canTakeFocus_closedOverlay (e : Element) (s : State) :
  canTakeFocus e (closedOverlay s) = canTakeFocus e s.
Proof. destruct e; reflexivity. Qed.

(** The focus after [closeOverlay] on an open overlay: on the remembered
    element when [focus()] can put it there, and where it was otherwise. *)
Definition focusAfterClose (s : State) : option Element :=
  match lastFocusedElement s with
  | Some e => if canTakeFocus e s then Some e else activeElement s
  | None => activeElement s
  end.

Lemma closeOverlay_restores (pg : Page) (ov : OverlayEl) (s : State) :
  overlay pg = Some ov -> isOverlayOpen s = true ->
  exists s',
    closeOverlay pg s = Returned s'
    /\ isOverlayOpen s' = false
    /\ activeElement s' = focusAfterClose s
    /\ armView s' = armView s.
Proof.
  intros Hov Hopen.
  pose proof (closeOverlay_armView pg s) as Hv.
  rewrite (closeOverlay_open pg ov s Hov Hopen) in *. cbn [stateOf] in Hv.
  eexists. split; [reflexivity |]. split; [| split; [| exact Hv]].
  - destruct (lastFocusedElement s) as [e |]; [| reflexivity].
    destruct (focus_shape pg e (closedOverlay s)) as (a & c & ->). reflexivity.
  - unfold focusAfterClose. destruct (lastFocusedElement s) as [e |]; [| reflexivity].
    rewrite activeElement_focus, canTakeFocus_closedOverlay. reflexivity.
Qed.








(** C10: [closeOverlay] never throws, and of the three fields of the
    overlay state it writes [isOverlayOpen] only: [currentProjectIndex] and
    [lastFocusedElement] are after the call what they were before, so the
    index of the project that was open is retained. *)
Theorem closeOverlay_frame (pg : Page) (s : State) :
  exists s',
    closeOverlay pg s = Returned s'
    /\ currentProjectIndex s' = currentProjectIndex s
    /\ lastFocusedElement s' = lastFocusedElement s
    /\ overlayState s' =
         mkOverlayState
           (match overlay pg with Some _ => false | None => isOverlayOpen s end)
           (currentProjectIndex s) (lastFocusedElement s).
Proof.
  destruct (overlay pg) as [ov |] eqn:Hov;
    [| exists s; unfold closeOverlay; rewrite Hov; auto].
  destruct (isOverlayOpen s) eqn:Ho.
  - rewrite (closeOverlay_open pg ov s Hov Ho).
    eexists. split; [reflexivity |].
    destruct (lastFocusedElement s) as [e |] eqn:E.
    + destruct (focus_shape pg e (closedOverlay s)) as (a & c & ->).
      unfold overlayState. cbn. rewrite E. auto.
    + unfold overlayState. cbn. rewrite E. auto.
  - exists s. unfold closeOverlay, overlayState. rewrite Hov, Ho. auto.
Qed.

(** ** Claims about the grid *)

Lemma find_timer_absent (id : positive) (l : list Timer) :
  ~ In id (map timer_id l) ->
  find (fun t => Pos.eqb (timer_id t) id) l = None.
Proof.
  intros H. destruct (find _ l) as [t |] eqn:F; [| reflexivity].
  apply find_timer_In in F. destruct F as [Hin <-].
  exfalso. apply H, in_map, Hin.
Qed.

Lemma Inv_armed_at (pg : Page) (s : State) (k : nat) :
  Inv pg s -> armedGridIndex s = Z.of_nat k ->
  exists id, ArmedAt pg k id s.
Proof.
  intros [_ [(A & _) | (k' & id & H)] _] Hk.
  - rewrite A in Hk. lia.
  - exists id. destruct H as (A & B & C & D & E).
    assert (k' = k) by lia. subst k'. repeat split; auto.
Qed.

Lemma Inv_at_most_one_armed (pg : Page) (s : State) :
  Inv pg s -> List.length (armedItems s) <= 1.
Proof.
  intros [_ [(_ & _ & C & _) | (k & id & _ & _ & _ & D & _)] _].
  - rewrite C. cbn. lia.
  - rewrite D. cbn. lia.
Qed.

(** The auto-disarm timer of the armed tile expires: nothing is armed any
    more. *)
Lemma arm_timer_expires (pg : Page) (s : State) (k : nat) (id : positive) :
  ArmedAt pg k id s -> TimersOk s ->
  Disarmed (step pg s (TimerExpires id)).
Proof.
  intros Harm Hok. pose proof Harm as (A & B & C & D & E).
  unfold step. cbn [handle]. unfold fireTimer.
  assert (Hid : In id (armTimerIds s)) by (rewrite E; left; reflexivity).
  unfold armTimerIds in Hid. apply in_map_iff in Hid.
  destruct Hid as (t0 & Hid0 & Hin0). apply filter_In in Hin0.
  destruct Hin0 as [Hin0 Harm0].
  destruct (find _ (timers s)) as [t |] eqn:F.
  - apply find_timer_In in F. destruct F as [Hin Hid].
    assert (t = t0).
    { apply (NoDup_ids_inj (timers s)); auto; [apply Hok | congruence]. }
    subst t0.
    assert (Ecb : timer_callback t = RunClearArmed)
      by (unfold isArmTimer in Harm0; destruct (timer_callback t); congruence).
    rewrite Ecb. cbn [runCallback run stateOf].
    apply clearArmedGridItem_disarms. right. exists k, id.
    repeat split; auto.
    unfold armTimerIds, clearTimeout. cbn. rewrite filter_ids_arm.
    fold (armTimerIds s). rewrite E. cbn.
    rewrite Pos.eqb_refl. cbn. intros x [].
  - exfalso. apply find_none with (x := t0) in F; [| exact Hin0].
    rewrite Hid0, Pos.eqb_refl in F. discriminate.
Qed.

(** C7: in any state the page can be in at most one tile carries the armed
    class.  When tile [k] is armed and the user arms another tile [j] (a
    click on [j] in arm-then-open mode), tile [k]'s auto-disarm timer is
    cancelled: it is pending before and not after, and its expiry changes
    nothing from then on.  Afterwards tile [j] alone is armed, with a fresh
    2400 ms timer as the only auto-disarm timer, whose expiry disarms it. *)
Theorem arming_is_exclusive (pg : Page) (s : State) (j k : nat)
    (Hreach : Reachable pg s)
    (Hk : armedGridIndex s = Z.of_nat k)
    (Hjk : j <> k)
    (Hj : j < gridItemContainers pg) :
  (forall s0, Reachable pg s0 -> List.length (armedItems s0) <= 1)
  /\ step pg s (ClickGridButton j false) = armGridItem pg j s
  /\ exists old new,
       armedItems s = [k]
       /\ armedGridResetTimer s = Some old
       /\ In old (pendingIds s)
       /\ armedItems (armGridItem pg j s) = [j]
       /\ armedGridIndex (armGridItem pg j s) = Z.of_nat j
       /\ armedGridResetTimer (armGridItem pg j s) = Some new
       /\ filter isArmTimer (timers (armGridItem pg j s))
          = [mkTimer new 2400 RunClearArmed]
       /\ ~ In old (pendingIds (armGridItem pg j s))
       /\ step pg (armGridItem pg j s) (TimerExpires old) = armGridItem pg j s
       /\ Disarmed (step pg (armGridItem pg j s) (TimerExpires new)).
Proof.
  pose proof (Reachable_Inv pg s Hreach) as HI.
  split; [intros s0 H0; apply (Inv_at_most_one_armed pg), Reachable_Inv, H0 |].
  split.
  { unfold step. cbn [handle].
    destruct (Z.eqb_spec (armedGridIndex s) (Z.of_nat j)); [lia | reflexivity]. }
  destruct (Inv_armed_at pg s k HI Hk) as (old & Harm).
  pose proof Harm as (A & B & C & D & E).
  destruct HI as [Hov _ Hok].
  assert (Hold : In old (pendingIds s)).
  { assert (H : In old (armTimerIds s)) by (rewrite E; left; reflexivity).
    unfold armTimerIds in H. apply in_map_iff in H.
    destruct H as (t & <- & Hin). apply filter_In in Hin.
    apply in_map. apply Hin. }
  destruct (clearArmedGridItem_disarms pg s) as (Hdis & Htim & Hnext).
  { right. exists k, old. apply ArmedAt_loosely, Harm. }
  rewrite C in Htim.
  pose proof (clearArmedGridItem_TimersOk pg s Hok) as Hok1.
  destruct (arm_from_disarmed pg j _ Hdis Hok1 Hj) as (Hnew & Hok' & Htim').
  rewrite <- armGridItem_unfold in Hnew, Hok', Htim' by exact Hj.
  set (s' := armGridItem pg j s) in *.
  rewrite Hnext in Hnew, Htim'.
  exists old, (nextTimerId s).
  pose proof Hnew as (A' & _ & C' & D' & E').
  assert (Hgone : ~ In old (pendingIds s')).
  { unfold pendingIds. rewrite Htim', Htim, map_app, filter_ids. cbn.
    intros Hin. apply in_app_or in Hin. destruct Hin as [Hin | [Heq | []]].
    - apply filter_In in Hin. destruct Hin as [_ Hne].
      rewrite Pos.eqb_refl in Hne. discriminate.
    - destruct Hok as [_ Hfr]. unfold pendingIds in Hold.
      apply in_map_iff in Hold. destruct Hold as (t & Ht & Hin).
      rewrite Forall_forall in Hfr. apply Hfr in Hin. lia. }
  assert (Hexp : Disarmed (step pg s' (TimerExpires (nextTimerId s))))
    by (apply (arm_timer_expires pg s' j); assumption).
  repeat split; auto; try apply Hexp.
  - rewrite Htim', Htim, filter_app. cbn.
    replace (filter isArmTimer
               (filter (fun t => negb (Pos.eqb (timer_id t) old)) (timers s)))
      with (@nil Timer); [reflexivity |].
    destruct Hdis as (_ & _ & _ & Hd). unfold armTimerIds in Hd.
    rewrite Htim in Hd. destruct (filter isArmTimer _); [reflexivity | discriminate].
  - unfold step. cbn [handle]. unfold fireTimer.
    rewrite find_timer_absent by exact Hgone. reflexivity.
Qed.

(** The demo page after a click on tile 2 in arm-then-open mode. *)
Definition demoArmedState : State :=
  step demoPage (pageLoaded demoPage None None None) (ClickGridButton 2 false).

Lemma arming_is_exclusive_witness :
  Reachable demoPage demoArmedState
  /\ armedGridIndex demoArmedState = Z.of_nat 2
  /\ 1 <> 2
  /\ 1 < gridItemContainers demoPage
  /\ armedItems (step demoPage demoArmedState (ClickGridButton 1 false)) = [1]
  /\ pendingIds (step demoPage demoArmedState (ClickGridButton 1 false))
     = [2%positive].
Proof.
  assert (Hreach : Reachable demoPage demoArmedState)
    by (apply reach_step, reach_init).
  assert (Hk : armedGridIndex demoArmedState = Z.of_nat 2) by reflexivity.
  assert (Hjk : 1 <> 2) by discriminate.
  assert (Hj : 1 < gridItemContainers demoPage) by (cbn; lia).
  split; [exact Hreach |]. split; [exact Hk |]. split; [exact Hjk |].
  split; [exact Hj |].
  destruct (arming_is_exclusive demoPage demoArmedState 1 2 Hreach Hk Hjk Hj)
    as (_ & Hstep & old & new & _ & _ & _ & Hitems & _).
  rewrite Hstep. split; [exact Hitems | reflexivity].
Defined.

(** ** Claims about the language toggle *)




Lemma last_cons_default {A : Type} (l : list A) (a d : A) :
  last (a :: l) d = last l a.
Proof.
  revert a d. induction l as [| b l IH]; intros a d; [reflexivity |].
  change (last (a :: b :: l) d) with (last (b :: l) d).
  rewrite (IH b d), (IH b a). reflexivity.
Qed.







(** ** Claims about the deep link *)

(** The record at position [i] is the first one that satisfies [pred]. *)
Definition FirstAt {A : Type} (pred : A -> bool) (l : list A) (i : nat) (x : A)
  : Prop :=
  nth_error l i = Some x
  /\ pred x = true
  /\ forall j y, j < i -> nth_error l j = Some y -> pred y = false.

Lemma findIndexFrom_first {A : Type} (pred : A -> bool) (l : list A)
    (i : nat) (x : A) (z : Z) :
  FirstAt pred l i x -> findIndexFrom pred l z = (z + Z.of_nat i)%Z.
Proof.
  revert i z. induction l as [| y l IH]; intros i z (Hn & Hp & Hb).
  - destruct i; discriminate.
  - destruct i as [| i]; cbn in Hn |- *.
    + injection Hn as ->. rewrite Hp. lia.
    + rewrite (Hb 0 y) by (cbn; auto; lia).
      rewrite (IH i (z + 1)%Z); [lia |].
      repeat split; auto. intros j q Hj Hq. apply (Hb (S j) q); [lia | exact Hq].
Qed.

Lemma findIndexFrom_none {A : Type} (pred : A -> bool) (l : list A) (z : Z) :
  (forall x, In x l -> pred x = false) -> findIndexFrom pred l z = (-1)%Z.
Proof.
  revert z. induction l as [| y l IH]; intros z H; [reflexivity |].
  cbn. rewrite (H y) by (left; reflexivity).
  apply IH. intros x Hx. apply H. right. exact Hx.
Qed.

(** The page once [init] has run with the query [?project=P] (and
    [autopopup] as given) and the first animation frame has passed. *)
Definition afterLoad (pg : Page) (P : string) (autopopup : option string)
    (focused : option Element) : State :=
  stateOf (runFrame pg (pageLoaded pg (Some P) autopopup focused)).

(** Two records whose keys are all present; those of the second are made
    of dashes only. *)
Definition alphaRecord : Project :=
  mkProject "Alpha" (Some "alpha") (Some "Alpha") (Js.Str "01")
            None None None None None None None None None None None None.

Definition dashRecord : Project :=
  mkProject "--" (Some "--") (Some "--") (Js.Str "02")
            None None None None None None None None None None None None.

Definition dashPage : Page :=
  mkPage (Some demoOverlay) 2 [alphaRecord; dashRecord] "/projects.html".

(** C8, as stated, fails: with [?project=--] the second record is the
    first whose slug, after normalization, equals the normalization of the
    parameter (both are empty), yet the overlay does not open. *)
Lemma deep_link_empty_key_not_opened :
  normalizeProjectKey (Js.Str "--") = normalizeProjectKey (Js.ofOption (slug dashRecord))
  /\ FirstAt (keyMatches (normalizeProjectKey (Js.Str "--")))
             (projectsData dashPage) 1 dashRecord
  /\ isOverlayOpen (afterLoad dashPage "--" None (Some Body)) = false
  /\ afterLoad dashPage "--" None (Some Body) = initialState (Some Body).
Proof.
  split; [reflexivity |]. split; [| split; reflexivity].
  split; [reflexivity |]. split; [reflexivity |].
  intros j y Hj Hy. destruct j as [| j]; [| lia].
  cbn in Hy. injection Hy as <-. reflexivity.
Qed.

Lemma runFrame_open (pg : Page) (ov : OverlayEl) (i : Z) (focused : option Element) :
  overlay pg = Some ov -> projectsData pg <> [] ->
  let s' := stateOf (runFrame pg (requestAnimationFrame (RunOpenProject i)
                                    (initialState focused))) in
  overlayState s' = mkOverlayState true i focused
  /\ detail s' = detailAfterMove pg ov i (initialState focused).
Proof.
  intros Hov Hne. cbn zeta. unfold runFrame, requestAnimationFrame.
  cbn [frames set_frames initialState app runCallbacks runCallback].
  match goal with |- context [openProject pg i ?s0] =>
    destruct (openProject_past_guard pg ov i s0 Hov Hne)
      as (s' & Hs' & Ho & Hc & Hl & _ & Hd); rewrite Hs' end.
  cbn [stateOf]. unfold overlayState. rewrite Ho, Hc, Hl, Hd.
  split; [reflexivity |].
  unfold detailAfterMove, renderProjectDetail. rewrite Hov.
  destruct (at_ (projectsData pg) i); [| reflexivity].
  destruct (has_detail ov); reflexivity.
Qed.

(** C8, amended: on a page with the overlay element and at least one
    project, loaded with [?project=P]: when the normalization of [P] is not
    empty, the overlay opens at the first record whose slug, display title,
    title or index has the same normalization; when the normalization is
    empty or no record matches, the overlay opens at index 0 if
    [autopopup=1] is present and stays closed, with nothing scheduled, if
    it is not. *)
Theorem deep_link_opens (pg : Page) (ov : OverlayEl) (P : string)
    (autopopup : option string) (focused : option Element)
    (Hov : overlay pg = Some ov)
    (Hne : projectsData pg <> []) :
  let key := normalizeProjectKey (Js.Str P) in
  let s' := afterLoad pg P autopopup focused in
  (key <> EmptyString ->
   forall i record,
     FirstAt (keyMatches key) (projectsData pg) i record ->
     overlayState s' = mkOverlayState true (Z.of_nat i) focused
     /\ (has_detail ov = true -> detail s' = Some (renderDetail record)))
  /\ (key = EmptyString
      \/ (forall record, In record (projectsData pg) -> keyMatches key record = false) ->
      (autopopup = Some "1" -> overlayState s' = mkOverlayState true 0%Z focused)
      /\ (autopopup <> Some "1" -> s' = initialState focused)).
Proof.
  cbn zeta. unfold afterLoad, pageLoaded, openProjectFromQueryParam.
  rewrite Hov. destruct (projectsData pg) as [| p0 ps] eqn:Hps; [congruence |].
  cbn [isNil]. rewrite <- Hps in *.
  unfold findProjectIndexFromParam. cbn [Js.ofOption].
  set (key := normalizeProjectKey (Js.Str P)).
  set (forceOpen := match autopopup with
                    | Some v => String.eqb v "1"
                    | None => false
                    end).
  assert (Hforce : forceOpen = true <-> autopopup = Some "1").
  { unfold forceOpen. destruct autopopup as [v |]; [| split; discriminate].
    destruct (String.eqb_spec v "1"); split; congruence. }
  split.
  - intros Hkey i record Hfirst.
    assert (Htruthy : Js.truthy (Some P) = true).
    { destruct P; [exfalso; apply Hkey; reflexivity | reflexivity]. }
    rewrite Htruthy. cbn [negb andb].
    assert (Hie : Js.isEmpty key = false)
      by (destruct key; [congruence | reflexivity]).
    rewrite Hie. unfold findIndex. rewrite (findIndexFrom_first _ _ i record) by exact Hfirst.
    destruct (Z.ltb_spec (0 + Z.of_nat i) 0); [lia |].
    destruct (runFrame_open pg ov (0 + Z.of_nat i)%Z focused Hov Hne) as (Hst & Hd).
    rewrite Z.add_0_l in *. split; [exact Hst |].
    intros Hdet. rewrite Hd. unfold detailAfterMove, at_.
    destruct (Z.ltb_spec (Z.of_nat i) 0); [lia |].
    rewrite Nat2Z.id. destruct Hfirst as (-> & _). rewrite Hdet. reflexivity.
  - intros Hnone.
    assert (Hidx : (if Js.isEmpty key then (-1)%Z
                    else findIndex (keyMatches key) (projectsData pg)) = (-1)%Z).
    { destruct Hnone as [-> | Hnone]; [reflexivity |].
      destruct (Js.isEmpty key); [reflexivity |].
      apply findIndexFrom_none. exact Hnone. }
    rewrite Hidx. cbn [Z.ltb Z.compare].
    split.
    + intros Hauto. apply Hforce in Hauto. rewrite Hauto.
      rewrite andb_false_r. cbn [negb].
      apply (runFrame_open pg ov 0%Z focused Hov Hne).
    + intros Hauto.
      assert (Hf : forceOpen = false).
      { destruct forceOpen; [exfalso; apply Hauto, Hforce; reflexivity | reflexivity]. }
      rewrite Hf. cbn [negb]. rewrite andb_true_r.
      destruct (negb (Js.truthy (Some P))); reflexivity.
Qed.

(** The demo page with slugs, as the deep links address it. *)
Definition slugPage : Page :=
  mkPage (Some demoOverlay) 2
         [ alphaRecord;
           mkProject "Soft Concrete" (Some "soft_concrete") None Js.Undefined
                     None None None None None None None None None None None None ]
         "/projects.html".

Lemma deep_link_opens_witness :
  overlay slugPage = Some demoOverlay
  /\ projectsData slugPage <> []
  /\ normalizeProjectKey (Js.Str "soft-concrete") = "softconcrete"
  /\ overlayState (afterLoad slugPage "soft-concrete" None (Some Body))
     = mkOverlayState true 1%Z (Some Body)
  /\ overlayState (afterLoad slugPage "doesnotexist" (Some "1") (Some Body))
     = mkOverlayState true 0%Z (Some Body)
  /\ afterLoad slugPage "doesnotexist" None (Some Body) = initialState (Some Body).
Proof.
  assert (Hov : overlay slugPage = Some demoOverlay) by reflexivity.
  assert (Hne : projectsData slugPage <> []) by discriminate.
  split; [exact Hov |]. split; [exact Hne |]. split; [reflexivity |].
  split; [| split].
  - destruct (deep_link_opens slugPage demoOverlay "soft-concrete" None
                (Some Body) Hov Hne) as (Hfound & _).
    apply (Hfound ltac:(discriminate) 1
             (mkProject "Soft Concrete" (Some "soft_concrete") None Js.Undefined
                None None None None None None None None None None None None)).
    split; [reflexivity |]. split; [reflexivity |].
    intros j y Hj Hy. destruct j as [| j]; [| lia].
    cbn in Hy. injection Hy as <-. reflexivity.
  - destruct (deep_link_opens slugPage demoOverlay "doesnotexist" (Some "1")
                (Some Body) Hov Hne) as (_ & Hnone).
    apply Hnone; [| reflexivity].
    right. intros record [<- | [<- | []]]; reflexivity.
  - destruct (deep_link_opens slugPage demoOverlay "doesnotexist" None
                (Some Body) Hov Hne) as (_ & Hnone).
    apply Hnone; [| discriminate].
    right. intros record [<- | [<- | []]]; reflexivity.
Defined.

(** ** Claims about the image fallback *)

(** A search through the candidates in order: those tried, and the first
    that loads if one does. *)
Fixpoint searchInOrder (loads : string -> bool) (l : list string)
  : list string * option string :=
  match l with
  | [] => ([], None)
  | u :: t =>
      if loads u then ([u], Some u)
      else (u :: fst (searchInOrder loads t), snd (searchInOrder loads t))
  end.

Lemma skipn_candidateAt (l : list string) (index : nat) :
  index < List.length l ->
  skipn index l = candidateAt l index :: skipn (index + 1) l.
Proof.
  revert index. induction l as [| u l IH]; intros index H; [cbn in H; lia |].
  destruct index as [| index]; [reflexivity |].
  cbn in H |- *. apply IH. lia.
Qed.

Lemma tryLoad_search (loads : string -> bool) (candidates : list string) (i : nat) :
  tryLoad loads candidates i =
  mkProbe (fst (searchInOrder loads (skipn i candidates)))
          (match snd (searchInOrder loads (skipn i candidates)) with
           | Some u => u
           | None => EmptyString
           end).
Proof.
  funelim (tryLoad loads candidates i).
  - rewrite skipn_all2 by lia. reflexivity.
  - rewrite skipn_candidateAt by lia. cbn. rewrite Heq. reflexivity.
  - rewrite skipn_candidateAt by lia. cbn. rewrite Heq.
    cbn. rewrite H. reflexivity.
Qed.

Lemma tryNextUrl_search (loads : string -> bool) (urlsToTry : list string)
    (thumb : Thumb) (i : nat) :
  tryNextUrl loads urlsToTry thumb i =
  mkProbe (fst (searchInOrder loads (skipn i urlsToTry)))
          (match snd (searchInOrder loads (skipn i urlsToTry)) with
           | Some u => showImage u thumb
           | None => markPlaceholder thumb
           end).
Proof.
  funelim (tryNextUrl loads urlsToTry thumb i).
  - rewrite skipn_all2 by lia. reflexivity.
  - rewrite skipn_candidateAt by lia. cbn. rewrite Heq. reflexivity.
  - rewrite skipn_candidateAt by lia. cbn. rewrite Heq.
    cbn. rewrite H. reflexivity.
Qed.

(** The search tries a prefix of the list, stops at the first candidate
    that loads, and tries everything when none does. *)
Lemma searchInOrder_spec (loads : string -> bool) (l : list string) :
  snd (searchInOrder loads l) = find loads l
  /\ (exists untried, l = fst (searchInOrder loads l) ++ untried)
  /\ match find loads l with
     | Some u =>
         loads u = true
         /\ exists failed,
              fst (searchInOrder loads l) = failed ++ [u]
              /\ Forall (fun x => loads x = false) failed
     | None =>
         fst (searchInOrder loads l) = l
         /\ Forall (fun x => loads x = false) l
     end.
Proof.
  induction l as [| u l (IH1 & (untried & IH2) & IH3)].
  - cbn. split; [reflexivity |]. split; [exists []; reflexivity |]. auto.
  - cbn. destruct (loads u) eqn:Eu; cbn.
    + split; [reflexivity |]. split; [exists l; reflexivity |].
      split; [exact Eu |]. exists []. auto.
    + split; [exact IH1 |].
      split; [exists untried; rewrite <- IH2; reflexivity |].
      destruct (find loads l) as [v |].
      * destruct IH3 as (Hv & failed & Hf & Hall). split; [exact Hv |].
        exists (u :: failed). rewrite Hf. split; [reflexivity |].
        constructor; assumption.
      * destruct IH3 as (Hf & Hall). rewrite Hf. split; [reflexivity |].
        constructor; assumption.
Qed.

(** C5: for every candidate list and every behaviour of the network, both
    fallback chains ([preloadImageSequence], and [tryNextUrl] of
    [loadThumbnail]) assign the candidates to [img.src] strictly in order:
    the URLs tried are a prefix of the list.  If some candidate loads, the
    chain stops at the first one that does, every candidate tried before
    it failed, the promise resolves with it and the thumbnail shows it
    without the placeholder class being added.  If none loads, every
    candidate was tried, the promise resolves with [''] and the thumbnail
    gets the placeholder class and no image.  [loadThumbnail] runs this
    chain on the list it builds from the data attributes, unless both are
    missing. *)
Theorem fallback_in_order (loads : string -> bool) (candidates : list string)
    (thumb : Thumb) :
  let p := preloadImageSequence loads candidates in
  let t := tryNextUrl loads candidates thumb 0 in
  attempts t = attempts p
  /\ (exists untried, candidates = attempts p ++ untried)
  /\ match find loads candidates with
     | Some u =>
         loads u = true
         /\ outcome p = u
         /\ outcome t = showImage u thumb
         /\ backgroundImage (outcome t) = Some u
         /\ class_placeholder (outcome t) = class_placeholder thumb
         /\ exists failed,
              attempts p = failed ++ [u]
              /\ Forall (fun x => loads x = false) failed
     | None =>
         outcome p = EmptyString
         /\ attempts p = candidates
         /\ Forall (fun x => loads x = false) candidates
         /\ outcome t = markPlaceholder thumb
         /\ class_placeholder (outcome t) = true
         /\ backgroundImage (outcome t) = backgroundImage thumb
     end
  /\ loadThumbnail loads thumb =
       (if negb (Js.truthy (data_thumb thumb)) && negb (Js.truthy (data_cover thumb))
        then mkProbe [] (markLoaded thumb)
        else tryNextUrl loads (thumbnailCandidates thumb) thumb 0).
Proof.
  cbn zeta.
  assert (Hp : preloadImageSequence loads candidates = tryLoad loads candidates 0).
  { unfold preloadImageSequence. destruct candidates; [| reflexivity].
    cbn [isNil]. rewrite tryLoad_search. reflexivity. }
  rewrite Hp, tryLoad_search, tryNextUrl_search. cbn [skipn attempts outcome].
  destruct (searchInOrder_spec loads candidates) as (Hs & Hpre & Hfind).
  rewrite Hs. split; [reflexivity |]. split; [exact Hpre |].
  split; [| reflexivity].
  destruct (find loads candidates) as [u |].
  - destruct Hfind as (Hu & failed & Hf & Hall). repeat split; auto.
    exists failed. auto.
  - destruct Hfind as (Hf & Hall). repeat split; auto.
Qed.

(** ** Claims about the meta fields *)

(** Modelled from the spec: the labels in the order the specification
    words it (LOCATION, DURATION, PROGRAM, STUDIO, then YEAR, MEDIUM,
    SERIES, then the custom fields in declared order), a field of empty or
    absent value left out.  It is compared with [metaLabels], which is the
    order of the script. *)
Definition specMetaLabels (project : Project) : list string :=
  map meta_label
      (renderTrailing "LOCATION" (location project)
       ++ renderTrailing "DURATION" (duration project)
       ++ renderTrailing "PROGRAM" (program project)
       ++ renderTrailing "STUDIO" (studio project)
       ++ renderTrailing "YEAR" (year project)
       ++ renderTrailing "MEDIUM" (medium project)
       ++ renderTrailing "SERIES" (series project))
  ++ match custom_fields project with
     | Some fields =>
         map (fun field => Js.orEmpty (cf_label field))
             (filter (fun field => Js.truthy (cf_value field)) fields)
     | None => []
     end.

(** A record with a location, a year and one custom field. *)
Definition clientProject : Project :=
  mkProject "House" None None Js.Undefined
            (Some "Seoul") None None None (Some "2024") None None None
            (Some [ mkCustomField None (Some "CLIENT") (Some "Private") ])
            None None None.

(** C4, as stated, fails: the custom field CLIENT is rendered before YEAR,
    not after it. *)
Lemma meta_custom_before_year :
  metaLabels clientProject = [ "LOCATION"; "CLIENT"; "YEAR" ]
  /\ specMetaLabels clientProject = [ "LOCATION"; "YEAR"; "CLIENT" ]
  /\ metaLabels clientProject <> specMetaLabels clientProject.
Proof.
  split; [reflexivity |]. split; [reflexivity |].
  vm_compute. discriminate.
Qed.

(** The order of the specification is that of the older snapshot, for
    records whose custom fields all carry a label. *)
Lemma snapshot_meta_order (project : Project) :
  (forall fields field,
      custom_fields project = Some fields -> In field fields ->
      Js.truthy (cf_label field) = true) ->
  map meta_label (snapshotMetaItems project) = specMetaLabels project.
Proof.
  intros Hlabels. unfold snapshotMetaItems, specMetaLabels.
  rewrite !map_app. rewrite <- !app_assoc. do 7 f_equal.
  destruct (custom_fields project) as [fields |]; [| reflexivity].
  rewrite map_map. cbn [meta_label]. f_equal.
  apply filter_ext_in. intros field Hin.
  rewrite (Hlabels fields field eq_refl Hin). reflexivity.
Qed.

Definition mapKeys {V : Type} (m : JsMap V) : list string := map fst m.

Lemma includes_In (k : string) (l : list string) :
  includes k l = true <-> In k l.
Proof.
  unfold includes. rewrite existsb_exists. split.
  - intros (x & Hx & He). apply String.eqb_eq in He. subst. exact Hx.
  - intros H. exists k. split; [exact H | apply String.eqb_refl].
Qed.

Lemma includes_false (k : string) (l : list string) :
  ~ In k l -> includes k l = false.
Proof.
  intros H. destruct (includes k l) eqn:E; [| reflexivity].
  apply includes_In in E. contradiction.
Qed.

Lemma mapSet_fresh {V : Type} (k : string) (v : V) (m : JsMap V) :
  ~ In k (mapKeys m) -> mapSet k v m = m ++ [(k, v)].
Proof.
  induction m as [| [k' v'] m IH]; intros H; [reflexivity |].
  cbn in H |- *. destruct (String.eqb_spec k' k) as [-> | Hne].
  - exfalso. apply H. left. reflexivity.
  - rewrite IH; [reflexivity |]. intros Hin. apply H. right. exact Hin.
Qed.

Lemma mapOfEntries_fresh {V : Type} (entries acc : list (string * V)) :
  NoDup (mapKeys (acc ++ entries)) ->
  fold_left (fun m e => mapSet (fst e) (snd e) m) entries acc = acc ++ entries.
Proof.
  revert acc. induction entries as [| [k v] entries IH]; intros acc Hnd.
  - cbn. rewrite app_nil_r. reflexivity.
  - cbn [fold_left fst snd].
    assert (Hk : ~ In k (mapKeys acc)).
    { unfold mapKeys in *. rewrite map_app in Hnd. cbn in Hnd.
      apply NoDup_remove_2 in Hnd. intros Hin. apply Hnd.
      apply in_or_app. left. exact Hin. }
    rewrite mapSet_fresh by exact Hk.
    rewrite IH; rewrite <- app_assoc; [reflexivity | exact Hnd].
Qed.

Lemma mapGet_NoDup {V : Type} (m : JsMap V) (k : string) (v : V) :
  NoDup (mapKeys m) -> In (k, v) m -> mapGet k m = Some v.
Proof.
  induction m as [| [k' v'] m IH]; intros Hnd Hin; [destruct Hin |].
  cbn in *. inversion Hnd as [| ? ? Hnotin Hnd']; subst.
  destruct Hin as [[= -> ->] | Hin].
  - rewrite String.eqb_refl. reflexivity.
  - destruct (String.eqb_spec k' k) as [-> | Hne]; [| apply IH; assumption].
    exfalso. apply Hnotin. unfold mapKeys.
    change k with (fst (k, v)). apply in_map. exact Hin.
Qed.

Lemma fold_pushIfNew_fresh {A : Type} (key : A -> string) (l : list A)
    (acc : list string) :
  NoDup (acc ++ map key l) ->
  fold_left (fun acc x => pushIfNew (key x) acc) l acc = acc ++ map key l.
Proof.
  revert acc. induction l as [| x l IH]; intros acc Hnd.
  - cbn. rewrite app_nil_r. reflexivity.
  - cbn [fold_left map]. unfold pushIfNew at 2.
    rewrite includes_false.
    + rewrite IH; rewrite <- app_assoc; [reflexivity | exact Hnd].
    + cbn in Hnd. apply NoDup_remove_2 in Hnd. intros Hin. apply Hnd.
      apply in_or_app. left. exact Hin.
Qed.

(** Every custom token begins with [custom:]. *)
Definition isCustomToken (k : string) : Prop :=
  exists rest, k = ("custom:" ++ rest)%string.

Lemma mapiFrom_tokens (fields : list CustomField) (i : nat) :
  Forall isCustomToken (map mf_token (mapiFrom toMetaField fields i)).
Proof.
  revert i. induction fields as [| f fields IH]; intros i; [constructor |].
  cbn [mapiFrom map]. constructor; [| apply IH].
  unfold toMetaField. cbn [mf_token]. eexists. reflexivity.
Qed.

Lemma customMetaFields_tokens (project : Project) :
  Forall isCustomToken (map mf_token (customMetaFields project)).
Proof.
  unfold customMetaFields, declaredMetaFields.
  assert (Hd : Forall isCustomToken
                 (map mf_token
                    match custom_fields project with
                    | Some fields => mapiFrom toMetaField (filter keepCustomField fields) 0
                    | None => []
                    end)).
  { destruct (custom_fields project); [apply mapiFrom_tokens | constructor]. }
  destruct (addsTeamField project); [| exact Hd].
  rewrite map_app. apply Forall_app. split; [exact Hd |].
  constructor; [| constructor]. exists "legacy-team". reflexivity.
Qed.

Lemma customToken_not_base (k : string) :
  isCustomToken k -> mapGet k baseMetaFieldMap = None /\ ~ In k (map fst baseMetaFields).
Proof.
  intros (rest & ->). split; [reflexivity |].
  cbn. intros [H | [H | [H | [H | []]]]]; discriminate.
Qed.

(** The values [customMetaFields] carries are not empty. *)
Lemma mapiFrom_values (fields : list CustomField) (i : nat) :
  Forall (fun f => keepCustomField f = true) fields ->
  Forall (fun field => Js.isEmpty (mf_value field) = false)
         (mapiFrom toMetaField fields i).
Proof.
  revert i. induction fields as [| f fields IH]; intros i H; [constructor |].
  inversion H as [| ? ? Hf Hrest]; subst.
  cbn [mapiFrom]. constructor; [| apply IH; exact Hrest].
  unfold toMetaField. cbn [mf_value].
  unfold keepCustomField in Hf.
  destruct (Js.truthy (cf_label f)); [| discriminate].
  destruct (cf_value f) as [[| c v] |]; cbn in *; try discriminate.
  reflexivity.
Qed.

Lemma filter_Forall {A : Type} (f : A -> bool) (l : list A) :
  Forall (fun x => f x = true) (filter f l).
Proof.
  apply Forall_forall. intros x Hx. apply filter_In in Hx. apply Hx.
Qed.

Lemma customMetaFields_values (project : Project) :
  Forall (fun field => Js.isEmpty (mf_value field) = false)
         (customMetaFields project).
Proof.
  unfold customMetaFields.
  assert (Hd : Forall (fun field => Js.isEmpty (mf_value field) = false)
                      (declaredMetaFields project)).
  { unfold declaredMetaFields. destruct (custom_fields project); [| constructor].
    apply mapiFrom_values, filter_Forall. }
  destruct (addsTeamField project) eqn:Et; [| exact Hd].
  apply Forall_app. split; [exact Hd |]. constructor; [| constructor].
  unfold addsTeamField in Et. apply andb_prop in Et. destruct Et as [Et _].
  destruct (team project) as [[| c v] |]; cbn in *; try discriminate.
  reflexivity.
Qed.

(** With distinct tokens the map holds the entries of [customMetaFields],
    one for one. *)
Lemma customMetaFieldMap_entries (project : Project) :
  NoDup (map mf_token (customMetaFields project)) ->
  customMetaFieldMap project
  = map (fun field => (mf_token field, field)) (customMetaFields project).
Proof.
  intros Hnd. unfold customMetaFieldMap, customMetaFields, mapOfEntries in *.
  assert (Hkeys : forall l : list MetaField,
            mapKeys (map (fun field => (mf_token field, field)) l)
            = map mf_token l).
  { intros l. unfold mapKeys. rewrite map_map. reflexivity. }
  destruct (addsTeamField project).
  - rewrite map_app in Hnd. cbn in Hnd.
    rewrite mapOfEntries_fresh;
      [| cbn [app]; rewrite Hkeys; apply NoDup_app_remove_r in Hnd; exact Hnd].
    cbn [app]. rewrite mapSet_fresh; [rewrite map_app; reflexivity |].
    rewrite Hkeys. apply NoDup_remove_2 in Hnd. rewrite app_nil_r in Hnd.
    exact Hnd.
  - rewrite mapOfEntries_fresh; [reflexivity |].
    cbn [app]. rewrite Hkeys. exact Hnd.
Qed.

(** The item a custom field is rendered as. *)
Definition itemOf (field : MetaField) : MetaItem :=
  mkMetaItem (mf_label field) (mf_value field).

Lemma orderedMetaKeys_default (project : Project) :
  meta_field_order project = None ->
  NoDup (map mf_token (customMetaFields project)) ->
  orderedMetaKeys project
  = map fst baseMetaFields ++ map mf_token (customMetaFields project).
Proof.
  intros Horder Hnd. unfold orderedMetaKeys. rewrite Horder.
  change (fold_left (fun acc field => pushIfNew (fst field) acc) baseMetaFields [])
    with (map fst baseMetaFields).
  apply fold_pushIfNew_fresh.
  apply NoDup_app; [| exact Hnd |].
  - cbn. repeat constructor; cbn; intuition discriminate.
  - intros k Hbase Htok.
    pose proof (customMetaFields_tokens project) as Hall.
    rewrite Forall_forall in Hall. apply Hall in Htok.
    apply customToken_not_base in Htok. apply Htok. exact Hbase.
Qed.

Lemma renderMetaKey_base (project : Project) :
  flat_map (renderMetaKey project) (map fst baseMetaFields)
  = renderTrailing "LOCATION" (location project)
    ++ renderTrailing "DURATION" (duration project)
    ++ renderTrailing "PROGRAM" (program project)
    ++ renderTrailing "STUDIO" (studio project).
Proof.
  cbn [flat_map map fst baseMetaFields]. rewrite app_nil_r. reflexivity.
Qed.

Lemma renderMetaKey_custom (project : Project) (l : list MetaField) :
  NoDup (map mf_token (customMetaFields project)) ->
  (forall field, In field l -> In field (customMetaFields project)) ->
  flat_map (renderMetaKey project) (map mf_token l) = map itemOf l.
Proof.
  intros Hnd. induction l as [| f l IH]; intros Hsub; [reflexivity |].
  cbn [map flat_map]. rewrite IH by (intros g Hg; apply Hsub; right; exact Hg).
  assert (Hin : In f (customMetaFields project)) by (apply Hsub; left; reflexivity).
  unfold renderMetaKey at 1.
  pose proof (customMetaFields_tokens project) as Htok.
  rewrite Forall_forall in Htok.
  destruct (customToken_not_base (mf_token f)) as [-> _];
    [apply Htok, in_map, Hin |].
  rewrite (mapGet_NoDup _ (mf_token f) f).
  - pose proof (customMetaFields_values project) as Hval.
    rewrite Forall_forall in Hval. rewrite (Hval f Hin). reflexivity.
  - rewrite customMetaFieldMap_entries by exact Hnd.
    unfold mapKeys. rewrite map_map. exact Hnd.
  - rewrite customMetaFieldMap_entries by exact Hnd.
    apply (in_map (fun field => (mf_token field, field))). exact Hin.
Qed.

Lemma mapiFrom_labels (fields : list CustomField) (i : nat) :
  map itemOf (mapiFrom toMetaField fields i)
  = map (fun field => mkMetaItem (Js.orEmpty (cf_label field))
                                 (Js.orEmpty (cf_value field))) fields.
Proof.
  revert i. induction fields as [| f fields IH]; intros i; [reflexivity |].
  cbn [mapiFrom map]. rewrite IH. reflexivity.
Qed.

Lemma renderTrailing_values (label : string) (value : option string) :
  Forall (fun item => meta_value item <> EmptyString) (renderTrailing label value).
Proof.
  unfold renderTrailing. destruct value as [[| c v] |]; cbn; repeat constructor.
  cbn. discriminate.
Qed.

(** The declared custom fields the view renders: those with a label and a
    value whose label is not one of the four reserved ones. *)
Definition renderedCustomFields (project : Project) : list CustomField :=
  match custom_fields project with
  | Some fields => filter keepCustomField fields
  | None => []
  end.

(** C4, amended: for every project record without a [meta_field_order] and
    whose custom fields have distinct ids, the meta items are rendered in
    the order LOCATION, DURATION, PROGRAM, STUDIO, then the custom
    label/value fields in the order declared (followed by the legacy TEAM
    entry when the record has a team and no custom field of that label),
    then YEAR, MEDIUM, SERIES; no rendered item has an empty value, a field
    whose value is empty or absent being left out. *)
Theorem meta_fields_order (project : Project)
    (Horder : meta_field_order project = None)
    (Hids : NoDup (map mf_token (customMetaFields project))) :
  metaItems project
  = renderTrailing "LOCATION" (location project)
    ++ renderTrailing "DURATION" (duration project)
    ++ renderTrailing "PROGRAM" (program project)
    ++ renderTrailing "STUDIO" (studio project)
    ++ map (fun field => mkMetaItem (Js.orEmpty (cf_label field))
                                    (Js.orEmpty (cf_value field)))
           (renderedCustomFields project)
    ++ (if addsTeamField project
        then [ mkMetaItem "TEAM" (Js.orEmpty (team project)) ] else [])
    ++ renderTrailing "YEAR" (year project)
    ++ renderTrailing "MEDIUM" (medium project)
    ++ renderTrailing "SERIES" (series project)
  /\ Forall (fun item => meta_value item <> EmptyString) (metaItems project).
Proof.
  assert (Hitems : metaItems project
                   = flat_map (renderMetaKey project) (map fst baseMetaFields)
                     ++ map itemOf (customMetaFields project)
                     ++ renderTrailing "YEAR" (year project)
                     ++ renderTrailing "MEDIUM" (medium project)
                     ++ renderTrailing "SERIES" (series project)).
  { unfold metaItems. rewrite orderedMetaKeys_default by assumption.
    rewrite flat_map_app, renderMetaKey_custom by auto.
    rewrite <- app_assoc. reflexivity. }
  split.
  - assert (Hc : map itemOf (customMetaFields project)
                 = map (fun field => mkMetaItem (Js.orEmpty (cf_label field))
                                                (Js.orEmpty (cf_value field)))
                       (renderedCustomFields project)
                   ++ (if addsTeamField project
                       then [ mkMetaItem "TEAM" (Js.orEmpty (team project)) ]
                       else [])).
    { unfold customMetaFields, declaredMetaFields, renderedCustomFields.
      destruct (addsTeamField project); rewrite ?map_app, ?app_nil_r;
        destruct (custom_fields project); cbn [map app];
        rewrite ?mapiFrom_labels; reflexivity. }
    rewrite Hitems, renderMetaKey_base, Hc. rewrite <- !app_assoc. reflexivity.
  - rewrite Hitems, renderMetaKey_base.
    repeat (apply Forall_app; split); try apply renderTrailing_values.
    apply Forall_forall. intros item Hitem. apply in_map_iff in Hitem.
    destruct Hitem as (f & <- & Hf).
    pose proof (customMetaFields_values project) as Hval.
    rewrite Forall_forall in Hval. apply Hval in Hf. cbn.
    destruct (mf_value f); [discriminate | discriminate].
Qed.

(** A record with every kind of meta field, some of them empty. *)
Definition fullProject : Project :=
  mkProject "Pavilion" (Some "pavilion") None (Js.Num 3)
            (Some "Seoul") None (Some "") (Some "Studio 4")
            (Some "2024") None (Some "Field works") (Some "Two people")
            (Some [ mkCustomField None (Some "CLIENT") (Some "Private");
                    mkCustomField (Some "area") (Some "Area") (Some "120 m2");
                    mkCustomField None (Some "Budget") None;
                    mkCustomField None (Some " location ") (Some "Busan") ])
            None None None.

Lemma meta_fields_order_witness :
  meta_field_order fullProject = None
  /\ NoDup (map mf_token (customMetaFields fullProject))
  /\ metaLabels fullProject
     = [ "LOCATION"; "STUDIO"; "CLIENT"; "Area"; "TEAM"; "YEAR"; "SERIES" ].
Proof.
  assert (Horder : meta_field_order fullProject = None) by reflexivity.
  assert (Hids : NoDup (map mf_token (customMetaFields fullProject))).
  { vm_compute.
    repeat (apply NoDup_cons; [cbn; intuition discriminate |]). apply NoDup_nil. }
  split; [exact Horder |]. split; [exact Hids |].
  unfold metaLabels.
  rewrite (proj1 (meta_fields_order fullProject Horder Hids)). reflexivity.
Defined.

(** ** Claims about the embedded payload *)

Lemma escapeNewlines_cons (c : ascii) (t : string) :
  escapeNewlines (String c t) =
  match matchHere (String c t) with
  | Some (m, rest) => (String c (repairMatch m) ++ escapeNewlines rest)%string
  | None => String c (escapeNewlines t)
  end.
Proof.
  simp escapeNewlines.
  destruct (inspect (matchHere (String c t))) as [[[m rest] |] e];
    simp escapeNewlines; rewrite e; reflexivity.
Qed.

Lemma tokenize_cons (lenient : bool) (c : ascii) (t : string) :
  tokenize lenient (String c t) =
  if Ascii.eqb c quote then
    match scanString lenient t with
    | Some (v, rest) => option_map (cons (TString v)) (tokenize lenient rest)
    | None => None
    end
  else option_map (cons (TChar c)) (tokenize lenient t).
Proof.
  simp tokenize. destruct (Ascii.eqb c quote) eqn:E; simp tokenize; [| reflexivity].
  destruct (inspect (scanHere lenient (String c t))) as [[[v rest] |] e];
    simp tokenize; cbn [scanHere] in e; rewrite E in e; rewrite e; reflexivity.
Qed.

(** The replacer, one character at a time. *)
Lemma repairMatch_cons (c : ascii) (m : string) :
  repairMatch (String c m) =
  if Ascii.eqb c lineFeed then String backslash (String "n"%char (repairMatch m))
  else if Ascii.eqb c carriageReturn then repairMatch m
  else String c (repairMatch m).
Proof.
  unfold repairMatch. cbn [escapeLineFeeds].
  destruct (Ascii.eqb c lineFeed); [reflexivity |].
  cbn [dropCarriageReturns]. reflexivity.
Qed.

Lemma repairMatch_keeps (c : ascii) (m : string) :
  isLineTerminator c = false -> repairMatch (String c m) = String c (repairMatch m).
Proof.
  unfold isLineTerminator. intros H. apply orb_false_elim in H.
  destruct H as [H1 H2]. rewrite repairMatch_cons, H1, H2. reflexivity.
Qed.

Lemma printable_not_terminator (c : ascii) :
  (Js.code c <? 32) = false -> isLineTerminator c = false.
Proof.
  intros H. unfold isLineTerminator.
  destruct (Ascii.eqb_spec c lineFeed) as [-> | _]; [discriminate H |].
  destruct (Ascii.eqb_spec c carriageReturn) as [-> | _]; [discriminate H |].
  reflexivity.
Qed.

Lemma escapeValue_not_terminator (d : ascii) (n : N) :
  escapeValue d = Some n -> isLineTerminator d = false.
Proof.
  intros H. unfold isLineTerminator.
  destruct (Ascii.eqb_spec d lineFeed) as [-> | _]; [discriminate H |].
  destruct (Ascii.eqb_spec d carriageReturn) as [-> | _]; [discriminate H |].
  reflexivity.
Qed.

(** A hexadecimal digit is an ordinary character of a string body. *)
Lemma hexDigit_plain (h : ascii) (x : N) :
  hexDigit h = Some x ->
  Ascii.eqb h quote = false
  /\ Ascii.eqb h backslash = false
  /\ isLineTerminator h = false.
Proof.
  intros H.
  destruct (Ascii.eqb_spec h quote) as [-> | _]; [discriminate H |].
  destruct (Ascii.eqb_spec h backslash) as [-> | _]; [discriminate H |].
  unfold isLineTerminator.
  destruct (Ascii.eqb_spec h lineFeed) as [-> | _]; [discriminate H |].
  destruct (Ascii.eqb_spec h carriageReturn) as [-> | _]; [discriminate H |].
  auto.
Qed.

Lemma hex4_digits (a b c d : ascii) (n : N) :
  hex4 a b c d = Some n ->
  exists x y z w,
    hexDigit a = Some x /\ hexDigit b = Some y
    /\ hexDigit c = Some z /\ hexDigit d = Some w.
Proof.
  unfold hex4.
  destruct (hexDigit a), (hexDigit b), (hexDigit c), (hexDigit d);
    try discriminate.
  intros _. eauto 10.
Qed.

Lemma matchQuoted_plain (c : ascii) (t : string) :
  Ascii.eqb c quote = false -> Ascii.eqb c backslash = false ->
  matchQuoted (String c t) =
  match matchQuoted t with
  | Some (m, rest) => Some (String c m, rest)
  | None => None
  end.
Proof. intros H1 H2. cbn [matchQuoted]. rewrite H1, H2. reflexivity. Qed.

(** A string token the lenient reading accepts is matched by the pattern,
    up to the same closing quote, and the replacer turns the match into a
    token that JSON reads with the same value. *)
Lemma scanString_repaired (t : string) (v : list N) (rest : string) :
  scanString true t = Some (v, rest) ->
  exists m,
    matchQuoted t = Some (m, rest)
    /\ forall r, scanString false (repairMatch m ++ r)%string = Some (v, r).
Proof.
  revert v rest.
  induction t as [t IH] using
    (well_founded_induction (well_founded_ltof _ String.length)).
  assert (IHc : forall n t' v rest,
             String.length t' < String.length t ->
             consValue n (scanString true t') = Some (v, rest) ->
             exists m v',
               v = n :: v'
               /\ matchQuoted t' = Some (m, rest)
               /\ forall r, scanString false (repairMatch m ++ r)%string = Some (v', r)).
  { intros n t' v rest Hlt H.
    destruct (scanString true t') as [[v' r'] |] eqn:E; [| discriminate].
    cbn in H. injection H as <- <-.
    destruct (IH t' Hlt v' r' E) as (m & Hm & Hr). exists m, v'. auto. }
  intros v rest. destruct t as [| c t]; cbn [scanString]; [discriminate |].
  destruct (Ascii.eqb c quote) eqn:Eq.
  - intros [= <- <-]. exists (String c EmptyString). cbn [matchQuoted].
    rewrite Eq. split; [reflexivity |]. intros r.
    apply Ascii.eqb_eq in Eq. subst c. reflexivity.
  - destruct (Ascii.eqb c backslash) eqn:Eb.
    + destruct t as [| d t']; [discriminate |].
      assert (Hc : isLineTerminator c = false)
        by (apply Ascii.eqb_eq in Eb; subst c; reflexivity).
      destruct (Ascii.eqb d "u"%char) eqn:Eu.
      * destruct t' as [| h1 [| h2 [| h3 [| h4 t'']]]]; try discriminate.
        destruct (hex4 h1 h2 h3 h4) as [n |] eqn:Eh; [| discriminate].
        intros H. apply IHc in H; [| cbn; lia].
        destruct H as (m & v' & -> & Hm & Hr).
        destruct (hex4_digits _ _ _ _ _ Eh) as (x & y & z & w & H1 & H2 & H3 & H4).
        apply hexDigit_plain in H1, H2, H3, H4.
        destruct H1 as (Q1 & B1 & L1), H2 as (Q2 & B2 & L2),
                 H3 as (Q3 & B3 & L3), H4 as (Q4 & B4 & L4).
        assert (Hd : isLineTerminator d = false)
          by (apply Ascii.eqb_eq in Eu; subst d; reflexivity).
        exists (String c (String d (String h1 (String h2 (String h3 (String h4 m)))))).
        split.
        { cbn [matchQuoted].
          rewrite Eq, Eb, Hd, Q1, B1, Q2, B2, Q3, B3, Q4, B4, Hm. reflexivity. }
        intros r. rewrite !repairMatch_keeps by assumption.
        cbn [append scanString]. rewrite Eq, Eb, Eu, Eh, Hr. reflexivity.
      * destruct (escapeValue d) as [n |] eqn:Ev; [| discriminate].
        intros H. apply IHc in H; [| cbn; lia].
        destruct H as (m & v' & -> & Hm & Hr).
        pose proof (escapeValue_not_terminator d n Ev) as Hd.
        exists (String c (String d m)). split.
        { cbn [matchQuoted]. rewrite Eq, Eb, Hd, Hm. reflexivity. }
        intros r. rewrite !repairMatch_keeps by assumption.
        cbn [append scanString]. rewrite Eq, Eb, Eu, Ev, Hr. reflexivity.
    + destruct (Js.code c <? 32) eqn:Ec.
      * destruct (Ascii.eqb c lineFeed) eqn:El.
        -- intros H. apply IHc in H; [| cbn; lia].
           destruct H as (m & v' & -> & Hm & Hr).
           exists (String c m). split.
           { rewrite matchQuoted_plain, Hm by assumption. reflexivity. }
           intros r. rewrite repairMatch_cons, El.
           cbn [append]. cbn. rewrite Hr. reflexivity.
        -- destruct (Ascii.eqb c carriageReturn) eqn:Er; [| discriminate].
           intros H. apply IH in H; [| unfold ltof; cbn; lia].
           destruct H as (m & Hm & Hr).
           exists (String c m). split.
           { rewrite matchQuoted_plain, Hm by assumption. reflexivity. }
           intros r. rewrite repairMatch_cons, El, Er. apply Hr.
      * intros H. apply IHc in H; [| cbn; lia].
        destruct H as (m & v' & -> & Hm & Hr).
        exists (String c m). split.
        { rewrite matchQuoted_plain, Hm by assumption. reflexivity. }
        intros r.
        rewrite repairMatch_keeps by (apply printable_not_terminator; exact Ec).
        cbn [append scanString]. rewrite Eq, Eb, Ec, Hr. reflexivity.
Qed.

(** The text handed to [JSON.parse] has the tokens of the lenient reading
    of the payload. *)
Lemma tokenize_escapeNewlines (text : string) (tokens : list Token) :
  tokenize true text = Some tokens ->
  tokenize false (escapeNewlines text) = Some tokens.
Proof.
  revert tokens.
  induction text as [text IH] using
    (well_founded_induction (well_founded_ltof _ String.length)).
  intros tokens. destruct text as [| c t].
  - simp tokenize escapeNewlines; auto.
  - rewrite tokenize_cons, escapeNewlines_cons. cbn [matchHere].
    destruct (Ascii.eqb c quote) eqn:Eq.
    + destruct (scanString true t) as [[v rest] |] eqn:Es; [| discriminate].
      destruct (scanString_repaired t v rest Es) as (m & Hm & Hr).
      rewrite Hm. intros H.
      destruct (tokenize true rest) as [tokens' |] eqn:Et; [| discriminate].
      cbn in H. injection H as <-.
      cbn [append]. rewrite tokenize_cons, Eq, Hr.
      rewrite (IH rest) with (tokens := tokens'); [reflexivity | | exact Et].
      unfold ltof. apply matchQuoted_shorter in Hm. cbn. lia.
    + intros H.
      destruct (tokenize true t) as [tokens' |] eqn:Et; [| discriminate].
      cbn in H. injection H as <-.
      rewrite tokenize_cons, Eq.
      rewrite (IH t) with (tokens := tokens'); [reflexivity | | exact Et].
      unfold ltof. cbn. lia.
Qed.

(** What JSON reads as a string token, the lenient reading reads alike. *)
Lemma scanString_strict_lenient (t : string) (v : list N) (rest : string) :
  scanString false t = Some (v, rest) -> scanString true t = Some (v, rest).
Proof.
  revert v rest.
  induction t as [t IH] using
    (well_founded_induction (well_founded_ltof _ String.length)).
  assert (IHc : forall n t' v rest,
             String.length t' < String.length t ->
             consValue n (scanString false t') = Some (v, rest) ->
             consValue n (scanString true t') = Some (v, rest)).
  { intros n t' v rest Hlt H.
    destruct (scanString false t') as [[v' r'] |] eqn:E; [| discriminate].
    rewrite (IH t' Hlt v' r' E). exact H. }
  intros v rest. destruct t as [| c t]; cbn [scanString]; [discriminate |].
  destruct (Ascii.eqb c quote); [auto |].
  destruct (Ascii.eqb c backslash).
  - destruct t as [| d t']; [discriminate |].
    destruct (Ascii.eqb d "u"%char).
    + destruct t' as [| h1 [| h2 [| h3 [| h4 t'']]]]; try discriminate.
      destruct (hex4 h1 h2 h3 h4); [| discriminate].
      apply IHc. cbn. lia.
    + destruct (escapeValue d); [| discriminate]. apply IHc. cbn. lia.
  - destruct (Js.code c <? 32); [discriminate |]. apply IHc. cbn. lia.
Qed.

Lemma tokenize_strict_lenient (text : string) (tokens : list Token) :
  tokenize false text = Some tokens -> tokenize true text = Some tokens.
Proof.
  revert tokens.
  induction text as [text IH] using
    (well_founded_induction (well_founded_ltof _ String.length)).
  intros tokens. destruct text as [| c t]; [simp tokenize; auto |].
  rewrite !tokenize_cons. destruct (Ascii.eqb c quote).
  - destruct (scanString false t) as [[v rest] |] eqn:Es; [| discriminate].
    rewrite (scanString_strict_lenient t v rest Es). intros H.
    destruct (tokenize false rest) as [tokens' |] eqn:Et; [| discriminate].
    rewrite (IH rest) with (tokens := tokens'); [exact H | | exact Et].
    unfold ltof. apply scanString_shorter in Es. cbn. lia.
  - intros H.
    destruct (tokenize false t) as [tokens' |] eqn:Et; [| discriminate].
    rewrite (IH t) with (tokens := tokens'); [exact H | | exact Et].
    unfold ltof. cbn. lia.
Qed.

(** C6: a payload that is well-formed when the raw newlines inside its
    strings are read as they stand (a raw line feed for itself, a raw
    carriage return skipped: the lenient reading, which reads every
    well-formed JSON text as [JSON.parse] does) is parsed by [init]: the
    text handed to [JSON.parse] has exactly the tokens of that reading, so
    the parse succeeds with the records of that reading, whose string
    values hold a line-feed character where the payload has a raw one, and
    [projectsData] is set to them. *)
Theorem raw_newlines_parse (parseTokens : list Token -> option (list Project))
    (text : string) (records : list Project)
    (Hlenient : lenientParse parseTokens text = Some records) :
  tokenize false (escapeNewlines text) = tokenize true text
  /\ JSON_parse parseTokens (escapeNewlines text) = Some records
  /\ parseProjectsData parseTokens (Some text) = records
  /\ (forall t, scanString true (String lineFeed t)
                = consValue 10%N (scanString true t))
  /\ (forall t, scanString true (String carriageReturn t) = scanString true t)
  /\ (forall t r, JSON_parse parseTokens t = Some r ->
                  lenientParse parseTokens t = Some r).
Proof.
  unfold lenientParse in Hlenient.
  destruct (tokenize true text) as [tokens |] eqn:Et; [| discriminate].
  pose proof (tokenize_escapeNewlines text tokens Et) as He.
  assert (Hj : JSON_parse parseTokens (escapeNewlines text) = Some records)
    by (unfold JSON_parse; rewrite He; exact Hlenient).
  split; [exact He |]. split; [exact Hj |].
  split; [unfold parseProjectsData; rewrite Hj; reflexivity |].
  split; [reflexivity |]. split; [reflexivity |].
  intros t r. unfold JSON_parse, lenientParse.
  destruct (tokenize false t) as [toks |] eqn:E; [| discriminate].
  rewrite (tokenize_strict_lenient t toks E). auto.
Qed.

(** A stand-in for the grammar of [JSON.parse], for the example below: the
    string tokens, each taken as the title of a record. *)
Definition titleOfCodes (v : list N) : string :=
  string_of_list_ascii (map ascii_of_N v).

Definition titlesOnly (tokens : list Token) : option (list Project) :=
  Some (flat_map (fun token =>
                    match token with
                    | TString v => [ bareProject (titleOfCodes v) ]
                    | TChar _ => []
                    end) tokens).

(** The payload [["Soft], raw carriage return, raw line feed,
    [Concrete"]]. *)
Definition rawNewlinePayload : string :=
  String "["%char
    (String quote
       ("Soft" ++ String carriageReturn (String lineFeed
          ("Concrete" ++ String quote "]"))))%string.

Lemma raw_newlines_parse_witness :
  lenientParse titlesOnly rawNewlinePayload
  = Some [ bareProject ("Soft" ++ String lineFeed "Concrete") ]
  /\ parseProjectsData titlesOnly (Some rawNewlinePayload)
     = [ bareProject ("Soft" ++ String lineFeed "Concrete") ]
  /\ JSON_parse titlesOnly rawNewlinePayload = None.
Proof.
  assert (Hlenient : lenientParse titlesOnly rawNewlinePayload
                     = Some [ bareProject ("Soft" ++ String lineFeed "Concrete") ])
    by reflexivity.
  split; [exact Hlenient |].
  split; [| reflexivity].
  exact (proj1 (proj2 (proj2 (raw_newlines_parse titlesOnly rawNewlinePayload
                                _ Hlenient)))).
Defined.

(* ================================================================== *)
(** * Further properties *)
(* ================================================================== *)

(** ** An induction principle for the reachable states *)

(** What it takes for a property of the state to hold wherever the page can
    get: it holds of the initial state and is kept by each of the
    operations the listeners are made of. *)
Record KeptBy (pg : Page) (J : State -> Prop) : Prop := mkKeptBy {
  kept_init : forall focused, J (initialState focused);
  kept_requestFrame : forall s callback, J s -> J (requestAnimationFrame callback s);
  kept_clear : forall s, J s -> J (clearArmedGridItem pg s);
  kept_arm : forall s index, J s -> J (armGridItem pg index s);
  kept_open : forall s index, Inv pg s -> J s -> J (stateOf (openProject pg index s));
  kept_close : forall s, Inv pg s -> J s -> J (stateOf (closeOverlay pg s));
  kept_prev : forall s, Inv pg s -> J s -> J (stateOf (goToPrevProject pg s));
  kept_next : forall s, Inv pg s -> J s -> J (stateOf (goToNextProject pg s));
  kept_lang : forall s lang,
      J s -> J (set_detail s (option_map (clickLangButton lang) (detail s)));
  kept_focus : forall s target, J s -> J (set_activeElement s target);
  kept_preload : forall s index, J s -> J (preloadHero pg index s);
  kept_clearTimeout : forall s id, J s -> J (clearTimeout id s);
  kept_frames : forall s, J s -> J (set_frames s [])
}.

Section ReachableInduction.

Variable pg : Page.
Variable J : State -> Prop.
Hypothesis HJ : KeptBy pg J.

(** The invariant of the arming variables together with [J]. *)
Definition Both (s : State) : Prop := Inv pg s /\ J s.

Lemma Both_clear (s : State) : Both s -> Both (clearArmedGridItem pg s).
Proof.
  intros [HI Hj]. split; [apply clearArmedGridItem_Inv, HI |].
  apply (kept_clear pg J HJ); assumption.
Qed.

Lemma Both_open (s : State) (i : Z) : Both s -> Both (stateOf (openProject pg i s)).
Proof.
  intros [HI Hj]. split; [apply openProject_Inv, HI |].
  apply (kept_open pg J HJ); assumption.
Qed.

Lemma Both_close (s : State) : Both s -> Both (stateOf (closeOverlay pg s)).
Proof.
  intros [HI Hj]. split; [apply closeOverlay_Inv, HI |].
  apply (kept_close pg J HJ); assumption.
Qed.

Lemma Both_prev (s : State) : Both s -> Both (stateOf (goToPrevProject pg s)).
Proof.
  intros [HI Hj]. split; [apply goToPrevProject_Inv, HI |].
  apply (kept_prev pg J HJ); assumption.
Qed.

Lemma Both_next (s : State) : Both s -> Both (stateOf (goToNextProject pg s)).
Proof.
  intros [HI Hj]. split; [apply goToNextProject_Inv, HI |].
  apply (kept_next pg J HJ); assumption.
Qed.

Lemma Both_preloadHero (index : nat) (s : State) :
  Both s -> Both (preloadHero pg index s).
Proof.
  intros [HI Hj]. split; [apply preloadHero_Inv, HI |].
  apply (kept_preload pg J HJ), Hj.
Qed.

Lemma Both_takeFocus (e : Element) (s : State) : Both s -> Both (takeFocus pg e s).
Proof.
  intros HB. unfold takeFocus. destruct (hasFocus e s); [exact HB |].
  assert (HB1 : Both (set_activeElement s (Some e))).
  { destruct HB as [HI Hj]. split; [| apply (kept_focus pg J HJ), Hj].
    apply (armView_Inv pg s); [reflexivity | | exact HI].
    apply (inv_overlay pg s HI). }
  destruct e; cbn [focusListeners]; try exact HB1.
  apply Both_preloadHero, HB1.
Qed.

Lemma Both_focus (e : Element) (s : State) : Both s -> Both (focus pg e s).
Proof.
  intros HB. unfold focus. destruct (canTakeFocus e s); [| exact HB].
  apply Both_takeFocus, HB.
Qed.

Lemma Both_moveFocus (target : option Element) (s : State) :
  Both s -> Both (moveFocus pg target s).
Proof.
  intros HB. destruct target as [e |]; cbn [moveFocus];
    [apply Both_takeFocus, HB |].
  destruct HB as [HI Hj]. split; [| apply (kept_focus pg J HJ), Hj].
  apply (armView_Inv pg s); [reflexivity | | exact HI].
  apply (inv_overlay pg s HI).
Qed.

Lemma Both_handleKeyDown (key : Key) (s : State) :
  Both s -> Both (stateOf (handleKeyDown pg key s)).
Proof.
  intros HB. unfold handleKeyDown. destruct (negb (isOverlayOpen s)); [exact HB |].
  destruct key as [| | | | | | shiftKey focusableElements]; try exact HB.
  - apply Both_close, HB.
  - apply Both_prev, HB.
  - apply Both_next, HB.
  - cbn [stateOf]. unfold trapFocusOnTab.
    destruct (overlay pg); [| exact HB].
    destruct (trapFocus _ _ _ _); [apply Both_focus, HB | exact HB].
Qed.

Lemma Both_runCallback (callback : Callback) (s : State) :
  Both s -> Both (stateOf (runCallback pg callback s)).
Proof.
  intros HB. destruct callback; cbn [runCallback].
  - apply Both_clear, HB.
  - unfold withOverlay. destruct (overlay pg) as [ov |]; [| exact HB].
    cbn [stateOf]. destruct (has_close ov); [| exact HB].
    apply Both_focus, HB.
  - apply Both_open, HB.
Qed.

Lemma Both_runCallbacks (callbacks : list Callback) (s : State) :
  Both s -> Both (stateOf (runCallbacks pg callbacks s)).
Proof.
  revert s. induction callbacks as [| c rest IH]; intros s HB; [exact HB |].
  cbn [runCallbacks]. apply IH, Both_runCallback, HB.
Qed.

Lemma Both_fireTimer (id : positive) (s : State) :
  Both s -> Both (stateOf (fireTimer pg id s)).
Proof.
  intros [HI Hj]. split; [apply fireTimer_Inv, HI |].
  unfold fireTimer.
  destruct (find _ (timers s)) as [t |] eqn:F; [| exact Hj].
  apply find_timer_In in F. destruct F as [Hin <-].
  pose proof (kept_clearTimeout pg J HJ s (timer_id t) Hj) as Hj1.
  destruct (isArmTimer t) eqn:Ha.
  - assert (Ecb : timer_callback t = RunClearArmed)
      by (unfold isArmTimer in Ha; destruct (timer_callback t); congruence).
    rewrite Ecb. cbn [runCallback run stateOf].
    apply (kept_clear pg J HJ). exact Hj1.
  - apply (Both_runCallback (timer_callback t)).
    split; [apply clearTimeout_other_Inv; assumption | exact Hj1].
Qed.

Lemma Both_after_listener (s : State) :
  Both s -> Both (stateOf (run (clearArmedGridItem pg) s)).
Proof. intros HB. cbn. apply Both_clear, HB. Qed.

Lemma Both_step (s : State) (ev : Event) : Both s -> Both (step pg s ev).
Proof.
  intros HB. unfold step.
  destruct ev as [idx directOpen | idx key | | | | | | projectIndex | lang | key
                 | target | id | | index | index]; cbn [handle].
  - assert (Hopen : Both (stateOf ((run (clearArmedGridItem pg) ;;
                                    openProject pg (Z.of_nat idx)) s))).
    { unfold andThen, run. apply Both_open, Both_clear, HB. }
    destruct directOpen; [exact Hopen |].
    destruct (armedGridIndex s =? Z.of_nat idx)%Z; [exact Hopen |].
    cbn. destruct HB as [HI Hj].
    split; [apply armGridItem_Inv, HI | apply (kept_arm pg J HJ), Hj].
  - assert (Hopen : Both (stateOf ((run (clearArmedGridItem pg) ;;
                                    openProject pg (Z.of_nat idx) ;;
                                    handleKeyDown pg key) s))).
    { unfold andThen, run.
      destruct (openProject_returns pg (Z.of_nat idx) (clearArmedGridItem pg s))
        as (s' & Hs').
      pose proof (Both_open _ (Z.of_nat idx) (Both_clear s HB)) as H.
      rewrite Hs' in *. cbn in H. apply Both_handleKeyDown, H. }
    destruct key; try exact Hopen; apply Both_handleKeyDown, HB.
  - apply Both_after_listener, HB.
  - destruct (overlay pg) as [ov |]; [| apply Both_after_listener, HB].
    apply Both_after_listener.
    destruct (has_close ov); [apply Both_close, HB | exact HB].
  - destruct (overlay pg) as [ov |]; [| apply Both_after_listener, HB].
    apply Both_after_listener.
    destruct (has_backdrop ov); [apply Both_close, HB | exact HB].
  - destruct (overlay pg) as [ov |]; [| apply Both_after_listener, HB].
    apply Both_after_listener.
    destruct (has_prev ov); [apply Both_prev, HB | exact HB].
  - destruct (overlay pg) as [ov |]; [| apply Both_after_listener, HB].
    apply Both_after_listener.
    destruct (has_next ov); [apply Both_next, HB | exact HB].
  - apply Both_after_listener.
    destruct (projectIndex <? 0)%Z; [exact HB | apply Both_open, HB].
  - cbn. apply Both_clear. destruct HB as [HI Hj]. split.
    + apply (armView_Inv pg s); [reflexivity | | exact HI].
      apply (inv_overlay pg s HI).
    + apply (kept_lang pg J HJ), Hj.
  - apply Both_handleKeyDown, HB.
  - cbn [run stateOf]. apply Both_moveFocus, HB.
  - apply Both_fireTimer, HB.
  - unfold runFrame. apply Both_runCallbacks. destruct HB as [HI Hj]. split.
    + apply (armView_Inv pg s); [reflexivity | | exact HI].
      apply (inv_overlay pg s HI).
    + apply (kept_frames pg J HJ), Hj.
  - cbn [run stateOf]. apply Both_preloadHero, HB.
  - cbn [run stateOf].
    destruct (index <? 2); [apply Both_preloadHero, HB | exact HB].
Qed.

Lemma Both_pageLoaded (projectParam autopopup : option string)
    (focused : option Element) :
  Both (pageLoaded pg projectParam autopopup focused).
Proof.
  split; [apply pageLoaded_Inv |].
  unfold pageLoaded, openProjectFromQueryParam.
  pose proof (kept_init pg J HJ focused) as H0.
  destruct (overlay pg); [| exact H0].
  destruct (isNil _); [exact H0 |].
  destruct (negb (Js.truthy projectParam) && negb _); [exact H0 |].
  destruct (_ <? 0)%Z; [destruct (negb _); [exact H0 |] |];
    apply (kept_requestFrame pg J HJ), H0.
Qed.

(** Induction over the reachable states, operation by operation. *)
Lemma Reachable_kept (s : State) : Reachable pg s -> J s.
Proof.
  intros H. enough (Both s) as [_ Hj] by exact Hj.
  induction H as [projectParam autopopup focused | s ev _ IH].
  - apply Both_pageLoaded.
  - apply Both_step, IH.
Qed.

End ReachableInduction.

(** ** What the operations write *)

(** The part of the state that arming and timers leave alone. *)
Definition docView (s : State) :=
  (currentProjectIndex s, isOverlayOpen s, lastFocusedElement s,
   heroImagePreloadCache s, activeElement s, ariaHidden s, bodyOverlayOpen s,
   detail s, prevDisabled s, nextDisabled s, overlayScrollTop s, frames s).

Lemma clearArmedGridItem_docView (pg : Page) (s : State) :
  docView (clearArmedGridItem pg s) = docView s.
Proof.
  unfold clearArmedGridItem.
  destruct (armedGridResetTimer s); cbn;
    match goal with |- context [if ?b then _ else _] => destruct b end; cbn;
    try match goal with |- context [match ?o with Some _ => _ | None => _ end] =>
          destruct o end; reflexivity.
Qed.

Lemma armGridItem_docView (pg : Page) (index : nat) (s : State) :
  docView (armGridItem pg index s) = docView s.
Proof.
  unfold armGridItem. rewrite <- (clearArmedGridItem_docView pg s).
  destruct (gridItemAt pg (Z.of_nat index)); [| reflexivity].
  unfold addArmedClass. destruct (existsb _ _); reflexivity.
Qed.

(** The fields neither the preloader nor the renderer writes. *)
Definition plainView (s : State) :=
  (currentProjectIndex s, isOverlayOpen s, lastFocusedElement s,
   activeElement s, ariaHidden s, bodyOverlayOpen s, prevDisabled s,
   nextDisabled s, overlayScrollTop s, frames s).

Lemma preloadProjectHeroImage_plainView (pg : Page) (p : option Project) (s : State) :
  plainView (preloadProjectHeroImage pg p s) = plainView s
  /\ detail (preloadProjectHeroImage pg p s) = detail s.
Proof.
  unfold preloadProjectHeroImage.
  destruct (Js.isEmpty _); [split; reflexivity |].
  destruct (includes _ _); split; reflexivity.
Qed.

Lemma renderProjectDetail_plainView (pg : Page) (p : option Project) (s : State) :
  plainView (renderProjectDetail pg p s) = plainView s
  /\ heroImagePreloadCache (renderProjectDetail pg p s) = heroImagePreloadCache s.
Proof.
  unfold renderProjectDetail.
  destruct (overlay pg) as [ov |], p; try (split; reflexivity).
  destruct (has_detail ov); split; reflexivity.
Qed.

Lemma renderProjectDetail_detail (pg : Page) (ov : OverlayEl) (i : Z) (s s0 : State) :
  overlay pg = Some ov -> detail s = detail s0 ->
  detail (renderProjectDetail pg (at_ (projectsData pg) i) s)
  = detailAfterMove pg ov i s0.
Proof.
  intros Hov Hd. unfold renderProjectDetail, detailAfterMove. rewrite Hov.
  destruct (at_ (projectsData pg) i); [| exact Hd].
  destruct (has_detail ov); [reflexivity | exact Hd].
Qed.

(** The state [openProject] leaves once past its guard, field by field. *)
Lemma openProject_effect (pg : Page) (ov : OverlayEl) (index : Z) (s : State) :
  overlay pg = Some ov ->
  projectsData pg <> [] ->
  exists s',
    openProject pg index s = Returned s'
    /\ currentProjectIndex s' = index
    /\ isOverlayOpen s' = true
    /\ lastFocusedElement s' = activeElement s
    /\ activeElement s' = activeElement s
    /\ ariaHidden s' = false
    /\ bodyOverlayOpen s' = true
    /\ detail s' = detailAfterMove pg ov index s
    /\ prevDisabled s' = (if has_prev ov then (index =? 0)%Z else prevDisabled s)
    /\ nextDisabled s' = (if has_next ov
                          then (index =? projectCount pg - 1)%Z
                          else nextDisabled s)
    /\ overlayScrollTop s' = (if has_scroll ov then 0%Z else overlayScrollTop s)
    /\ heroImagePreloadCache s'
       = heroImagePreloadCache
           (preloadProjectHeroImage pg (at_ (projectsData pg) index) s)
    /\ frames s' = frames s.
Proof.
  intros Hov Hne. unfold openProject. rewrite Hov.
  destruct (projectsData pg) as [| p0 ps] eqn:Hps; [congruence |].
  cbn [isNil]. rewrite <- Hps.
  unfold andThen, run, updateNavButtons, withOverlay. rewrite Hov.
  eexists. split; [reflexivity |].
  pose proof (clearArmedGridItem_docView pg s) as Hc.
  set (s1 := clearArmedGridItem pg s) in *.
  unfold docView in Hc. injection Hc as C1 C2 C3 C4 C5 C6 C7 C8 C9 C10 C11 C12.
  set (proj := at_ (projectsData pg) index).
  set (s2 := set_lastFocusedElement (set_currentProjectIndex s1 index)
               (activeElement (set_currentProjectIndex s1 index))).
  destruct (preloadProjectHeroImage_plainView pg proj s2) as (Hp & Hpd).
  assert (Hcache : heroImagePreloadCache (preloadProjectHeroImage pg proj s2)
                   = heroImagePreloadCache (preloadProjectHeroImage pg proj s)).
  { unfold preloadProjectHeroImage. destruct (Js.isEmpty _); [exact C4 |].
    change (heroImagePreloadCache s2) with (heroImagePreloadCache s1).
    rewrite C4. destruct (includes _ _); [exact C4 |].
    reflexivity. }
  set (s3 := preloadProjectHeroImage pg proj s2) in *.
  destruct (renderProjectDetail_plainView pg proj s3) as (Hr & Hrc).
  assert (Hd : detail (renderProjectDetail pg proj s3) = detailAfterMove pg ov index s).
  { apply renderProjectDetail_detail; [exact Hov |]. rewrite Hpd. exact C8. }
  set (s4 := renderProjectDetail pg proj s3) in *.
  rewrite Hp in Hr. unfold plainView in Hr. cbn in Hr.
  injection Hr as R1 R2 R3 R4 R5 R6 R7 R8 R9 R10.
  unfold projectCount.
  destruct (has_scroll ov); destruct (has_prev ov); destruct (has_next ov); cbn;
    rewrite ?R1, ?R2, ?R3, ?R4, ?R5, ?R6, ?R7, ?R8, ?R9, ?R10, ?Hd, ?Hrc, ?Hcache,
      ?C5, ?C9, ?C10, ?C11, ?C12;
    repeat split; reflexivity.
Qed.

(** The state [closeOverlay] leaves: nothing changes unless the overlay
    element exists and the overlay is open. *)
Lemma closeOverlay_effect (pg : Page) (s : State) :
  exists s',
    closeOverlay pg s = Returned s'
    /\ ((overlay pg = None \/ isOverlayOpen s = false) -> s' = s)
    /\ (overlay pg <> None -> isOverlayOpen s = true ->
        isOverlayOpen s' = false
        /\ ariaHidden s' = true
        /\ bodyOverlayOpen s' = false
        /\ activeElement s' = focusAfterClose s)
    /\ currentProjectIndex s' = currentProjectIndex s
    /\ lastFocusedElement s' = lastFocusedElement s
    /\ detail s' = detail s
    /\ prevDisabled s' = prevDisabled s
    /\ nextDisabled s' = nextDisabled s
    /\ (heroImagePreloadCache s' = heroImagePreloadCache s
        \/ exists index,
             heroImagePreloadCache s' = heroImagePreloadCache (preloadHero pg index s))
    /\ frames s' = frames s
    /\ armView s' = armView s.
Proof.
  destruct (overlay pg) as [ov |] eqn:Hov.
  - destruct (isOverlayOpen s) eqn:Ho.
    + destruct (closeOverlay_restores pg ov s Hov Ho) as (s' & Hs' & Ho' & Ha' & Hv').
      exists s'. split; [exact Hs' |].
      rewrite (closeOverlay_open pg ov s Hov Ho) in Hs'. injection Hs' as Hs'.
      split; [intros [H | H]; discriminate |].
      assert (Hshape : exists a c,
                 s' = set_heroImagePreloadCache (set_activeElement (closedOverlay s) a) c).
      { rewrite <- Hs'. destruct (lastFocusedElement s) as [e |];
          [apply focus_shape |].
        exists (activeElement (closedOverlay s)), (heroImagePreloadCache (closedOverlay s)).
        apply state_eta. }
      assert (Hcache : heroImagePreloadCache s' = heroImagePreloadCache s
                       \/ exists index,
                            heroImagePreloadCache s'
                            = heroImagePreloadCache (preloadHero pg index s)).
      { rewrite <- Hs'. destruct (lastFocusedElement s) as [e |]; [| left; reflexivity].
        destruct (focus_cache pg e (closedOverlay s)) as [E | (index & E)];
          [left; exact E | right; exists index].
        rewrite E. apply preloadHero_cache_only. reflexivity. }
      destruct Hshape as (a & c & E).
      split; [intros _ _; rewrite E; repeat split; rewrite <- E; assumption |].
      rewrite E at 1 2 3 4 5 7. cbn.
      repeat split; assumption.
    + exists s. unfold closeOverlay. rewrite Hov, Ho.
      repeat split; auto; intros; congruence.
  - exists s. unfold closeOverlay. rewrite Hov.
    repeat split; auto; intros; congruence.
Qed.

(** The state a move by [delta] leaves when the overlay element exists. *)
Lemma goTo_effect (pg : Page) (ov : OverlayEl) (s : State) (delta : Z) :
  overlay pg = Some ov ->
  exists s',
    (run (fun s => set_currentProjectIndex s (currentProjectIndex s + delta)%Z) ;;
     run (fun s => renderProjectDetail pg
                     (at_ (projectsData pg) (currentProjectIndex s)) s) ;;
     updateNavButtons pg ;;
     scrollOverlayToTop pg) s = Returned s'
    /\ currentProjectIndex s' = (currentProjectIndex s + delta)%Z
    /\ detail s' = detailAfterMove pg ov (currentProjectIndex s + delta)%Z s
    /\ prevDisabled s' = (if has_prev ov
                          then (currentProjectIndex s + delta =? 0)%Z
                          else prevDisabled s)
    /\ nextDisabled s' = (if has_next ov
                          then (currentProjectIndex s + delta =? projectCount pg - 1)%Z
                          else nextDisabled s)
    /\ isOverlayOpen s' = isOverlayOpen s
    /\ lastFocusedElement s' = lastFocusedElement s
    /\ activeElement s' = activeElement s
    /\ ariaHidden s' = ariaHidden s
    /\ bodyOverlayOpen s' = bodyOverlayOpen s
    /\ heroImagePreloadCache s' = heroImagePreloadCache s
    /\ frames s' = frames s.
Proof.
  intros Hov.
  unfold andThen, run, updateNavButtons, scrollOverlayToTop, withOverlay.
  rewrite Hov. eexists. split; [reflexivity |].
  set (s1 := set_currentProjectIndex s (currentProjectIndex s + delta)%Z).
  change (currentProjectIndex s1) with (currentProjectIndex s + delta)%Z.
  destruct (renderProjectDetail_plainView pg
              (at_ (projectsData pg) (currentProjectIndex s + delta)%Z) s1)
    as (Hr & Hrc).
  assert (Hd : detail (renderProjectDetail pg
                         (at_ (projectsData pg) (currentProjectIndex s + delta)%Z) s1)
               = detailAfterMove pg ov (currentProjectIndex s + delta)%Z s)
    by (apply renderProjectDetail_detail; [exact Hov | reflexivity]).
  set (s2 := renderProjectDetail pg _ s1) in *.
  unfold plainView in Hr. cbn in Hr.
  injection Hr as R1 R2 R3 R4 R5 R6 R7 R8 R9 R10.
  unfold projectCount.
  destruct (has_scroll ov); destruct (has_prev ov); destruct (has_next ov); cbn;
    rewrite ?R1, ?R2, ?R3, ?R4, ?R5, ?R6, ?R7, ?R8, ?R9, ?R10, ?Hd, ?Hrc;
    repeat split; reflexivity.
Qed.

(** [KeptBy] for a property that reads only what arming and timers leave
    alone. *)
Lemma KeptBy_document (pg : Page) (J : State -> Prop) :
  (forall s s', docView s' = docView s -> J s -> J s') ->
  (forall focused, J (initialState focused)) ->
  (forall s callback, J s -> J (requestAnimationFrame callback s)) ->
  (forall s index, Inv pg s -> J s -> J (stateOf (openProject pg index s))) ->
  (forall s, Inv pg s -> J s -> J (stateOf (closeOverlay pg s))) ->
  (forall s, Inv pg s -> J s -> J (stateOf (goToPrevProject pg s))) ->
  (forall s, Inv pg s -> J s -> J (stateOf (goToNextProject pg s))) ->
  (forall s lang,
      J s -> J (set_detail s (option_map (clickLangButton lang) (detail s)))) ->
  (forall s target, J s -> J (set_activeElement s target)) ->
  (forall s index, J s -> J (preloadHero pg index s)) ->
  (forall s, J s -> J (set_frames s [])) ->
  KeptBy pg J.
Proof.
  intros Hdoc Hinit Hraf Hopen Hclose Hprev Hnext Hlang Hfocus Hpreload Hframes.
  constructor; auto.
  - intros s Hj. apply (Hdoc s); [apply clearArmedGridItem_docView | exact Hj].
  - intros s index Hj. apply (Hdoc s); [apply armGridItem_docView | exact Hj].
  - intros s id Hj. apply (Hdoc s); [reflexivity | exact Hj].
Qed.

(** A move is attempted only inside the bounds; the result of
    [goToPrevProject] or [goToNextProject] on a page with the overlay
    element is the state as it was, or the state [goTo_effect] describes. *)
Lemma goToPrev_cases (pg : Page) (ov : OverlayEl) (s : State) :
  overlay pg = Some ov ->
  goToPrevProject pg s = Returned s
  \/ ((0 < currentProjectIndex s)%Z
      /\ goToPrevProject pg s
         = (run (fun s => set_currentProjectIndex s (currentProjectIndex s + -1)%Z) ;;
            run (fun s => renderProjectDetail pg
                            (at_ (projectsData pg) (currentProjectIndex s)) s) ;;
            updateNavButtons pg ;;
            scrollOverlayToTop pg) s).
Proof.
  intros Hov. unfold goToPrevProject.
  destruct (Z.gtb_spec (currentProjectIndex s) 0); [right | left; reflexivity].
  split; [lia | reflexivity].
Qed.

Lemma goToNext_cases (pg : Page) (ov : OverlayEl) (s : State) :
  overlay pg = Some ov ->
  goToNextProject pg s = Returned s
  \/ ((currentProjectIndex s < projectCount pg - 1)%Z
      /\ goToNextProject pg s
         = (run (fun s => set_currentProjectIndex s (currentProjectIndex s + 1)%Z) ;;
            run (fun s => renderProjectDetail pg
                            (at_ (projectsData pg) (currentProjectIndex s)) s) ;;
            updateNavButtons pg ;;
            scrollOverlayToTop pg) s).
Proof.
  intros Hov. unfold goToNextProject, projectCount.
  destruct (Z.ltb_spec (currentProjectIndex s)
              (Z.of_nat (List.length (projectsData pg)) - 1));
    [right | left; reflexivity].
  split; [lia | reflexivity].
Qed.

(** [s'] is [s] after a move by [delta] on a page whose overlay is [ov]. *)
Definition MovedBy (pg : Page) (ov : OverlayEl) (delta : Z) (s s' : State) : Prop :=
  currentProjectIndex s' = (currentProjectIndex s + delta)%Z
  /\ detail s' = detailAfterMove pg ov (currentProjectIndex s + delta)%Z s
  /\ prevDisabled s' = (if has_prev ov
                        then (currentProjectIndex s + delta =? 0)%Z
                        else prevDisabled s)
  /\ nextDisabled s' = (if has_next ov
                        then (currentProjectIndex s + delta =? projectCount pg - 1)%Z
                        else nextDisabled s)
  /\ isOverlayOpen s' = isOverlayOpen s
  /\ lastFocusedElement s' = lastFocusedElement s
  /\ activeElement s' = activeElement s
  /\ ariaHidden s' = ariaHidden s
  /\ bodyOverlayOpen s' = bodyOverlayOpen s
  /\ heroImagePreloadCache s' = heroImagePreloadCache s
  /\ frames s' = frames s.

(** The three ways [goToPrevProject] can end. *)
Lemma goToPrevProject_ends (pg : Page) (s : State) :
  goToPrevProject pg s = Returned s
  \/ (exists ov s',
         overlay pg = Some ov /\ (0 < currentProjectIndex s)%Z
         /\ goToPrevProject pg s = Returned s' /\ MovedBy pg ov (-1) s s')
  \/ (overlay pg = None /\ (0 < currentProjectIndex s)%Z
      /\ exists e, goToPrevProject pg s
                   = Threw e (set_currentProjectIndex s (currentProjectIndex s - 1)%Z)).
Proof.
  destruct (overlay pg) as [ov |] eqn:Hov.
  - destruct (goToPrev_cases pg ov s Hov) as [H | (Hlt & H)]; [left; exact H |].
    right. left. destruct (goTo_effect pg ov s (-1) Hov) as (s' & Hs' & Hm).
    exists ov, s'. rewrite H, Hs'. repeat split; try apply Hm; auto.
  - unfold goToPrevProject.
    destruct (Z.gtb_spec (currentProjectIndex s) 0); [| left; reflexivity].
    right. right. split; [reflexivity |]. split; [lia |].
    unfold andThen, run, updateNavButtons, withOverlay, renderProjectDetail.
    rewrite Hov. eexists. reflexivity.
Qed.

(** The three ways [goToNextProject] can end. *)
Lemma goToNextProject_ends (pg : Page) (s : State) :
  goToNextProject pg s = Returned s
  \/ (exists ov s',
         overlay pg = Some ov /\ (currentProjectIndex s < projectCount pg - 1)%Z
         /\ goToNextProject pg s = Returned s' /\ MovedBy pg ov 1 s s')
  \/ (overlay pg = None /\ (currentProjectIndex s < projectCount pg - 1)%Z
      /\ exists e, goToNextProject pg s
                   = Threw e (set_currentProjectIndex s (currentProjectIndex s + 1)%Z)).
Proof.
  destruct (overlay pg) as [ov |] eqn:Hov.
  - destruct (goToNext_cases pg ov s Hov) as [H | (Hlt & H)]; [left; exact H |].
    right. left. destruct (goTo_effect pg ov s 1 Hov) as (s' & Hs' & Hm).
    exists ov, s'. rewrite H, Hs'. repeat split; try apply Hm; auto.
  - unfold goToNextProject, projectCount.
    destruct (Z.ltb_spec (currentProjectIndex s)
                (Z.of_nat (List.length (projectsData pg)) - 1));
      [| left; reflexivity].
    right. right. split; [reflexivity |]. split; [lia |].
    unfold andThen, run, updateNavButtons, withOverlay, renderProjectDetail.
    rewrite Hov. eexists. reflexivity.
Qed.

(** The two ways [openProject] can end. *)
Lemma openProject_ends (pg : Page) (index : Z) (s : State) :
  ((overlay pg = None \/ projectsData pg = []) /\ openProject pg index s = Returned s)
  \/ (exists ov, overlay pg = Some ov /\ projectsData pg <> []).
Proof.
  unfold openProject. destruct (overlay pg) as [ov |]; [| left; auto].
  destruct (projectsData pg) as [| p0 ps]; [left; auto |].
  right. exists ov. split; [reflexivity | discriminate].
Qed.

(** ** Invariants of the overlay *)

(** The markers of the open overlay follow the flag. *)
Definition MarkersFollow (s : State) : Prop :=
  bodyOverlayOpen s = isOverlayOpen s /\ ariaHidden s = negb (isOverlayOpen s).

Lemma MarkersFollow_kept (pg : Page) : KeptBy pg MarkersFollow.
Proof.
  apply KeptBy_document; unfold MarkersFollow.
  - intros s s' H. unfold docView in H.
    injection H as _ H2 _ _ _ H6 H7 _ _ _ _ _. rewrite H2, H6, H7. auto.
  - intros focused. split; reflexivity.
  - intros s callback H. exact H.
  - intros s index _ H.
    destruct (openProject_ends pg index s) as [(_ & ->) | (ov & Hov & Hne)];
      [exact H |].
    destruct (openProject_effect pg ov index s Hov Hne)
      as (s' & -> & _ & Ho & _ & _ & Ha & Hb & _).
    cbn. rewrite Ho, Ha, Hb. auto.
  - intros s HI H.
    destruct (closeOverlay_effect pg s) as (s' & -> & Hsame & Hclosed & _). cbn.
    destruct (overlay pg) as [ov |] eqn:Hov; [| rewrite Hsame by auto; exact H].
    destruct (isOverlayOpen s) eqn:Ho; [| rewrite Hsame by auto; rewrite Ho; exact H].
    destruct Hclosed as (-> & -> & -> & _); auto; discriminate.
  - intros s HI H.
    destruct (goToPrevProject_ends pg s)
      as [-> | [(ov & s' & _ & _ & -> & Hm) | (Hov & _ & e & ->)]]; cbn.
    + exact H.
    + destruct Hm as (_ & _ & _ & _ & -> & _ & _ & -> & -> & _). exact H.
    + exact H.
  - intros s HI H.
    destruct (goToNextProject_ends pg s)
      as [-> | [(ov & s' & _ & _ & -> & Hm) | (Hov & _ & e & ->)]]; cbn.
    + exact H.
    + destruct Hm as (_ & _ & _ & _ & -> & _ & _ & -> & -> & _). exact H.
    + exact H.
  - intros s lang H. exact H.
  - intros s target H. exact H.
  - intros s index H. destruct (preloadHero_shape pg index s) as (c & ->). exact H.
  - intros s H. exact H.
Qed.

(** X1: in every state the page can be in with the overlay open, the body
    carries the [overlay-open] class and the overlay's [aria-hidden] is
    [false]. *)
Theorem open_overlay_is_marked (pg : Page) (s : State)
    (Hreach : Reachable pg s)
    (Hopen : isOverlayOpen s = true) :
  bodyOverlayOpen s = true /\ ariaHidden s = false.
Proof.
  destruct (Reachable_kept pg MarkersFollow (MarkersFollow_kept pg) s Hreach)
    as (-> & ->).
  rewrite Hopen. auto.
Qed.

Lemma open_overlay_is_marked_witness :
  Reachable demoPage demoOpenState
  /\ isOverlayOpen demoOpenState = true
  /\ bodyOverlayOpen demoOpenState = true
  /\ ariaHidden demoOpenState = false.
Proof.
  assert (Hreach : Reachable demoPage demoOpenState)
    by apply reach_step, reach_init.
  assert (Hopen : isOverlayOpen demoOpenState = true) by reflexivity.
  split; [exact Hreach |]. split; [exact Hopen |].
  exact (open_overlay_is_marked demoPage demoOpenState Hreach Hopen).
Defined.

(** The navigation buttons that exist are disabled exactly at the ends. *)
Definition NavSynced (pg : Page) (s : State) : Prop :=
  forall ov,
    overlay pg = Some ov ->
    (has_prev ov = true -> prevDisabled s = (currentProjectIndex s =? 0)%Z)
    /\ (has_next ov = true ->
        nextDisabled s = (currentProjectIndex s =? projectCount pg - 1)%Z).

Lemma NavSynced_kept (pg : Page) :
  KeptBy pg (fun s => isOverlayOpen s = true -> NavSynced pg s).
Proof.
  apply KeptBy_document; unfold NavSynced.
  - intros s s' H. unfold docView in H.
    injection H as H1 H2 _ _ _ _ _ _ H9 H10 _ _. rewrite H1, H2, H9, H10. auto.
  - intros focused H. discriminate H.
  - intros s callback H. exact H.
  - intros s index _ H.
    destruct (openProject_ends pg index s) as [(_ & ->) | (ov & Hov & Hne)];
      [exact H |].
    destruct (openProject_effect pg ov index s Hov Hne)
      as (s' & -> & Hi & _ & _ & _ & _ & _ & _ & Hp & Hn & _).
    cbn. intros _ ov' Hov'. rewrite Hov in Hov'. injection Hov' as <-.
    rewrite Hp, Hn, Hi. split; intros ->; reflexivity.
  - intros s HI H.
    destruct (closeOverlay_effect pg s)
      as (s' & -> & Hsame & Hclosed & _). cbn.
    destruct (overlay pg) as [ov |] eqn:Hov;
      [| rewrite Hsame by auto; intros Ho ov' Hov'; discriminate Hov'].
    destruct (isOverlayOpen s) eqn:Ho; [| rewrite Hsame by auto; rewrite Ho; exact H].
    destruct Hclosed as (-> & _); auto; discriminate.
  - intros s HI H.
    destruct (goToPrevProject_ends pg s)
      as [-> | [(ov & s' & Hov & _ & -> & Hm) | (Hov & _ & e & ->)]]; cbn.
    + exact H.
    + destruct Hm as (Hi & _ & Hp & Hn & _).
      intros _ ov' Hov'. rewrite Hov in Hov'. injection Hov' as <-.
      rewrite Hp, Hn, Hi. split; intros ->; reflexivity.
    + intros _ ov' Hov'. rewrite Hov in Hov'. discriminate.
  - intros s HI H.
    destruct (goToNextProject_ends pg s)
      as [-> | [(ov & s' & Hov & _ & -> & Hm) | (Hov & _ & e & ->)]]; cbn.
    + exact H.
    + destruct Hm as (Hi & _ & Hp & Hn & _).
      intros _ ov' Hov'. rewrite Hov in Hov'. injection Hov' as <-.
      rewrite Hp, Hn, Hi. split; intros ->; reflexivity.
    + intros _ ov' Hov'. rewrite Hov in Hov'. discriminate.
  - intros s lang H. exact H.
  - intros s target H. exact H.
  - intros s index H. destruct (preloadHero_shape pg index s) as (c & ->). exact H.
  - intros s H. exact H.
Qed.

(** X2: in every state the page can be in with the overlay open, the
    previous button (when the overlay has one) is disabled exactly when
    [currentProjectIndex] is 0, and the next button exactly when it is the
    last index. *)
Theorem nav_buttons_follow_index (pg : Page) (ov : OverlayEl) (s : State)
    (Hreach : Reachable pg s)
    (Hopen : isOverlayOpen s = true)
    (Hov : overlay pg = Some ov) :
  (has_prev ov = true -> prevDisabled s = (currentProjectIndex s =? 0)%Z)
  /\ (has_next ov = true ->
      nextDisabled s = (currentProjectIndex s =? projectCount pg - 1)%Z).
Proof.
  exact (Reachable_kept pg _ (NavSynced_kept pg) s Hreach Hopen ov Hov).
Qed.

Lemma nav_buttons_follow_index_witness :
  Reachable demoPage (step demoPage demoOpenState ClickNext)
  /\ isOverlayOpen (step demoPage demoOpenState ClickNext) = true
  /\ overlay demoPage = Some demoOverlay
  /\ prevDisabled (step demoPage demoOpenState ClickNext) = false
  /\ nextDisabled (step demoPage demoOpenState ClickNext) = true.
Proof.
  assert (Hreach : Reachable demoPage (step demoPage demoOpenState ClickNext))
    by (do 2 apply reach_step; apply reach_init).
  assert (Hopen : isOverlayOpen (step demoPage demoOpenState ClickNext) = true)
    by reflexivity.
  assert (Hov : overlay demoPage = Some demoOverlay) by reflexivity.
  split; [exact Hreach |]. split; [exact Hopen |]. split; [exact Hov |].
  destruct (nav_buttons_follow_index demoPage demoOverlay _ Hreach Hopen Hov)
    as (Hp & Hn).
  rewrite Hp, Hn by reflexivity. split; reflexivity.
Defined.

Lemma clickLangButton_keeps (lang : Lang) (view : DetailView) :
  dv_project (clickLangButton lang view) = dv_project view
  /\ dv_meta (clickLangButton lang view) = dv_meta view.
Proof. unfold clickLangButton. destruct (dv_toggle view); auto. Qed.

(** The detail region shows the record at the current index. *)
Definition ShowsCurrent (pg : Page) (s : State) : Prop :=
  forall ov record,
    overlay pg = Some ov -> has_detail ov = true ->
    at_ (projectsData pg) (currentProjectIndex s) = Some record ->
    exists view,
      detail s = Some view
      /\ dv_project view = record
      /\ dv_meta view = metaItems record.

Lemma ShowsCurrent_after_move (pg : Page) (ov : OverlayEl) (i : Z) (s s' : State) :
  overlay pg = Some ov ->
  currentProjectIndex s' = i ->
  detail s' = detailAfterMove pg ov i s ->
  ShowsCurrent pg s'.
Proof.
  intros Hov Hi Hd ov' record Hov' Hdet Hat.
  rewrite Hov in Hov'. injection Hov' as <-.
  rewrite Hi in Hat. rewrite Hd. unfold detailAfterMove. rewrite Hat, Hdet.
  eexists. split; [reflexivity |]. split; reflexivity.
Qed.

Lemma ShowsCurrent_kept (pg : Page) :
  KeptBy pg (fun s => isOverlayOpen s = true -> ShowsCurrent pg s).
Proof.
  apply KeptBy_document.
  - intros s s' H. unfold docView in H.
    injection H as H1 H2 _ _ _ _ _ H8 _ _ _ _. unfold ShowsCurrent.
    rewrite H1, H2, H8. auto.
  - intros focused H. discriminate H.
  - intros s callback H. exact H.
  - intros s index _ H.
    destruct (openProject_ends pg index s) as [(_ & ->) | (ov & Hov & Hne)];
      [exact H |].
    destruct (openProject_effect pg ov index s Hov Hne)
      as (s' & -> & Hi & _ & _ & _ & _ & _ & Hd & _).
    cbn. intros _. exact (ShowsCurrent_after_move pg ov index s s' Hov Hi Hd).
  - intros s HI H.
    destruct (closeOverlay_effect pg s)
      as (s' & -> & Hsame & Hclosed & _). cbn.
    destruct (overlay pg) as [ov |] eqn:Hov;
      [| rewrite Hsame by auto; exact H].
    destruct (isOverlayOpen s) eqn:Ho; [| rewrite Hsame by auto; rewrite Ho; exact H].
    destruct Hclosed as (-> & _); auto; discriminate.
  - intros s HI H.
    destruct (goToPrevProject_ends pg s)
      as [-> | [(ov & s' & Hov & _ & -> & Hm) | (Hov & _ & e & ->)]]; cbn.
    + exact H.
    + destruct Hm as (Hi & Hd & _). intros _.
      exact (ShowsCurrent_after_move pg ov _ s s' Hov Hi Hd).
    + intros _ ov' record Hov'. rewrite Hov in Hov'. discriminate.
  - intros s HI H.
    destruct (goToNextProject_ends pg s)
      as [-> | [(ov & s' & Hov & _ & -> & Hm) | (Hov & _ & e & ->)]]; cbn.
    + exact H.
    + destruct Hm as (Hi & Hd & _). intros _.
      exact (ShowsCurrent_after_move pg ov _ s s' Hov Hi Hd).
    + intros _ ov' record Hov'. rewrite Hov in Hov'. discriminate.
  - intros s lang H Ho ov record Hov Hdet Hat. cbn in *.
    destruct (H Ho ov record Hov Hdet Hat) as (view & Hv & Hp & Hm).
    rewrite Hv. cbn. eexists. split; [reflexivity |].
    destruct (clickLangButton_keeps lang view) as (-> & ->). auto.
  - intros s target H. exact H.
  - intros s index H. destruct (preloadHero_shape pg index s) as (c & ->). exact H.
  - intros s H. exact H.
Qed.

(** X3: in every state the page can be in with the overlay open at a valid
    index, the detail region (when the overlay has one) holds the view of
    the record at [currentProjectIndex]: that record, with its meta items.
    Navigation, re-opening and the language toggle all keep it so. *)
Theorem detail_shows_current_project (pg : Page) (ov : OverlayEl) (s : State)
    (record : Project)
    (Hreach : Reachable pg s)
    (Hopen : isOverlayOpen s = true)
    (Hov : overlay pg = Some ov)
    (Hdetail : has_detail ov = true)
    (Hat : at_ (projectsData pg) (currentProjectIndex s) = Some record) :
  exists view,
    detail s = Some view
    /\ dv_project view = record
    /\ dv_meta view = metaItems record.
Proof.
  exact (Reachable_kept pg _ (ShowsCurrent_kept pg) s Hreach Hopen ov record
           Hov Hdetail Hat).
Qed.

Lemma detail_shows_current_project_witness :
  Reachable demoPage (step demoPage demoOpenState (KeyDown ArrowLeft))
  /\ isOverlayOpen (step demoPage demoOpenState (KeyDown ArrowLeft)) = true
  /\ overlay demoPage = Some demoOverlay
  /\ has_detail demoOverlay = true
  /\ at_ (projectsData demoPage)
         (currentProjectIndex (step demoPage demoOpenState (KeyDown ArrowLeft)))
     = Some (bareProject "Alpha")
  /\ exists view,
       detail (step demoPage demoOpenState (KeyDown ArrowLeft)) = Some view
       /\ dv_project view = bareProject "Alpha".
Proof.
  assert (Hreach : Reachable demoPage (step demoPage demoOpenState (KeyDown ArrowLeft)))
    by (do 2 apply reach_step; apply reach_init).
  assert (Hopen : isOverlayOpen (step demoPage demoOpenState (KeyDown ArrowLeft)) = true)
    by reflexivity.
  assert (Hov : overlay demoPage = Some demoOverlay) by reflexivity.
  assert (Hdetail : has_detail demoOverlay = true) by reflexivity.
  assert (Hat : at_ (projectsData demoPage)
                    (currentProjectIndex
                       (step demoPage demoOpenState (KeyDown ArrowLeft)))
                = Some (bareProject "Alpha")) by reflexivity.
  split; [exact Hreach |]. split; [exact Hopen |]. split; [exact Hov |].
  split; [exact Hdetail |]. split; [exact Hat |].
  destruct (detail_shows_current_project demoPage demoOverlay _ _
              Hreach Hopen Hov Hdetail Hat) as (view & Hv & Hp & _).
  exists view. split; [exact Hv | exact Hp].
Defined.

(** Nothing opens, moves or renders on a page without projects. *)
Definition Untouched (s : State) : Prop :=
  isOverlayOpen s = false /\ currentProjectIndex s = 0%Z /\ detail s = None.

Lemma Untouched_kept (pg : Page) :
  projectsData pg = [] -> KeptBy pg Untouched.
Proof.
  intros Hnil. apply KeptBy_document; unfold Untouched.
  - intros s s' H. unfold docView in H.
    injection H as H1 H2 _ _ _ _ _ H8 _ _ _ _. rewrite H1, H2, H8. auto.
  - intros focused. repeat split.
  - intros s callback H. exact H.
  - intros s index _ H.
    destruct (openProject_ends pg index s) as [(_ & ->) | (ov & _ & Hne)];
      [exact H | contradiction].
  - intros s HI H.
    destruct (closeOverlay_effect pg s) as (s' & -> & Hsame & _). cbn.
    rewrite Hsame; [exact H |]. right. apply H.
  - intros s HI (Ho & Hi & Hd).
    unfold goToPrevProject. rewrite Hi. cbn. auto.
  - intros s HI (Ho & Hi & Hd).
    unfold goToNextProject. rewrite Hi, Hnil. cbn. auto.
  - intros s lang (Ho & Hi & Hd). cbn. rewrite Hd. auto.
  - intros s target H. exact H.
  - intros s index H. destruct (preloadHero_shape pg index s) as (c & ->). exact H.
  - intros s H. exact H.
Qed.

(** X4: when the payload does not parse, [projectsData] stays empty, and on
    such a page no sequence of clicks, keys, timers and frames opens the
    overlay, moves the index off 0 or renders a detail view. *)
Theorem malformed_payload_never_opens
    (parseTokens : list Token -> option (list Project)) (text : string)
    (pg : Page) (s : State)
    (Hbad : JSON_parse parseTokens (escapeNewlines text) = None)
    (Hdata : projectsData pg = parseProjectsData parseTokens (Some text))
    (Hreach : Reachable pg s) :
  projectsData pg = []
  /\ isOverlayOpen s = false
  /\ currentProjectIndex s = 0%Z
  /\ detail s = None.
Proof.
  assert (Hnil : projectsData pg = []).
  { rewrite Hdata. unfold parseProjectsData. rewrite Hbad. reflexivity. }
  split; [exact Hnil |].
  exact (Reachable_kept pg Untouched (Untouched_kept pg Hnil) s Hreach).
Qed.

(** A payload cut off inside a string: an opening bracket and brace, the
    key [title], a colon, and a string that is never closed. *)
Definition brokenPayload : string :=
  ("[{" ++ String quote ("title" ++ String quote (":" ++ String quote "A")))%string.

Lemma malformed_payload_never_opens_witness :
  JSON_parse titlesOnly (escapeNewlines brokenPayload) = None
  /\ Reachable (mkPage (Some demoOverlay) 2
                       (parseProjectsData titlesOnly (Some brokenPayload))
                       "/projects.html")
               (steps (mkPage (Some demoOverlay) 2
                              (parseProjectsData titlesOnly (Some brokenPayload))
                              "/projects.html")
                      [ClickGridButton 0 true; KeyDown ArrowRight]
                      (pageLoaded
                         (mkPage (Some demoOverlay) 2
                                 (parseProjectsData titlesOnly (Some brokenPayload))
                                 "/projects.html")
                         (Some "a") (Some "1") None))
  /\ isOverlayOpen
       (steps (mkPage (Some demoOverlay) 2
                      (parseProjectsData titlesOnly (Some brokenPayload))
                      "/projects.html")
              [ClickGridButton 0 true; KeyDown ArrowRight]
              (pageLoaded
                 (mkPage (Some demoOverlay) 2
                         (parseProjectsData titlesOnly (Some brokenPayload))
                         "/projects.html")
                 (Some "a") (Some "1") None)) = false.
Proof.
  assert (Hbad : JSON_parse titlesOnly (escapeNewlines brokenPayload) = None)
    by reflexivity.
  set (pg := mkPage (Some demoOverlay) 2
                    (parseProjectsData titlesOnly (Some brokenPayload))
                    "/projects.html").
  assert (Hreach : Reachable pg (steps pg [ClickGridButton 0 true; KeyDown ArrowRight]
                                       (pageLoaded pg (Some "a") (Some "1") None)))
    by (unfold steps; cbn [fold_left]; do 2 apply reach_step; apply reach_init).
  split; [exact Hbad |]. split; [exact Hreach |].
  exact (proj1 (proj2 (malformed_payload_never_opens titlesOnly brokenPayload pg _
                         Hbad eq_refl Hreach))).
Defined.

(** ** Keyboard and navigation *)

(** X5: in every state the page can be in, the document's key listener
    returns without an error, whatever the key, Tab with the focus trap
    included; while the overlay is closed it leaves the state as it is. *)
Theorem keyboard_never_throws (pg : Page) (s : State) (key : Key)
    (Hreach : Reachable pg s) :
  exists s',
    handleKeyDown pg key s = Returned s'
    /\ (isOverlayOpen s = false -> s' = s).
Proof.
  pose proof (Reachable_Inv pg s Hreach) as HI.
  unfold handleKeyDown. destruct (isOverlayOpen s) eqn:Ho; cbn [negb].
  - assert (Hov : overlay pg <> None).
    { intros H. rewrite (inv_overlay pg s HI H) in Ho. discriminate. }
    destruct key as [| | | | | | shiftKey focusableElements].
    + destruct (closeOverlay_effect pg s) as (s' & -> & _). exists s'.
      split; [reflexivity | discriminate].
    + destruct (goToPrevProject_ends pg s)
        as [-> | [(ov & s' & _ & _ & -> & _) | (H & _)]];
        [eexists | eexists | contradiction]; (split; [reflexivity | discriminate]).
    + destruct (goToNextProject_ends pg s)
        as [-> | [(ov & s' & _ & _ & -> & _) | (H & _)]];
        [eexists | eexists | contradiction]; (split; [reflexivity | discriminate]).
    + exists s. split; [reflexivity | discriminate].
    + exists s. split; [reflexivity | discriminate].
    + exists s. split; [reflexivity | discriminate].
    + eexists. split; [reflexivity | discriminate].
  - exists s. auto.
Qed.

(** The demo page with the overlay open on its middle project and the
    focus on the last control of the overlay. *)
Definition demoTabState : State :=
  step demoPage demoOpenState (FocusMoves (Some NextButton)).

Lemma keyboard_never_throws_witness :
  Reachable demoPage demoOpenState
  /\ (exists s', handleKeyDown demoPage ArrowRight demoOpenState = Returned s'
                 /\ currentProjectIndex s' = 2%Z)
  /\ Reachable demoPage demoTabState
  /\ (exists s',
        handleKeyDown demoPage (Tab false [CloseButton; PrevButton; NextButton])
          demoTabState = Returned s'
        /\ activeElement s' = Some CloseButton).
Proof.
  assert (Hreach : Reachable demoPage demoOpenState)
    by apply reach_step, reach_init.
  assert (Hreach' : Reachable demoPage demoTabState)
    by (apply reach_step; exact Hreach).
  split; [exact Hreach |]. split; [| split; [exact Hreach' |]].
  - destruct (keyboard_never_throws demoPage demoOpenState ArrowRight Hreach)
      as (s' & Hs' & _).
    exists s'. split; [exact Hs' |].
    assert (H : stateOf (handleKeyDown demoPage ArrowRight demoOpenState) = s')
      by (rewrite Hs'; reflexivity).
    rewrite <- H. reflexivity.
  - destruct (keyboard_never_throws demoPage demoTabState
                (Tab false [CloseButton; PrevButton; NextButton]) Hreach')
      as (s' & Hs' & _).
    exists s'. split; [exact Hs' |].
    assert (H : stateOf (handleKeyDown demoPage
                           (Tab false [CloseButton; PrevButton; NextButton])
                           demoTabState) = s')
      by (rewrite Hs'; reflexivity).
    rewrite <- H. reflexivity.
Defined.

(** X6: on a page without the overlay element, [goToNextProject] and
    [goToPrevProject] are not guarded: when the index can move they raise a
    [TypeError] in [updateNavButtons], after the index has been changed;
    at the ends they return without doing anything. *)
Theorem moves_throw_without_overlay (pg : Page) (s : State)
    (Hov : overlay pg = None) :
  ((currentProjectIndex s < projectCount pg - 1)%Z ->
   goToNextProject pg s
   = Threw (TypeError "overlay is null")
           (set_currentProjectIndex s (currentProjectIndex s + 1)%Z))
  /\ ((projectCount pg - 1 <= currentProjectIndex s)%Z ->
      goToNextProject pg s = Returned s)
  /\ ((0 < currentProjectIndex s)%Z ->
      goToPrevProject pg s
      = Threw (TypeError "overlay is null")
              (set_currentProjectIndex s (currentProjectIndex s - 1)%Z))
  /\ ((currentProjectIndex s <= 0)%Z -> goToPrevProject pg s = Returned s).
Proof.
  unfold goToNextProject, goToPrevProject, projectCount.
  unfold andThen, run, updateNavButtons, withOverlay, renderProjectDetail.
  rewrite Hov.
  destruct (Z.ltb_spec (currentProjectIndex s)
              (Z.of_nat (List.length (projectsData pg)) - 1));
    destruct (Z.gtb_spec (currentProjectIndex s) 0);
    repeat split; intros; try lia; reflexivity.
Qed.

Lemma moves_throw_without_overlay_witness :
  overlay (mkPage None 0 [bareProject "A"; bareProject "B"] "/projects.html") = None
  /\ returns (goToNextProject
                (mkPage None 0 [bareProject "A"; bareProject "B"] "/projects.html")
                demoState) = false
  /\ currentProjectIndex
       (stateOf (goToNextProject
                   (mkPage None 0 [bareProject "A"; bareProject "B"] "/projects.html")
                   demoState)) = 1%Z.
Proof.
  assert (Hov : overlay (mkPage None 0 [bareProject "A"; bareProject "B"]
                                "/projects.html") = None) by reflexivity.
  split; [exact Hov |].
  destruct (moves_throw_without_overlay _ demoState Hov) as (Hnext & _).
  rewrite Hnext by (cbn; lia). split; reflexivity.
Defined.







(** X9: [closeOverlay] is idempotent: a second call returns the state the
    first one left, so the focus is not moved a second time. *)
Theorem closeOverlay_idempotent (pg : Page) (s : State) :
  exists s',
    closeOverlay pg s = Returned s'
    /\ closeOverlay pg s' = Returned s'
    /\ (overlay pg <> None -> isOverlayOpen s' = false).
Proof.
  destruct (closeOverlay_effect pg s) as (s' & Hs' & Hsame & Hclosed & _).
  exists s'. split; [exact Hs' |].
  unfold closeOverlay. destruct (overlay pg) as [ov |] eqn:Hov;
    [| split; [reflexivity | congruence]].
  destruct (isOverlayOpen s) eqn:Ho.
  - destruct Hclosed as (Hc & _); [discriminate | reflexivity |].
    rewrite Hc. cbn. auto.
  - rewrite (Hsame (or_intror eq_refl)), Ho. cbn. auto.
Qed.



(** ** The grid: taps, clicks elsewhere and keyboard activation *)

Lemma Inv_loosely (pg : Page) (s : State) :
  Inv pg s -> Disarmed s \/ exists k id, ArmedLoosely pg k id s.
Proof.
  intros [_ [H | (k & id & H)] _];
    [left; exact H | right; exists k, id; apply ArmedAt_loosely; exact H].
Qed.

Lemma clearArmedGridItem_Disarmed (pg : Page) (s : State) :
  Inv pg s -> Disarmed (clearArmedGridItem pg s).
Proof. intros HI. apply clearArmedGridItem_disarms, Inv_loosely, HI. Qed.

(** [clearArmedGridItem(); openProject(index)], as the grid listeners call
    them. *)
Lemma clear_then_open (pg : Page) (ov : OverlayEl) (i : Z) (s : State) :
  overlay pg = Some ov -> projectsData pg <> [] -> Inv pg s ->
  exists s',
    (run (clearArmedGridItem pg) ;; openProject pg i) s = Returned s'
    /\ Disarmed s'
    /\ overlayState s' = mkOverlayState true i (activeElement s)
    /\ activeElement s' = activeElement s
    /\ detail s' = detailAfterMove pg ov i s.
Proof.
  intros Hov Hne HI. unfold andThen, run.
  set (s0 := clearArmedGridItem pg s).
  pose proof (clearArmedGridItem_docView pg s) as Hdoc. fold s0 in Hdoc.
  unfold docView in Hdoc. injection Hdoc as _ _ _ _ Hact _ _ Hdet _ _ _ _.
  destruct (openProject_effect pg ov i s0 Hov Hne)
    as (s' & Hs' & I' & O' & L' & A' & _ & _ & D' & _).
  exists s'. split; [exact Hs' |].
  pose proof (openProject_armView pg ov i s0 Hov Hne) as Hv.
  cbn zeta in Hv. rewrite Hs' in Hv. cbn [stateOf] in Hv.
  unfold armView in Hv. injection Hv as V1 V2 V3 V4 _.
  assert (HI0 : Inv pg s0) by (apply clearArmedGridItem_Inv, HI).
  destruct (clearArmedGridItem_Disarmed pg s0 HI0) as (A & B & C & D).
  split.
  { unfold Disarmed, armTimerIds. rewrite V1, V2, V3, V4, armTimerIds_app_focus.
    auto. }
  unfold overlayState. rewrite I', O', L', A', Hact.
  split; [reflexivity |]. split; [reflexivity |].
  rewrite D'. unfold detailAfterMove. rewrite Hdet. reflexivity.
Qed.

(** X11: tap, then tap again.  Where the grid works in arm-then-open mode,
    a first tap on a tile that is not the armed one arms it and changes
    nothing else: the overlay, the detail view and the focus stay as they
    were.  A second tap on the same tile opens its project and disarms the
    tile. *)
Theorem second_tap_opens (pg : Page) (ov : OverlayEl) (s : State) (j : nat)
    (Hreach : Reachable pg s)
    (Hov : overlay pg = Some ov)
    (Hne : projectsData pg <> [])
    (Hj : j < gridItemContainers pg)
    (Hnot : armedGridIndex s <> Z.of_nat j) :
  let s1 := step pg s (ClickGridButton j false) in
  let s2 := step pg s1 (ClickGridButton j false) in
  docView s1 = docView s
  /\ armedGridIndex s1 = Z.of_nat j
  /\ armedItems s1 = [j]
  /\ Disarmed s2
  /\ overlayState s2 = mkOverlayState true (Z.of_nat j) (activeElement s)
  /\ detail s2 = detailAfterMove pg ov (Z.of_nat j) s.
Proof.
  intros s1 s2.
  pose proof (Reachable_Inv pg s Hreach) as HI.
  assert (E1 : s1 = armGridItem pg j s).
  { unfold s1, step. cbn [handle].
    destruct (Z.eqb_spec (armedGridIndex s) (Z.of_nat j)); [contradiction |].
    reflexivity. }
  assert (HI1 : Inv pg s1) by (rewrite E1; apply armGridItem_Inv, HI).
  assert (Hidx : armedGridIndex s1 = Z.of_nat j).
  { rewrite E1, (armGridItem_unfold pg j s Hj). reflexivity. }
  assert (Hdoc : docView s1 = docView s) by (rewrite E1; apply armGridItem_docView).
  destruct (Inv_armed_at pg s1 j HI1 Hidx) as (id & _ & _ & _ & Hitems & _).
  destruct (clear_then_open pg ov (Z.of_nat j) s1 Hov Hne HI1)
    as (s' & Hs' & Hdis & Host & _ & Hdet).
  assert (E2 : s2 = s').
  { unfold s2, step. cbn [handle]. rewrite Hidx, Z.eqb_refl, Hs'. reflexivity. }
  rewrite E2. split; [exact Hdoc |].
  unfold docView in Hdoc. injection Hdoc as _ _ _ _ Hact _ _ Hd _ _ _ _.
  split; [exact Hidx |]. split; [exact Hitems |]. split; [exact Hdis |].
  split; [rewrite Host, Hact; reflexivity |].
  rewrite Hdet. unfold detailAfterMove. rewrite Hd. reflexivity.
Qed.

Lemma second_tap_opens_witness :
  Reachable demoPage demoOpenState
  /\ overlay demoPage = Some demoOverlay
  /\ projectsData demoPage <> []
  /\ 2 < gridItemContainers demoPage
  /\ armedGridIndex demoOpenState <> Z.of_nat 2
  /\ armedItems (step demoPage demoOpenState (ClickGridButton 2 false)) = [2]
  /\ overlayState
       (step demoPage (step demoPage demoOpenState (ClickGridButton 2 false))
             (ClickGridButton 2 false))
     = mkOverlayState true 2%Z (activeElement demoOpenState).
Proof.
  assert (Hreach : Reachable demoPage demoOpenState)
    by (apply reach_step, reach_init).
  assert (Hov : overlay demoPage = Some demoOverlay) by reflexivity.
  assert (Hne : projectsData demoPage <> []) by discriminate.
  assert (Hj : 2 < gridItemContainers demoPage) by (cbn; lia).
  assert (Hnot : armedGridIndex demoOpenState <> Z.of_nat 2)
    by (vm_compute; discriminate).
  split; [exact Hreach |]. split; [exact Hov |]. split; [exact Hne |].
  split; [exact Hj |]. split; [exact Hnot |].
  destruct (second_tap_opens demoPage demoOverlay demoOpenState 2
              Hreach Hov Hne Hj Hnot) as (_ & _ & H3 & _ & H5 & _).
  split; [exact H3 | exact H5].
Defined.

(** The clicks that land outside the grid buttons: the document listener
    disarms after the target's own listener has run. *)
Definition outsideGridButtons (ev : Event) : bool :=
  match ev with
  | ClickElsewhere | ClickClose | ClickBackdrop | ClickPrev | ClickNext
  | ClickFooterLink _ | ClickLang _ => true
  | _ => false
  end.

(** X12: any click outside the grid buttons disarms: afterwards no tile is
    armed, no tile carries the armed class and no auto-disarm timer is
    pending. *)
Theorem click_outside_disarms (pg : Page) (s : State) (ev : Event)
    (Hreach : Reachable pg s)
    (Hev : outsideGridButtons ev = true) :
  Disarmed (step pg s ev).
Proof.
  pose proof (Reachable_Inv pg s Hreach) as HI.
  unfold step.
  destruct ev; try discriminate Hev; cbn [handle run stateOf].
  - apply clearArmedGridItem_Disarmed, HI.
  - destruct (overlay pg) as [ov |]; cbn [run stateOf];
      apply clearArmedGridItem_Disarmed; [| exact HI].
    destruct (has_close ov); [apply closeOverlay_Inv, HI | exact HI].
  - destruct (overlay pg) as [ov |]; cbn [run stateOf];
      apply clearArmedGridItem_Disarmed; [| exact HI].
    destruct (has_backdrop ov); [apply closeOverlay_Inv, HI | exact HI].
  - destruct (overlay pg) as [ov |]; cbn [run stateOf];
      apply clearArmedGridItem_Disarmed; [| exact HI].
    destruct (has_prev ov); [apply goToPrevProject_Inv, HI | exact HI].
  - destruct (overlay pg) as [ov |]; cbn [run stateOf];
      apply clearArmedGridItem_Disarmed; [| exact HI].
    destruct (has_next ov); [apply goToNextProject_Inv, HI | exact HI].
  - apply clearArmedGridItem_Disarmed.
    destruct (projectIndex <? 0)%Z; [exact HI | apply openProject_Inv, HI].
  - apply clearArmedGridItem_Disarmed.
    apply (armView_Inv pg s); [reflexivity | apply HI | exact HI].
Qed.

Lemma click_outside_disarms_witness :
  Reachable demoPage demoArmedState
  /\ outsideGridButtons ClickPrev = true
  /\ armedItems demoArmedState <> []
  /\ Disarmed (step demoPage demoArmedState ClickPrev).
Proof.
  assert (Hreach : Reachable demoPage demoArmedState)
    by (apply reach_step, reach_init).
  split; [exact Hreach |]. split; [reflexivity |].
  split; [vm_compute; discriminate |].
  apply (click_outside_disarms demoPage demoArmedState ClickPrev Hreach).
  reflexivity.
Defined.

(** The ways a grid button is activated at once: a click in direct-open
    mode, or Enter or Space on the focused button. *)
Definition activatesAtOnce (index : nat) (ev : Event) : bool :=
  match ev with
  | ClickGridButton i true => Nat.eqb i index
  | KeyOnGridButton i Enter | KeyOnGridButton i Space => Nat.eqb i index
  | _ => false
  end.

(** X13: a click in direct-open mode, and Enter or Space on a grid button,
    open the button's project whatever is armed, and leave nothing armed;
    the keyboard shortcuts of the overlay do not react to that key. *)
Theorem activation_opens_at_once (pg : Page) (ov : OverlayEl) (s : State)
    (index : nat) (ev : Event)
    (Hreach : Reachable pg s)
    (Hov : overlay pg = Some ov)
    (Hne : projectsData pg <> [])
    (Hev : activatesAtOnce index ev = true) :
  Disarmed (step pg s ev)
  /\ overlayState (step pg s ev)
     = mkOverlayState true (Z.of_nat index) (activeElement s)
  /\ detail (step pg s ev) = detailAfterMove pg ov (Z.of_nat index) s.
Proof.
  pose proof (Reachable_Inv pg s Hreach) as HI.
  destruct (clear_then_open pg ov (Z.of_nat index) s Hov Hne HI)
    as (s' & Hs' & Hdis & Host & _ & Hdet).
  assert (Hopen : isOverlayOpen s' = true)
    by (change (isOpen (overlayState s') = true); rewrite Host; reflexivity).
  assert (E : step pg s ev = s').
  { unfold step.
    destruct ev as [i [|] | i [| | | | | | shiftKey focusableElements]
                   | | | | | | | | | | | | |];
      try discriminate Hev; cbn in Hev; apply Nat.eqb_eq in Hev; subst i;
      cbn [handle].
    - rewrite Hs'. reflexivity.
    - unfold andThen in *. destruct (run (clearArmedGridItem pg) s) as [s0 | e s0];
        [| discriminate Hs'].
      rewrite Hs'. unfold handleKeyDown. rewrite Hopen. reflexivity.
    - unfold andThen in *. destruct (run (clearArmedGridItem pg) s) as [s0 | e s0];
        [| discriminate Hs'].
      rewrite Hs'. unfold handleKeyDown. rewrite Hopen. reflexivity. }
  rewrite E. auto.
Qed.

Lemma activation_opens_at_once_witness :
  Reachable demoPage demoArmedState
  /\ overlay demoPage = Some demoOverlay
  /\ projectsData demoPage <> []
  /\ activatesAtOnce 0 (KeyOnGridButton 0 Space) = true
  /\ armedItems demoArmedState = [2]
  /\ overlayState (step demoPage demoArmedState (KeyOnGridButton 0 Space))
     = mkOverlayState true 0%Z (activeElement demoArmedState).
Proof.
  assert (Hreach : Reachable demoPage demoArmedState)
    by (apply reach_step, reach_init).
  assert (Hov : overlay demoPage = Some demoOverlay) by reflexivity.
  assert (Hne : projectsData demoPage <> []) by discriminate.
  assert (Hev : activatesAtOnce 0 (KeyOnGridButton 0 Space) = true) by reflexivity.
  split; [exact Hreach |]. split; [exact Hov |]. split; [exact Hne |].
  split; [exact Hev |]. split; [reflexivity |].
  apply (activation_opens_at_once demoPage demoOverlay demoArmedState 0 _
           Hreach Hov Hne Hev).
Defined.

(** X14: a grid button whose index has no [.grid-item] container cannot be
    opened by tapping: in arm-then-open mode every tap on it disarms what
    was armed and arms nothing, so no number of taps opens its project or
    changes the document. *)
Theorem tile_without_container_never_opens (pg : Page) (s : State) (j n : nat)
    (Hreach : Reachable pg s)
    (Hj : gridItemContainers pg <= j)
    (Hn : 0 < n) :
  let s' := steps pg (repeat (ClickGridButton j false) n) s in
  docView s' = docView s /\ Disarmed s'.
Proof.
  pose proof (Reachable_Inv pg s Hreach) as HI.
  assert (Hnone : gridItemAt pg (Z.of_nat j) = None).
  { unfold gridItemAt.
    destruct (Z.ltb_spec (Z.of_nat j) (Z.of_nat (gridItemContainers pg))); [lia |].
    rewrite andb_false_r. reflexivity. }
  assert (Hnot : forall s0, Inv pg s0 -> armedGridIndex s0 <> Z.of_nat j).
  { intros s0 [_ [(A & _) | (k & id & A & B & _)] _]; rewrite A; lia. }
  assert (Hone : forall s0, Inv pg s0 ->
            step pg s0 (ClickGridButton j false) = clearArmedGridItem pg s0).
  { intros s0 H0. unfold step. cbn [handle].
    destruct (Z.eqb_spec (armedGridIndex s0) (Z.of_nat j)) as [E |];
      [exfalso; exact (Hnot s0 H0 E) |].
    cbn [run stateOf]. unfold armGridItem. rewrite Hnone. reflexivity. }
  assert (Hall : forall m s0, Inv pg s0 ->
            docView (steps pg (repeat (ClickGridButton j false) m) s0) = docView s0
            /\ Inv pg (steps pg (repeat (ClickGridButton j false) m) s0)
            /\ (0 < m ->
                Disarmed (steps pg (repeat (ClickGridButton j false) m) s0))).
  { unfold steps. induction m as [| m IH]; intros s0 H0.
    - cbn. split; [reflexivity |]. split; [exact H0 | lia].
    - cbn [repeat fold_left]. rewrite (Hone s0 H0).
      pose proof (clearArmedGridItem_Inv pg s0 H0) as H1.
      destruct (IH _ H1) as (D & I & Dis).
      split; [rewrite D; apply clearArmedGridItem_docView |].
      split; [exact I |]. intros _.
      destruct m as [| m']; [cbn; apply clearArmedGridItem_Disarmed, H0 |].
      apply Dis. lia. }
  intros s'. destruct (Hall n s HI) as (D & _ & Dis). auto.
Qed.

Lemma tile_without_container_never_opens_witness :
  Reachable demoPage demoArmedState
  /\ gridItemContainers demoPage <= 3
  /\ 0 < 2
  /\ isOverlayOpen
       (steps demoPage (repeat (ClickGridButton 3 false) 2) demoArmedState)
     = isOverlayOpen demoArmedState
  /\ armedItems
       (steps demoPage (repeat (ClickGridButton 3 false) 2) demoArmedState) = [].
Proof.
  assert (Hreach : Reachable demoPage demoArmedState)
    by (apply reach_step, reach_init).
  assert (Hj : gridItemContainers demoPage <= 3) by (cbn; lia).
  assert (Hn : 0 < 2) by lia.
  split; [exact Hreach |]. split; [exact Hj |]. split; [exact Hn |].
  destruct (tile_without_container_never_opens demoPage demoArmedState 3 2
              Hreach Hj Hn) as (D & (_ & _ & C & _)).
  split; [| exact C].
  exact (f_equal (fun '(_, o, _, _, _, _, _, _, _, _, _, _) => o) D).
Defined.

(** ** Deep-link keys *)

(** The code units [normalizeProjectKey] lets through. *)
Definition isKeyChar (c : ascii) : bool := Js.isLower c || Js.isDigit c.

Fixpoint allChars (f : ascii -> bool) (s : string) : bool :=
  match s with
  | EmptyString => true
  | String c t => f c && allChars f t
  end.

Lemma keepAlnum_keyChars (s : string) : allChars isKeyChar (keepAlnum s) = true.
Proof.
  induction s as [| c t IH]; [reflexivity |]. cbn [keepAlnum].
  destruct (Js.isLower c || Js.isDigit c) eqn:E; [| exact IH].
  cbn [allChars]. rewrite IH. unfold isKeyChar. rewrite E. reflexivity.
Qed.

(** The cases of a code unit, one by one. *)
Ltac each_code_unit c :=
  destruct c as [[|] [|] [|] [|] [|] [|] [|] [|]]; vm_compute.

Lemma isKeyChar_lowerChar (c : ascii) : isKeyChar c = true -> Js.lowerChar c = c.
Proof. each_code_unit c; intros H; try discriminate H; reflexivity. Qed.

Lemma isKeyChar_not_ampersand (c : ascii) :
  isKeyChar c = true -> Ascii.eqb c "&"%char = false.
Proof.
  intros H. destruct (Ascii.eqb_spec c "&"%char) as [-> |]; [| reflexivity].
  discriminate H.
Qed.

Lemma keyChars_fixed (s : string) :
  allChars isKeyChar s = true ->
  keepAlnum (replaceAmpersand (Js.toLowerCase s)) = s.
Proof.
  induction s as [| c t IH]; [reflexivity |]. cbn. intros H.
  apply andb_true_iff in H. destruct H as [Hc Ht].
  rewrite (isKeyChar_lowerChar c Hc).
  rewrite (isKeyChar_not_ampersand c Hc). cbn.
  unfold isKeyChar in Hc. rewrite Hc.
  fold (Js.toLowerCase t). rewrite (IH Ht). reflexivity.
Qed.

(** X15: a normalized key is made of the code units [a-z0-9] only, and
    normalizing it again gives the same key. *)
Theorem normalizeProjectKey_idempotent (value : Js.Value) :
  allChars isKeyChar (normalizeProjectKey value) = true
  /\ normalizeProjectKey (Js.Str (normalizeProjectKey value))
     = normalizeProjectKey value.
Proof.
  split; [apply keepAlnum_keyChars |].
  unfold normalizeProjectKey at 1. cbn [Js.stringOrEmpty].
  apply keyChars_fixed, keepAlnum_keyChars.
Qed.

Lemma toLowerCase_app (a b : string) :
  Js.toLowerCase (a ++ b) = (Js.toLowerCase a ++ Js.toLowerCase b)%string.
Proof.
  induction a as [| c t IH]; [reflexivity |].
  cbn. fold (Js.toLowerCase (t ++ b)) (Js.toLowerCase t). rewrite IH. reflexivity.
Qed.

Lemma replaceAmpersand_app (a b : string) :
  replaceAmpersand (a ++ b) = (replaceAmpersand a ++ replaceAmpersand b)%string.
Proof.
  induction a as [| c t IH]; [reflexivity |].
  cbn. rewrite IH. destruct (Ascii.eqb c "&"%char); reflexivity.
Qed.

Lemma keepAlnum_app (a b : string) :
  keepAlnum (a ++ b) = (keepAlnum a ++ keepAlnum b)%string.
Proof.
  induction a as [| c t IH]; [reflexivity |].
  cbn. rewrite IH. destruct (Js.isLower c || Js.isDigit c); reflexivity.
Qed.

Lemma normalizeProjectKey_app (a b : string) :
  normalizeProjectKey (Js.Str (a ++ b))
  = (normalizeProjectKey (Js.Str a) ++ normalizeProjectKey (Js.Str b))%string.
Proof.
  unfold normalizeProjectKey. cbn [Js.stringOrEmpty].
  rewrite toLowerCase_app, replaceAmpersand_app, keepAlnum_app. reflexivity.
Qed.

(** A code unit that leaves no trace in a key: not a letter, not a digit
    and not the ampersand. *)
Definition isSeparator (c : ascii) : bool :=
  negb (Js.isUpper c || Js.isLower c || Js.isDigit c || Ascii.eqb c "&"%char).

Lemma isSeparator_lowerChar (c : ascii) :
  isSeparator c = true ->
  Ascii.eqb (Js.lowerChar c) "&"%char = false
  /\ Js.isLower (Js.lowerChar c) || Js.isDigit (Js.lowerChar c) = false.
Proof. each_code_unit c; intros H; try discriminate H; split; reflexivity. Qed.

Lemma separators_vanish (sep : string) :
  allChars isSeparator sep = true -> normalizeProjectKey (Js.Str sep) = EmptyString.
Proof.
  unfold normalizeProjectKey. cbn [Js.stringOrEmpty].
  induction sep as [| c t IH]; [reflexivity |]. intros H.
  cbn [allChars] in H. apply andb_true_iff in H. destruct H as [Hc Ht].
  destruct (isSeparator_lowerChar c Hc) as (Hamp & Hkey).
  cbn [Js.toLowerCase Js.mapChars replaceAmpersand]. rewrite Hamp.
  cbn [keepAlnum]. rewrite Hkey. apply IH, Ht.
Qed.

(** X16: separators do not count in a key: text between two parts that
    holds no letter, digit or ampersand (spaces, dashes, dots, ...) can be
    dropped or replaced by other such text, and the ampersand counts as the
    word [and]. *)
Theorem key_ignores_separators (a b sep sep' : string)
    (Hsep : allChars isSeparator sep = true)
    (Hsep' : allChars isSeparator sep' = true) :
  normalizeProjectKey (Js.Str (a ++ sep ++ b))
  = normalizeProjectKey (Js.Str (a ++ sep' ++ b))
  /\ normalizeProjectKey (Js.Str (a ++ "&" ++ b))
     = normalizeProjectKey (Js.Str (a ++ sep ++ "and" ++ sep' ++ b)).
Proof.
  rewrite !normalizeProjectKey_app, !(separators_vanish _ Hsep),
    !(separators_vanish _ Hsep').
  split; reflexivity.
Qed.

Lemma key_ignores_separators_witness :
  allChars isSeparator " - " = true
  /\ allChars isSeparator "_" = true
  /\ normalizeProjectKey (Js.Str ("Cafe" ++ " - " ++ "Bar"))
     = normalizeProjectKey (Js.Str ("Cafe" ++ "_" ++ "Bar"))
  /\ normalizeProjectKey (Js.Str ("Cafe" ++ "&" ++ "Bar")) = "cafeandbar".
Proof.
  assert (H1 : allChars isSeparator " - " = true) by reflexivity.
  assert (H2 : allChars isSeparator "_" = true) by reflexivity.
  split; [exact H1 |]. split; [exact H2 |].
  destruct (key_ignores_separators "Cafe" "Bar" " - " "_" H1 H2) as [Ha Hb].
  split; [exact Ha |]. rewrite Hb. reflexivity.
Defined.

Lemma findIndexFrom_found {A : Type} (pred : A -> bool) (l : list A) (z r : Z) :
  findIndexFrom pred l z = r -> (0 <= z)%Z -> (0 <= r)%Z ->
  exists i x, r = (z + Z.of_nat i)%Z /\ FirstAt pred l i x.
Proof.
  revert z. induction l as [| y l IH]; intros z H Hz Hr; cbn in H; [lia |].
  destruct (pred y) eqn:Hy.
  - exists 0, y. split; [lia |]. split; [reflexivity |]. split; [exact Hy |].
    intros j q Hj. lia.
  - destruct (IH (z + 1)%Z H ltac:(lia) Hr) as (i & x & Hi & Hn & Hp & Hb).
    exists (S i), x. split; [lia |]. split; [exact Hn |]. split; [exact Hp |].
    intros [| j] q Hj Hq; cbn in Hq.
    + injection Hq as <-. exact Hy.
    + apply (Hb j q); [lia | exact Hq].
Qed.

Lemma findIndexFrom_missing {A : Type} (pred : A -> bool) (l : list A) (z : Z) :
  (0 <= z)%Z -> findIndexFrom pred l z = (-1)%Z ->
  forall x, In x l -> pred x = false.
Proof.
  revert z. induction l as [| y l IH]; intros z Hz H x Hx; [destruct Hx |].
  cbn in H. destruct (pred y) eqn:Hy; [lia |].
  destruct Hx as [<- | Hx]; [exact Hy |].
  apply (IH (z + 1)%Z); [lia | exact H | exact Hx].
Qed.

(** X17: what [findProjectIndexFromParam] returns is [-1] or the index of
    a record of the list: the first one with a key whose normalization is
    that of the parameter.  It is [-1] exactly when the parameter
    normalizes to the empty string or no record has such a key. *)
Theorem findProjectIndexFromParam_sound (projects : list Project)
    (param : option string) :
  let key := normalizeProjectKey (Js.ofOption param) in
  let r := findProjectIndexFromParam projects param in
  (r = (-1)%Z
   /\ (key = EmptyString
       \/ forall record, In record projects -> keyMatches key record = false))
  \/ (key <> EmptyString
      /\ exists i record,
           r = Z.of_nat i
           /\ i < List.length projects
           /\ FirstAt (keyMatches key) projects i record).
Proof.
  cbn zeta. unfold findProjectIndexFromParam.
  set (key := normalizeProjectKey (Js.ofOption param)).
  destruct key as [| c t] eqn:Hkey; [left; auto |]. cbn [Js.isEmpty].
  rewrite <- Hkey. unfold findIndex.
  destruct (Z.ltb_spec (findIndexFrom (keyMatches key) projects 0) 0) as [Hlt | Hge].
  - left.
    assert (Hm : findIndexFrom (keyMatches key) projects 0 = (-1)%Z).
    { assert (G : forall l z, (0 <= z)%Z ->
                (findIndexFrom (keyMatches key) l z = -1
                 \/ z <= findIndexFrom (keyMatches key) l z)%Z).
      { induction l as [| y l IH]; intros z Hz; cbn [findIndexFrom]; [left; reflexivity |].
        destruct (keyMatches key y); [right; lia |].
        destruct (IH (z + 1)%Z ltac:(lia)); [left; assumption | right; lia]. }
      destruct (G projects 0%Z (Z.le_refl 0)); [assumption | lia]. }
    split; [exact Hm |]. right.
    apply (findIndexFrom_missing _ _ 0%Z); [lia | exact Hm].
  - right. split; [rewrite Hkey; discriminate |].
    destruct (findIndexFrom_found (keyMatches key) projects 0%Z _ eq_refl
                (Z.le_refl 0) Hge) as (i & x & Hi & Hfirst).
    exists i, x. split; [lia |]. split; [| exact Hfirst].
    destruct Hfirst as (Hn & _). apply nth_error_Some. congruence.
Qed.

Lemma findIndexFrom_range {A : Type} (pred : A -> bool) (l : list A) (z : Z) :
  findIndexFrom pred l z = (-1)%Z
  \/ exists i x, findIndexFrom pred l z = (z + Z.of_nat i)%Z /\ nth_error l i = Some x.
Proof.
  revert z. induction l as [| y l IH]; intros z; cbn [findIndexFrom]; [left; reflexivity |].
  destruct (pred y).
  - right. exists 0, y. split; [lia | reflexivity].
  - destruct (IH (z + 1)%Z) as [H | (i & x & H & Hn)]; [left; exact H |].
    right. exists (S i), x. split; [lia | exact Hn].
Qed.

Lemma findProjectIndexFromParam_range (projects : list Project)
    (param : option string) :
  findProjectIndexFromParam projects param = (-1)%Z
  \/ exists i record,
       findProjectIndexFromParam projects param = Z.of_nat i
       /\ nth_error projects i = Some record.
Proof.
  unfold findProjectIndexFromParam, findIndex.
  destruct (Js.isEmpty _); [left; reflexivity |].
  destruct (findIndexFrom_range
              (keyMatches (normalizeProjectKey (Js.ofOption param))) projects 0%Z)
    as [H | (i & x & H & Hn)]; [left; exact H |].
  right. exists i, x. split; [rewrite H; lia | exact Hn].
Qed.

(** X18: the deep link never opens a record that is not there: on a page
    with the overlay element and at least one project, whatever the query
    says, once the first animation frame has passed the overlay is closed
    and the state is the initial one, or it is open at a valid index with
    that record in the detail view. *)
Theorem deep_link_index_in_range (pg : Page) (ov : OverlayEl)
    (projectParam autopopup : option string) (focused : option Element)
    (Hov : overlay pg = Some ov)
    (Hne : projectsData pg <> []) :
  let s' := stateOf (runFrame pg (pageLoaded pg projectParam autopopup focused)) in
  s' = initialState focused
  \/ (isOverlayOpen s' = true
      /\ exists record,
           at_ (projectsData pg) (currentProjectIndex s') = Some record
           /\ (has_detail ov = true -> detail s' = Some (renderDetail record))).
Proof.
  cbn zeta.
  assert (Hopen : forall i record,
            at_ (projectsData pg) i = Some record ->
            let s' := stateOf (runFrame pg (requestAnimationFrame (RunOpenProject i)
                                              (initialState focused))) in
            isOverlayOpen s' = true
            /\ exists record,
                 at_ (projectsData pg) (currentProjectIndex s') = Some record
                 /\ (has_detail ov = true -> detail s' = Some (renderDetail record))).
  { intros i record Hat s'.
    pose proof (runFrame_open pg ov i focused Hov Hne) as (Hst & Hd).
    fold s' in Hst, Hd.
    assert (Ho : isOverlayOpen s' = true) by exact (f_equal isOpen Hst).
    assert (Hc : currentProjectIndex s' = i) by exact (f_equal currentIndex Hst).
    split; [exact Ho |]. exists record. rewrite Hc. split; [exact Hat |].
    intros Hdet. rewrite Hd. unfold detailAfterMove. rewrite Hat, Hdet. reflexivity. }
  assert (Hzero : exists p0, at_ (projectsData pg) 0%Z = Some p0).
  { destruct (projectsData pg) as [| p0 ps]; [congruence |]. exists p0. reflexivity. }
  unfold pageLoaded, openProjectFromQueryParam. rewrite Hov.
  destruct (isNil (projectsData pg)) eqn:Hnil.
  { destruct (projectsData pg); [congruence | discriminate]. }
  set (forceOpen := match autopopup with
                    | Some v => String.eqb v "1"
                    | None => false
                    end).
  destruct (negb (Js.truthy projectParam) && negb forceOpen);
    [left; reflexivity |].
  destruct (findProjectIndexFromParam_range (projectsData pg) projectParam)
    as [Hr | (i & record & Hr & Hn)]; rewrite Hr.
  - cbn [Z.ltb Z.compare].
    destruct forceOpen; cbn [negb]; [| left; reflexivity].
    right. destruct Hzero as (p0 & H0). apply (Hopen 0%Z p0 H0).
  - destruct (Z.ltb_spec (Z.of_nat i) 0); [lia |].
    right. apply (Hopen (Z.of_nat i) record).
    unfold at_. destruct (Z.ltb_spec (Z.of_nat i) 0); [lia |].
    rewrite Nat2Z.id. exact Hn.
Qed.

Lemma deep_link_index_in_range_witness :
  overlay demoPage = Some demoOverlay
  /\ projectsData demoPage <> []
  /\ exists record,
       at_ (projectsData demoPage)
           (currentProjectIndex
              (stateOf (runFrame demoPage
                          (pageLoaded demoPage (Some "no such project") (Some "1")
                                      None))))
       = Some record.
Proof.
  assert (Hov : overlay demoPage = Some demoOverlay) by reflexivity.
  assert (Hne : projectsData demoPage <> []) by discriminate.
  split; [exact Hov |]. split; [exact Hne |].
  destruct (deep_link_index_in_range demoPage demoOverlay (Some "no such project")
              (Some "1") None Hov Hne) as [H | (_ & record & H & _)].
  - exists (bareProject "Alpha"). rewrite H. reflexivity.
  - exists record. exact H.
Defined.

(** ** Hero images: the preload cache and the preload sequence *)

Lemma at_In {A : Type} (l : list A) (i : Z) (x : A) : at_ l i = Some x -> In x l.
Proof.
  unfold at_. destruct (i <? 0)%Z; [discriminate |]. apply nth_error_In.
Qed.

Lemma basePath_not_empty (pg : Page) (project : Project) :
  Js.isEmpty (getProjectImageBasePath pg (Some project)) = false.
Proof.
  unfold getProjectImageBasePath.
  destruct (includesText "drawings" (pathname pg)); [reflexivity |].
  destruct (includesText "graphics" (pathname pg)); reflexivity.
Qed.

(** X19: [preloadProjectHeroImage] starts at most one preload per base
    path: it adds the path of a given project to the cache unless it is
    there, keeps what the cache holds, adds nothing for a missing project,
    and a second call for the same project changes nothing. *)
Theorem preloadProjectHeroImage_once (pg : Page) (project : option Project)
    (s : State)
    (Hnd : NoDup (heroImagePreloadCache s)) :
  let s' := preloadProjectHeroImage pg project s in
  let basePath := getProjectImageBasePath pg project in
  NoDup (heroImagePreloadCache s')
  /\ heroImagePreloadCache s'
     = (if Js.isEmpty basePath || includes basePath (heroImagePreloadCache s)
        then heroImagePreloadCache s
        else heroImagePreloadCache s ++ [basePath])
  /\ (project = None -> s' = s)
  /\ (project <> None -> In basePath (heroImagePreloadCache s'))
  /\ preloadProjectHeroImage pg project s' = s'.
Proof.
  cbn zeta. unfold preloadProjectHeroImage.
  set (basePath := getProjectImageBasePath pg project).
  destruct (Js.isEmpty basePath) eqn:He; cbn [orb].
  - rewrite ?He. split; [exact Hnd |]. split; [reflexivity |].
    split; [reflexivity |]. split; [| reflexivity].
    intros Hp. destruct project as [p |]; [| congruence].
    unfold basePath in He. rewrite basePath_not_empty in He. discriminate.
  - destruct (includes basePath (heroImagePreloadCache s)) eqn:Hin.
    + rewrite ?He, ?Hin. split; [exact Hnd |]. split; [reflexivity |].
      split; [reflexivity |]. split; [| reflexivity].
      intros _. apply includes_In, Hin.
    + assert (Hnew : includes basePath (heroImagePreloadCache s ++ [basePath]) = true).
      { apply includes_In, in_or_app. right. left. reflexivity. }
      cbn [heroImagePreloadCache set_heroImagePreloadCache].
      rewrite ?He, ?Hnew.
      split.
      { apply NoDup_app; [exact Hnd | repeat constructor; intros [] |].
        intros x Hx [<- | []].
        apply includes_In in Hx. congruence. }
      split; [reflexivity |].
      split; [intros ->; discriminate He |].
      split; [intros _; apply in_or_app; right; left; reflexivity | reflexivity].
Qed.

Lemma preloadProjectHeroImage_once_witness :
  NoDup (heroImagePreloadCache demoOpenState)
  /\ heroImagePreloadCache
       (preloadProjectHeroImage demoPage (Some (bareProject "Beta")) demoOpenState)
     = heroImagePreloadCache demoOpenState
  /\ heroImagePreloadCache
       (preloadProjectHeroImage demoPage (Some (bareProject "Gamma")) demoOpenState)
     = ["images/projects/beta"; "images/projects/gamma"].
Proof.
  assert (Hnd : NoDup (heroImagePreloadCache demoOpenState)).
  { vm_compute. repeat constructor. intros []. }
  split; [exact Hnd |].
  destruct (preloadProjectHeroImage_once demoPage (Some (bareProject "Beta"))
              demoOpenState Hnd) as (_ & H1 & _).
  destruct (preloadProjectHeroImage_once demoPage (Some (bareProject "Gamma"))
              demoOpenState Hnd) as (_ & H2 & _).
  split; [rewrite H1; reflexivity | rewrite H2; reflexivity].
Defined.

(** The cache holds base paths of records of the list, each once. *)
Definition CacheOk (pg : Page) (s : State) : Prop :=
  NoDup (heroImagePreloadCache s)
  /\ forall basePath,
       In basePath (heroImagePreloadCache s) ->
       exists record,
         In record (projectsData pg)
         /\ basePath = getProjectImageBasePath pg (Some record).

Lemma preloadProjectHeroImage_CacheOk (pg : Page) (project : option Project)
    (s : State) :
  (forall record, project = Some record -> In record (projectsData pg)) ->
  CacheOk pg s -> CacheOk pg (preloadProjectHeroImage pg project s).
Proof.
  intros Hrec [Hnd Hall]. unfold CacheOk, preloadProjectHeroImage.
  destruct project as [record |]; [| split; assumption].
  rewrite basePath_not_empty.
  destruct (includes _ (heroImagePreloadCache s)) eqn:Hin; [split; assumption |].
  cbn [heroImagePreloadCache set_heroImagePreloadCache]. split.
  - apply NoDup_app; [exact Hnd | repeat constructor; intros [] |].
    intros x Hx [<- | []]. apply includes_In in Hx. congruence.
  - intros b Hb. apply in_app_or in Hb. destruct Hb as [Hb | [<- | []]];
      [apply Hall, Hb |].
    exists record. split; [apply Hrec; reflexivity | reflexivity].
Qed.

Lemma preloadHero_CacheOk (pg : Page) (index : nat) (s : State) :
  CacheOk pg s -> CacheOk pg (preloadHero pg index s).
Proof.
  intros H. unfold preloadHero.
  destruct (nth_error (projectsData pg) index) as [project |] eqn:E; [| exact H].
  apply preloadProjectHeroImage_CacheOk; [| exact H].
  intros record [= <-]. apply (nth_error_In _ _ E).
Qed.

Lemma CacheOk_kept (pg : Page) : KeptBy pg (CacheOk pg).
Proof.
  assert (Hsame : forall s s',
            heroImagePreloadCache s' = heroImagePreloadCache s ->
            CacheOk pg s -> CacheOk pg s').
  { intros s s' E H. unfold CacheOk. rewrite E. exact H. }
  apply KeptBy_document.
  - intros s s' H. apply Hsame. unfold docView in H.
    injection H as _ _ _ H4 _ _ _ _ _ _ _ _. exact H4.
  - intros focused. split; [constructor | intros b []].
  - intros s callback. apply Hsame. reflexivity.
  - intros s index _ H.
    destruct (openProject_ends pg index s) as [(_ & ->) | (ov & Hov & Hne)];
      [exact H |].
    destruct (openProject_effect pg ov index s Hov Hne)
      as (s' & -> & _ & _ & _ & _ & _ & _ & _ & _ & _ & _ & Hc & _).
    cbn [stateOf].
    apply (Hsame (preloadProjectHeroImage pg (at_ (projectsData pg) index) s));
      [exact Hc |].
    apply preloadProjectHeroImage_CacheOk; [| exact H].
    intros record. apply at_In.
  - intros s _ H.
    destruct (closeOverlay_effect pg s)
      as (s' & -> & _ & _ & _ & _ & _ & _ & _ & [Hc | (index & Hc)] & _);
      cbn [stateOf].
    + apply (Hsame s); assumption.
    + apply (Hsame (preloadHero pg index s)); [exact Hc |].
      apply preloadHero_CacheOk, H.
  - intros s _.
    destruct (goToPrevProject_ends pg s)
      as [-> | [(ov & s' & _ & _ & -> & Hm) | (Hov & _ & e & ->)]]; cbn [stateOf].
    + auto.
    + apply Hsame. apply Hm.
    + apply Hsame. reflexivity.
  - intros s _.
    destruct (goToNextProject_ends pg s)
      as [-> | [(ov & s' & _ & _ & -> & Hm) | (Hov & _ & e & ->)]]; cbn [stateOf].
    + auto.
    + apply Hsame. apply Hm.
    + apply Hsame. reflexivity.
  - intros s lang. apply Hsame. reflexivity.
  - intros s target. apply Hsame. reflexivity.
  - intros s index H. apply preloadHero_CacheOk, H.
  - intros s. apply Hsame. reflexivity.
Qed.

(** X20: in every state the page can be in, the preload cache holds no
    base path twice, and every entry is the base path of a record of the
    project list: opening an index that has no record caches nothing, and
    the cache never holds more entries than there are records.  The
    writers of the cache are all among the events: [openProject], the
    [pointerenter], [focus] and [touchstart] listeners of the grid buttons
    (a [focus()] of the script on a grid button included), and the preloads
    [primeInitialHeroImages] schedules. *)
Theorem hero_cache_of_records (pg : Page) (s : State)
    (Hreach : Reachable pg s) :
  NoDup (heroImagePreloadCache s)
  /\ (forall basePath,
        In basePath (heroImagePreloadCache s) ->
        exists record,
          In record (projectsData pg)
          /\ basePath = getProjectImageBasePath pg (Some record))
  /\ List.length (heroImagePreloadCache s) <= List.length (projectsData pg).
Proof.
  destruct (Reachable_kept pg (CacheOk pg) (CacheOk_kept pg) s Hreach) as [Hnd Hall].
  split; [exact Hnd |]. split; [exact Hall |].
  rewrite <- (length_map (fun record => getProjectImageBasePath pg (Some record))
                (projectsData pg)).
  apply NoDup_incl_length; [exact Hnd |].
  intros b Hb. destruct (Hall b Hb) as (record & Hin & ->).
  apply (in_map (fun record => getProjectImageBasePath pg (Some record))).
  exact Hin.
Qed.

(** The demo page after the two primed preloads, a pointer entering the
    third grid button, the focus landing on it and a click that opens it. *)
Definition demoPreloadedState : State :=
  steps demoPage
        [PrimedHeroPreload 0; PrimedHeroPreload 1; PointerOnGridButton 2;
         FocusMoves (Some (GridButton 2)); ClickGridButton 2 true]
        (pageLoaded demoPage None None (Some Body)).

Lemma hero_cache_of_records_witness :
  Reachable demoPage demoPreloadedState
  /\ heroImagePreloadCache
       (steps demoPage [PrimedHeroPreload 0; FocusMoves (Some (GridButton 2))]
              (pageLoaded demoPage None None (Some Body)))
     = [getProjectImageBasePath demoPage (Some (bareProject "Alpha"));
        getProjectImageBasePath demoPage (Some (bareProject "Gamma"))]
  /\ List.length (heroImagePreloadCache demoPreloadedState) = 3
  /\ NoDup (heroImagePreloadCache demoPreloadedState).
Proof.
  assert (Hreach : Reachable demoPage demoPreloadedState)
    by (unfold demoPreloadedState, steps; cbn [fold_left];
        do 5 apply reach_step; apply reach_init).
  split; [exact Hreach |]. split; [reflexivity |]. split; [reflexivity |].
  exact (proj1 (hero_cache_of_records demoPage _ Hreach)).
Defined.

Lemma append_inj_l (b x y : string) : (b ++ x = b ++ y)%string -> x = y.
Proof.
  induction b as [| c b IH]; cbn; [auto |]. intros [= H]. apply IH, H.
Qed.

Lemma NoDup_map_append (b : string) (l : list string) :
  NoDup l -> NoDup (map (String.append b) l).
Proof.
  induction 1 as [| x l Hx Hnd IH]; cbn; constructor; [| exact IH].
  intros Hin. apply in_map_iff in Hin. destruct Hin as (y & Hy & Hin).
  apply append_inj_l in Hy. subst y. exact (Hx Hin).
Qed.

(** The file names of [getProjectHeroCandidates], in its order. *)
Definition heroFileNames : list string :=
  ["/main.jpg"; "/main.webp"; "/cover.jpg"; "/cover.webp"; "/thumb.jpg";
   "/thumb.webp"].

Lemma getProjectHeroCandidates_names (pg : Page) (project : Project) :
  getProjectHeroCandidates pg (Some project)
  = map (String.append (getProjectImageBasePath pg (Some project))) heroFileNames.
Proof.
  unfold getProjectHeroCandidates. rewrite basePath_not_empty. reflexivity.
Qed.

Lemma searchInOrder_attempts (loads : string -> bool) (l : list string) :
  NoDup l ->
  NoDup (fst (searchInOrder loads l))
  /\ List.length (fst (searchInOrder loads l)) <= List.length l.
Proof.
  intros Hnd. destruct (searchInOrder_spec loads l) as (_ & (untried & Hl) & _).
  split.
  - rewrite Hl in Hnd. apply NoDup_app_remove_r in Hnd. exact Hnd.
  - rewrite Hl at 2. rewrite length_app. lia.
Qed.

(** X21: the preload of a project's hero image, as
    [preloadProjectHeroImage] starts it, requests at most six URLs and no
    URL twice, whatever the network answers.  It resolves with the first of
    the six candidates that loads (the last URL it requested), or with the
    empty string after all six have failed. *)
Theorem hero_preload_sequence (loads : string -> bool) (pg : Page)
    (project : Project) :
  let candidates := getProjectHeroCandidates pg (Some project) in
  let p := preloadImageSequence loads candidates in
  List.length candidates = 6
  /\ NoDup candidates
  /\ NoDup (attempts p)
  /\ List.length (attempts p) <= 6
  /\ ((outcome p = EmptyString
       /\ attempts p = candidates
       /\ Forall (fun u => loads u = false) candidates)
      \/ (loads (outcome p) = true
          /\ In (outcome p) candidates
          /\ find loads candidates = Some (outcome p)
          /\ exists failed, attempts p = failed ++ [outcome p]
                            /\ Forall (fun u => loads u = false) failed)).
Proof.
  cbn zeta. rewrite getProjectHeroCandidates_names.
  set (candidates := map _ heroFileNames).
  assert (Hlen : List.length candidates = 6) by reflexivity.
  assert (Hnd : NoDup candidates).
  { apply NoDup_map_append. unfold heroFileNames.
    repeat (constructor; [cbn; intuition discriminate |]). constructor. }
  assert (Hp : preloadImageSequence loads candidates = tryLoad loads candidates 0)
    by reflexivity.
  rewrite Hp, tryLoad_search. cbn [skipn attempts outcome].
  destruct (searchInOrder_attempts loads candidates Hnd) as (Hnd' & Hle).
  split; [exact Hlen |]. split; [exact Hnd |]. split; [exact Hnd' |].
  split; [lia |].
  destruct (searchInOrder_spec loads candidates) as (Hs & _ & Hfind).
  rewrite Hs. destruct (find loads candidates) as [u |] eqn:Hf.
  - right. destruct Hfind as (Hu & failed & Hatt & Hall).
    split; [exact Hu |]. split; [apply (find_some _ _ Hf) |].
    split; [reflexivity |]. exists failed. auto.
  - left. destruct Hfind as (Hatt & Hall). auto.
Qed.

(** ** Thumbnails *)

(** No entry is the empty string. *)
Definition NonEmptyUrls (l : list string) : Prop :=
  Forall (fun u => Js.isEmpty u = false) l.

Lemma pushCandidate_ok (url : string) (l : list string) :
  NoDup l -> NonEmptyUrls l ->
  NoDup (pushCandidate url l)
  /\ NonEmptyUrls (pushCandidate url l)
  /\ List.length (pushCandidate url l) <= S (List.length l).
Proof.
  intros Hnd Hne. unfold pushCandidate.
  destruct (Js.isEmpty url) eqn:He; cbn [orb];
    [split; [exact Hnd | split; [exact Hne | lia]] |].
  destruct (includes url l) eqn:Hin;
    [split; [exact Hnd | split; [exact Hne | lia]] |].
  split; [| split].
  - apply NoDup_app; [exact Hnd | repeat constructor; intros [] |].
    intros x Hx [<- | []]. apply includes_In in Hx. congruence.
  - apply Forall_app. split; [exact Hne | repeat constructor; exact He].
  - rewrite length_app. cbn. lia.
Qed.

Lemma pushCandidates_ok (url : option string) (l : list string) :
  NoDup l -> NonEmptyUrls l ->
  NoDup (pushCandidates url l)
  /\ NonEmptyUrls (pushCandidates url l)
  /\ List.length (pushCandidates url l) <= 2 + List.length l.
Proof.
  intros Hnd Hne. unfold pushCandidates.
  destruct (negb (Js.truthy url));
    [split; [exact Hnd | split; [exact Hne | lia]] |].
  destruct (isWebpUrl (Js.orEmpty url)).
  - destruct (pushCandidate_ok (Js.orEmpty url) l Hnd Hne) as (A & B & C).
    destruct (pushCandidate_ok (webpToJpg (Js.orEmpty url)) _ A B) as (A' & B' & C').
    split; [exact A' |]. split; [exact B' | lia].
  - destruct (pushCandidate_ok (getWebpUrl (Js.orEmpty url)) l Hnd Hne) as (A & B & C).
    destruct (pushCandidate_ok (Js.orEmpty url) _ A B) as (A' & B' & C').
    split; [exact A' |]. split; [exact B' | lia].
Qed.

Lemma thumbnailCandidates_ok (thumb : Thumb) :
  NoDup (thumbnailCandidates thumb)
  /\ NonEmptyUrls (thumbnailCandidates thumb)
  /\ List.length (thumbnailCandidates thumb) <= 4.
Proof.
  unfold thumbnailCandidates.
  destruct (pushCandidates_ok (data_thumb thumb) [] (NoDup_nil _) (Forall_nil _))
    as (A & B & C).
  destruct (pushCandidates_ok (data_cover thumb) _ A B) as (A' & B' & C').
  split; [exact A' |]. split; [exact B' |]. cbn in C. lia.
Qed.

(** X22: every thumbnail of the grid settles, whatever the network does.
    It ends with the class [loaded]; at most four URLs are requested for
    it, none of them empty and none twice; on a small screen a thumbnail
    that has an inline image already causes no request at all.  The
    background image is left as it was or is a URL that loaded, the last
    one requested; and the placeholder class is added only after every
    candidate has failed. *)
Theorem thumbnail_settles (loads : string -> bool) (isMobile : bool)
    (thumb : Thumb) :
  let r := handleThumbnail loads isMobile thumb in
  class_loaded (outcome r) = true
  /\ NoDup (attempts r)
  /\ NonEmptyUrls (attempts r)
  /\ List.length (attempts r) <= 4
  /\ (isMobile = true -> backgroundImage thumb <> None ->
      attempts r = [] /\ backgroundImage (outcome r) = backgroundImage thumb)
  /\ ((backgroundImage (outcome r) = backgroundImage thumb
       /\ Forall (fun u => loads u = false) (attempts r))
      \/ exists failed u,
           attempts r = failed ++ [u]
           /\ loads u = true
           /\ Forall (fun x => loads x = false) failed
           /\ backgroundImage (outcome r) = Some u
           /\ class_placeholder (outcome r) = class_placeholder thumb)
  /\ (class_placeholder (outcome r) = true ->
      class_placeholder thumb = true
      \/ (attempts r = thumbnailCandidates thumb
          /\ Forall (fun u => loads u = false) (thumbnailCandidates thumb))).
Proof.
  cbn zeta. unfold handleThumbnail.
  set (thumb1 := markLoaded thumb).
  assert (Hbg : backgroundImage thumb1 = backgroundImage thumb) by reflexivity.
  assert (Hcand : thumbnailCandidates thumb1 = thumbnailCandidates thumb)
    by reflexivity.
  assert (Hquiet : forall t : Thumb,
            class_loaded t = true ->
            backgroundImage t = backgroundImage thumb ->
            class_placeholder t = class_placeholder thumb ->
            let r := mkProbe [] t in
            class_loaded (outcome r) = true
            /\ NoDup (attempts r)
            /\ NonEmptyUrls (attempts r)
            /\ List.length (attempts r) <= 4
            /\ (isMobile = true -> backgroundImage thumb <> None ->
                attempts r = []
                /\ backgroundImage (outcome r) = backgroundImage thumb)
            /\ ((backgroundImage (outcome r) = backgroundImage thumb
                 /\ Forall (fun u => loads u = false) (attempts r))
                \/ exists failed u,
                     attempts r = failed ++ [u]
                     /\ loads u = true
                     /\ Forall (fun x => loads x = false) failed
                     /\ backgroundImage (outcome r) = Some u
                     /\ class_placeholder (outcome r) = class_placeholder thumb)
            /\ (class_placeholder (outcome r) = true ->
                class_placeholder thumb = true
                \/ (attempts r = thumbnailCandidates thumb
                    /\ Forall (fun u => loads u = false)
                              (thumbnailCandidates thumb)))).
  { intros t Hl Hb Hp. cbn.
    split; [exact Hl |]. split; [constructor |]. split; [constructor |].
    split; [lia |]. split; [auto |]. split; [left; auto |].
    intros H. left. congruence. }
  destruct (isMobile && hasInlineBg thumb1) eqn:Hskip;
    [apply Hquiet; reflexivity |].
  unfold loadThumbnail.
  destruct (negb (Js.truthy (data_thumb thumb1))
            && negb (Js.truthy (data_cover thumb1)));
    [apply Hquiet; reflexivity |].
  rewrite tryNextUrl_search. cbn [skipn attempts outcome]. rewrite Hcand.
  destruct (thumbnailCandidates_ok thumb) as (Hnd & Hne & Hlen).
  destruct (searchInOrder_attempts loads _ Hnd) as (Hnd' & Hle).
  destruct (searchInOrder_spec loads (thumbnailCandidates thumb))
    as (Hs & (untried & Hpre) & Hfind).
  rewrite Hs.
  split.
  { destruct (find loads (thumbnailCandidates thumb)); reflexivity. }
  split; [exact Hnd' |].
  split.
  { unfold NonEmptyUrls in *. rewrite Hpre in Hne.
    apply Forall_app in Hne. apply Hne. }
  split; [lia |].
  split.
  { intros -> Hsome. exfalso. cbn in Hskip. unfold hasInlineBg in Hskip.
    rewrite Hbg in Hskip. destruct (backgroundImage thumb); congruence. }
  destruct (find loads (thumbnailCandidates thumb)) as [u |].
  - destruct Hfind as (Hu & failed & Hatt & Hall).
    split; [| intros H; left; exact H].
    right. exists failed, u. auto.
  - destruct Hfind as (Hatt & Hall).
    split; [| intros _; right; auto].
    left. split; [reflexivity |]. rewrite Hatt. exact Hall.
Qed.

(** ** Lazily loaded images *)

Lemma truthy_orEmpty (v : option string) :
  Js.truthy v = true -> v = Some (Js.orEmpty v) /\ Js.isEmpty (Js.orEmpty v) = false.
Proof. destruct v as [[| c t] |]; try discriminate. auto. Qed.

(** The URL [loadLazyImageWithFallback] requests first. *)
Definition firstLazySource (img : LazyImage) : string :=
  if Js.truthy (lazy_src img) then Js.orEmpty (lazy_src img)
  else Js.orEmpty (lazy_srcWebp img).

Lemma lazyOnLoad_fields (img : LazyImage) :
  lazy_loaded (lazyOnLoad img) = true
  /\ parent_hidden (lazyOnLoad img) = parent_hidden img
  /\ img_src (lazyOnLoad img) = img_src img
  /\ img_shown (lazyOnLoad img) = img_shown img
  /\ (has_frame img = true -> frame_loading (lazyOnLoad img) = Some false).
Proof.
  unfold lazyOnLoad, setImageLoadingState. cbn [has_frame].
  destruct (has_frame img); cbn; repeat split; auto; discriminate.
Qed.

Lemma lazyGiveUp_fields (img : LazyImage) :
  has_parent img = true ->
  lazy_loaded (lazyGiveUp img) = lazy_loaded img
  /\ parent_hidden (lazyGiveUp img) = true
  /\ (has_frame img = true -> frame_loading (lazyGiveUp img) = Some false).
Proof.
  intros Hp. unfold lazyGiveUp, hideParent, setImageLoadingState. rewrite Hp.
  destruct (has_frame img); cbn; repeat split; auto; discriminate.
Qed.

(** A call on an image that is loaded and shown requests nothing. *)
Lemma loadLazyImageWithFallback_loaded (loads : string -> bool) (img : LazyImage)
    (url : string) :
  lazy_loaded img = true -> img_src img = Some url -> Js.isEmpty url = false ->
  img_shown img = true ->
  attempts (loadLazyImageWithFallback loads img) = [].
Proof.
  intros H1 H2 H3 H4. unfold loadLazyImageWithFallback.
  rewrite H1, H2, H4. destruct url; [discriminate | reflexivity].
Qed.

(** X23: a lazy image that has a source, is not loaded yet and sits in a
    figure settles after one or two requests: the first for the jpg if
    there is one (else the webp), the second, if any, for the webp.  Either
    the last URL requested loaded, the image shows it and carries the class
    [lazy-loaded], and a further call requests nothing; or every request
    failed and the figure is hidden.  In both cases the frame, if there is
    one, is no longer in the loading state.  An image already marked
    [data-tried-webp] gets no second request; an image with a webp source
    only, when that fails, is requested twice. *)
Theorem lazy_image_settles (loads : string -> bool) (img : LazyImage)
    (Hsrc : Js.truthy (lazy_src img) || Js.truthy (lazy_srcWebp img) = true)
    (Hnew : lazy_loaded img = false)
    (Hparent : has_parent img = true) :
  let r := loadLazyImageWithFallback loads img in
  (attempts r = [firstLazySource img]
   \/ attempts r = [firstLazySource img; Js.orEmpty (lazy_srcWebp img)])
  /\ ((lazy_loaded (outcome r) = true
       /\ parent_hidden (outcome r) = parent_hidden img
       /\ img_src (outcome r) = Some (last (attempts r) EmptyString)
       /\ loads (last (attempts r) EmptyString) = true
       /\ attempts (loadLazyImageWithFallback loads (outcome r)) = [])
      \/ (lazy_loaded (outcome r) = false
          /\ parent_hidden (outcome r) = true
          /\ Forall (fun u => loads u = false) (attempts r)))
  /\ (has_frame img = true -> frame_loading (outcome r) = Some false)
  /\ (triedWebp img = true -> attempts r = [firstLazySource img])
  /\ (Js.truthy (lazy_src img) = false -> triedWebp img = false ->
      loads (Js.orEmpty (lazy_srcWebp img)) = false ->
      attempts r = [Js.orEmpty (lazy_srcWebp img); Js.orEmpty (lazy_srcWebp img)]).
Proof.
  cbn zeta. unfold loadLazyImageWithFallback.
  rewrite Hnew. cbn [andb].
  assert (Hn : negb (Js.truthy (lazy_src img)) && negb (Js.truthy (lazy_srcWebp img))
               = false).
  { destruct (Js.truthy (lazy_src img)), (Js.truthy (lazy_srcWebp img));
      cbn in Hsrc |- *; congruence. }
  rewrite Hn. fold (firstLazySource img).
  assert (Hfirst : Js.isEmpty (firstLazySource img) = false).
  { unfold firstLazySource. destruct (Js.truthy (lazy_src img)) eqn:Hj.
    - apply truthy_orEmpty, Hj.
    - cbn in Hsrc. apply truthy_orEmpty, Hsrc. }
  set (first := firstLazySource img) in *.
  set (webp := Js.orEmpty (lazy_srcWebp img)) in *.
  set (img1 := assignSrc loads first img).
  set (img2 := assignSrc loads webp (markTriedWebp img1)).
  assert (Hloaded : forall url i,
            Js.isEmpty url = false -> loads url = true ->
            has_frame i = has_frame img -> parent_hidden i = parent_hidden img ->
            let o := lazyOnLoad (assignSrc loads url i) in
            (lazy_loaded o = true
             /\ parent_hidden o = parent_hidden img
             /\ img_src o = Some url
             /\ loads url = true
             /\ attempts (loadLazyImageWithFallback loads o) = [])
            /\ (has_frame img = true -> frame_loading o = Some false)).
  { intros url i He Hl Hf Hp o.
    destruct (lazyOnLoad_fields (assignSrc loads url i)) as (A & B & C & D & E).
    fold o in A, B, C, D, E. split.
    - split; [exact A |]. split; [rewrite B; exact Hp |].
      split; [exact C |]. split; [exact Hl |].
      apply (loadLazyImageWithFallback_loaded loads o url A C He).
      rewrite D. exact Hl.
    - intros H. apply E. cbn. rewrite Hf. exact H. }
  assert (Hfailed : forall i,
            has_parent i = true -> lazy_loaded i = false ->
            has_frame i = has_frame img ->
            (lazy_loaded (lazyGiveUp i) = false /\ parent_hidden (lazyGiveUp i) = true)
            /\ (has_frame img = true -> frame_loading (lazyGiveUp i) = Some false)).
  { intros i Hp Hl Hf. destruct (lazyGiveUp_fields i Hp) as (A & B & C).
    split; [split; [rewrite A; exact Hl | exact B] |].
    intros H. apply C. rewrite Hf. exact H. }
  destruct (loads first) eqn:L1.
  - cbn [attempts outcome last].
    destruct (Hloaded first img Hfirst L1 eq_refl eq_refl) as (Hok & Hfr).
    fold img1 in Hok, Hfr.
    split; [left; reflexivity |]. split; [left; exact Hok |].
    split; [exact Hfr |]. split; [reflexivity |].
    intros Hj _ Hw. unfold first, firstLazySource in L1. rewrite Hj in L1.
    fold webp in L1. congruence.
  - change (triedWebp img1) with (triedWebp img).
    destruct (Js.truthy (lazy_srcWebp img) && negb (triedWebp img)) eqn:Hfb.
    + apply andb_true_iff in Hfb. destruct Hfb as [Hw Ht].
      apply negb_true_iff in Ht.
      destruct (truthy_orEmpty _ Hw) as (_ & Hwne). fold webp in Hwne.
      destruct (loads webp) eqn:L2; cbn [attempts outcome last].
      * destruct (Hloaded webp (markTriedWebp img1) Hwne L2 eq_refl eq_refl)
          as (Hok & Hfr).
        fold img2 in Hok, Hfr.
        split; [right; reflexivity |]. split; [left; exact Hok |].
        split; [exact Hfr |]. split; [intros H; congruence |].
        intros _ _ H. congruence.
      * destruct (Hfailed img2 Hparent Hnew eq_refl) as ((A & B) & Hfr).
        split; [right; reflexivity |].
        split; [right; split; [exact A |]; split; [exact B |];
                repeat constructor; assumption |].
        split; [exact Hfr |]. split; [intros H; congruence |].
        intros Hj _ _. unfold first, firstLazySource. rewrite Hj. reflexivity.
    + cbn [attempts outcome last].
      destruct (Hfailed img1 Hparent Hnew eq_refl) as ((A & B) & Hfr).
      split; [left; reflexivity |].
      split; [right; split; [exact A |]; split; [exact B |];
              repeat constructor; assumption |].
      split; [exact Hfr |]. split; [reflexivity |].
      intros Hj Ht _. exfalso. rewrite Ht, Hj in *. cbn in Hsrc, Hfb.
      rewrite Hsrc in Hfb. discriminate.
Qed.

(** A lazy image as [renderProjectDetail] writes it. *)
Definition freshLazyImage (jpg webp : option string) : LazyImage :=
  mkLazyImage jpg webp None false false false true false true (Some true).

Lemma lazy_image_settles_witness :
  let loads := String.eqb "a/01.webp" in
  let img := freshLazyImage (Some "a/01.jpg") (Some "a/01.webp") in
  Js.truthy (lazy_src img) || Js.truthy (lazy_srcWebp img) = true
  /\ lazy_loaded img = false
  /\ has_parent img = true
  /\ attempts (loadLazyImageWithFallback loads img) = ["a/01.jpg"; "a/01.webp"]
  /\ lazy_loaded (outcome (loadLazyImageWithFallback loads img)) = true.
Proof.
  cbn zeta.
  set (loads := String.eqb "a/01.webp").
  set (img := freshLazyImage (Some "a/01.jpg") (Some "a/01.webp")).
  assert (Hsrc : Js.truthy (lazy_src img) || Js.truthy (lazy_srcWebp img) = true)
    by reflexivity.
  assert (Hnew : lazy_loaded img = false) by reflexivity.
  assert (Hparent : has_parent img = true) by reflexivity.
  split; [exact Hsrc |]. split; [exact Hnew |]. split; [exact Hparent |].
  destruct (lazy_image_settles loads img Hsrc Hnew Hparent)
    as (Hatt & Hend & _).
  split.
  - destruct Hatt as [H | H]; [| exact H].
    destruct Hend as [(_ & _ & _ & Hl & _) | (_ & _ & Hall)].
    + rewrite H in Hl. discriminate Hl.
    + reflexivity.
  - destruct Hend as [(Hl & _) | (_ & _ & Hall)]; [exact Hl |].
    reflexivity.
Defined.

(** ** The hero image of the detail view *)









(** ** Model images: the grid shows multiples of three *)













(** ** Slides beyond the rendered ones *)

(** Slide [index] exists: its jpg or its webp loads. *)
Definition slideExists (loads : string -> bool) (basePath : string) (index : nat)
  : bool :=
  loads (slideUrl basePath index ".jpg") || loads (slideUrl basePath index ".webp").

Lemma slideUrl_not_empty (basePath : string) (index : nat) (ext : string) :
  Js.isEmpty (slideUrl basePath index ext) = false.
Proof.
  unfold slideUrl. destruct basePath; reflexivity.
Qed.

(** One probe of the loop. *)
Lemma slide_probe (loads : string -> bool) (basePath : string) (index : nat) :
  let p := preloadImageSequence loads
             [slideUrl basePath index ".jpg"; slideUrl basePath index ".webp"] in
  Js.isEmpty (outcome p) = negb (slideExists loads basePath index)
  /\ 1 <= List.length (attempts p) <= 2.
Proof.
  cbn zeta. unfold preloadImageSequence. cbn [isNil].
  rewrite tryLoad_search. cbn [skipn searchInOrder attempts outcome fst snd].
  unfold slideExists.
  destruct (loads (slideUrl basePath index ".jpg")); cbn.
  - rewrite slideUrl_not_empty. split; [reflexivity | lia].
  - destruct (loads (slideUrl basePath index ".webp")); cbn.
    + rewrite slideUrl_not_empty. split; [reflexivity | lia].
    + split; [reflexivity | lia].
Qed.

Lemma discoverFrom_run (loads : string -> bool) (basePath : string)
    (count start fuel : nat) :
  (forall i, start <= i < start + count -> slideExists loads basePath i = true) ->
  slideExists loads basePath (start + count) = false ->
  count < fuel ->
  exists r,
    discoverFrom loads fuel basePath start = Some r
    /\ outcome r = seq start count
    /\ count + 1 <= List.length (attempts r) <= 2 * (count + 1).
Proof.
  revert start fuel. induction count as [| count IH]; intros start fuel Hall Hgap Hfuel.
  - destruct fuel as [| fuel]; [lia |]. cbn [discoverFrom].
    destruct (slide_probe loads basePath start) as (He & Hlen). cbn zeta in He, Hlen.
    rewrite He. rewrite Nat.add_0_r in Hgap. rewrite Hgap. cbn [negb].
    eexists. split; [reflexivity |]. cbn [outcome attempts seq]. split; [reflexivity | lia].
  - destruct fuel as [| fuel]; [lia |]. cbn [discoverFrom].
    destruct (slide_probe loads basePath start) as (He & Hlen). cbn zeta in He, Hlen.
    rewrite He. rewrite (Hall start) by lia. cbn [negb].
    destruct (IH (start + 1) fuel) as (r & Hr & Hout & Hatt).
    + intros i Hi. apply Hall. lia.
    + replace (start + 1 + count) with (start + S count) by lia. exact Hgap.
    + lia.
    + rewrite Hr. eexists. split; [reflexivity |].
      cbn [outcome attempts seq]. rewrite Hout, length_app.
      replace (start + 1) with (S start) by lia. split; [reflexivity | lia].
Qed.

Lemma discoverFrom_running (loads : string -> bool) (basePath : string)
    (fuel start : nat) :
  (forall i, start <= i < start + fuel -> slideExists loads basePath i = true) ->
  discoverFrom loads fuel basePath start = None.
Proof.
  revert start. induction fuel as [| fuel IH]; intros start Hall; [reflexivity |].
  cbn [discoverFrom].
  destruct (slide_probe loads basePath start) as (He & _). cbn zeta in He.
  rewrite He, (Hall start) by lia. cbn [negb].
  rewrite IH; [reflexivity |]. intros i Hi. apply Hall. lia.
Qed.

(** X26: the discovery of further slides starts at slide 21, or just
    after the slides the container holds if there are more than twenty,
    and appends the slides that exist from there on in order, without a
    gap, up to the first number whose jpg and webp both fail: with that
    number [gap], the loop ends (any fuel above the number of rounds gives
    the same result), appends exactly the slides from the start to
    [gap - 1] and none after the gap, and makes at most two requests per
    number probed.  While every slide probed exists the loop does not
    end. *)
Theorem slides_discovered_contiguous (loads : string -> bool) (basePath : string)
    (existingSlides gap fuel : nat)
    (Hstart : Nat.max (existingSlides + 1) 21 <= gap)
    (Hrun : forall i, Nat.max (existingSlides + 1) 21 <= i < gap ->
                      slideExists loads basePath i = true)
    (Hgap : slideExists loads basePath gap = false)
    (Hfuel : gap - Nat.max (existingSlides + 1) 21 < fuel) :
  let start := Nat.max (existingSlides + 1) 21 in
  (exists r,
     discoverExtraSlideImages loads fuel basePath existingSlides = Some r
     /\ outcome r = seq start (gap - start)
     /\ (forall i, In i (outcome r) <-> start <= i < gap)
     /\ List.length (attempts r) <= 2 * (gap - start + 1))
  /\ forall n,
       n <= gap - start ->
       discoverExtraSlideImages loads n basePath existingSlides = None.
Proof.
  cbn zeta. unfold discoverExtraSlideImages.
  set (start := Nat.max (existingSlides + 1) 21) in *.
  split.
  - destruct (discoverFrom_run loads basePath (gap - start) start fuel)
      as (r & Hr & Hout & Hatt).
    + intros i Hi. apply Hrun. lia.
    + replace (start + (gap - start)) with gap by lia. exact Hgap.
    + exact Hfuel.
    + exists r. split; [exact Hr |]. split; [exact Hout |].
      split; [| lia].
      intros i. rewrite Hout, in_seq. lia.
  - intros n Hn. apply discoverFrom_running.
    intros i Hi. apply Hrun. lia.
Qed.

Lemma slides_discovered_contiguous_witness :
  let loads := fun url =>
    String.eqb url "p/slide_images/21.webp"
    || String.eqb url "p/slide_images/22.jpg"
    || String.eqb url "p/slide_images/24.jpg" in
  Nat.max (20 + 1) 21 <= 23
  /\ (forall i, Nat.max (20 + 1) 21 <= i < 23 -> slideExists loads "p" i = true)
  /\ slideExists loads "p" 23 = false
  /\ 23 - Nat.max (20 + 1) 21 < 5
  /\ exists r,
       discoverExtraSlideImages loads 5 "p" 20 = Some r
       /\ outcome r = [21; 22].
Proof.
  cbn zeta.
  set (loads := fun url =>
    String.eqb url "p/slide_images/21.webp"
    || String.eqb url "p/slide_images/22.jpg"
    || String.eqb url "p/slide_images/24.jpg").
  assert (Hstart : Nat.max (20 + 1) 21 <= 23) by (cbn; lia).
  assert (Hrun : forall i, Nat.max (20 + 1) 21 <= i < 23 ->
                           slideExists loads "p" i = true).
  { intros i Hi. cbn in Hi.
    assert (Hc : i = 21 \/ i = 22) by lia.
    destruct Hc as [-> | ->]; reflexivity. }
  assert (Hgap : slideExists loads "p" 23 = false) by reflexivity.
  assert (Hfuel : 23 - Nat.max (20 + 1) 21 < 5) by (cbn; lia).
  split; [exact Hstart |]. split; [exact Hrun |]. split; [exact Hgap |].
  split; [exact Hfuel |].
  destruct (slides_discovered_contiguous loads "p" 20 23 5 Hstart Hrun Hgap Hfuel)
    as ((r & Hr & Hout & _) & _).
  exists r. split; [exact Hr | exact Hout].
Defined.

(** ** Meta fields under any [meta_field_order] *)

(** The keys rendered when no order is given: the four base keys, then the
    tokens of the custom fields. *)
Definition defaultMetaKeys (project : Project) : list string :=
  map fst baseMetaFields ++ map mf_token (customMetaFields project).

Lemma mapHas_In {V : Type} (k : string) (m : JsMap V) :
  mapHas k m = true <-> In k (mapKeys m).
Proof.
  unfold mapHas. induction m as [| [k' v'] m IH]; cbn.
  - split; [discriminate | intros []].
  - destruct (String.eqb_spec k' k) as [-> | Hne].
    + split; auto.
    + rewrite IH. split; [auto | intros [H | H]; [congruence | exact H]].
Qed.

Lemma mapHas_base (k : string) :
  mapHas k baseMetaFieldMap = true <-> In k (map fst baseMetaFields).
Proof. rewrite mapHas_In. reflexivity. Qed.

Lemma mapHas_custom (project : Project) (k : string) :
  NoDup (map mf_token (customMetaFields project)) ->
  mapHas k (customMetaFieldMap project) = true
  <-> In k (map mf_token (customMetaFields project)).
Proof.
  intros Hnd. rewrite mapHas_In, customMetaFieldMap_entries by exact Hnd.
  unfold mapKeys. rewrite map_map. reflexivity.
Qed.

Lemma defaultMetaKeys_NoDup (project : Project) :
  NoDup (map mf_token (customMetaFields project)) ->
  NoDup (defaultMetaKeys project).
Proof.
  intros Hnd. apply NoDup_app; [| exact Hnd |].
  - cbn. repeat constructor; cbn; intuition discriminate.
  - intros k Hbase Htok.
    pose proof (customMetaFields_tokens project) as Hall.
    rewrite Forall_forall in Hall. apply Hall in Htok.
    apply customToken_not_base in Htok. apply Htok. exact Hbase.
Qed.

Lemma placeOrderedKey_ok (project : Project) (acc : list string) (key : string) :
  NoDup (map mf_token (customMetaFields project)) ->
  NoDup acc /\ incl acc (defaultMetaKeys project) ->
  NoDup (placeOrderedKey project acc key)
  /\ incl (placeOrderedKey project acc key) (defaultMetaKeys project).
Proof.
  intros Hids (Hnd & Hincl). unfold placeOrderedKey.
  set (normalizedKey := match resolveCustomMetaField project key with
                        | Some customField =>
                            if negb (mapHas key baseMetaFieldMap)
                            then mf_token customField else key
                        | None => key
                        end).
  destruct ((mapHas normalizedKey baseMetaFieldMap
             || mapHas normalizedKey (customMetaFieldMap project))
            && negb (includes normalizedKey acc)) eqn:Hc; [| auto].
  apply andb_true_iff in Hc. destruct Hc as [Hknown Hnew].
  apply negb_true_iff in Hnew.
  split.
  - apply NoDup_app; [exact Hnd | repeat constructor; intros [] |].
    intros x Hx [<- | []]. apply includes_In in Hx. congruence.
  - intros x Hx. apply in_app_or in Hx. destruct Hx as [Hx | [<- | []]];
      [apply Hincl, Hx |].
    unfold defaultMetaKeys. apply in_or_app.
    apply orb_true_iff in Hknown. destruct Hknown as [H | H].
    + left. apply mapHas_base, H.
    + right. apply (mapHas_custom project _ Hids), H.
Qed.

Lemma fold_pushIfNew_ok {A : Type} (key : A -> string) (l : list A)
    (acc : list string) :
  NoDup acc ->
  let result := fold_left (fun acc x => pushIfNew (key x) acc) l acc in
  NoDup result
  /\ (forall k, In k result <-> In k acc \/ In k (map key l)).
Proof.
  revert acc. induction l as [| x l IH]; intros acc Hnd; cbn zeta.
  - cbn. split; [exact Hnd |]. intros k. tauto.
  - cbn [fold_left map].
    assert (Hp : NoDup (pushIfNew (key x) acc)
                 /\ forall k, In k (pushIfNew (key x) acc) <-> In k acc \/ k = key x).
    { unfold pushIfNew. destruct (includes (key x) acc) eqn:Hin.
      - split; [exact Hnd |]. intros k. split; [auto |].
        intros [H | ->]; [exact H | apply includes_In, Hin].
      - split.
        + apply NoDup_app; [exact Hnd | repeat constructor; intros [] |].
          intros y Hy [<- | []]. apply includes_In in Hy. congruence.
        + intros k. rewrite in_app_iff. cbn. intuition. }
    destruct Hp as (Hnd' & Hmem).
    destruct (IH _ Hnd') as (A1 & A2). cbn zeta in A1, A2.
    split; [exact A1 |]. intros k. rewrite A2, Hmem. cbn. intuition.
Qed.

Lemma orderedMetaKeys_permutation (project : Project) :
  NoDup (map mf_token (customMetaFields project)) ->
  NoDup (orderedMetaKeys project)
  /\ Permutation (orderedMetaKeys project) (defaultMetaKeys project).
Proof.
  intros Hids. unfold orderedMetaKeys.
  set (fromOrder := match meta_field_order project with
                    | Some keys => fold_left (placeOrderedKey project) keys []
                    | None => []
                    end).
  assert (Hfrom : NoDup fromOrder /\ incl fromOrder (defaultMetaKeys project)).
  { unfold fromOrder. destruct (meta_field_order project) as [keys |];
      [| split; [constructor | intros x []]].
    assert (G : forall keys acc,
              NoDup acc /\ incl acc (defaultMetaKeys project) ->
              NoDup (fold_left (placeOrderedKey project) keys acc)
              /\ incl (fold_left (placeOrderedKey project) keys acc)
                      (defaultMetaKeys project)).
    { induction keys0 as [| key keys0 IH]; intros acc H; [exact H |].
      cbn [fold_left]. apply IH, placeOrderedKey_ok; assumption. }
    apply G. split; [constructor | intros x []]. }
  destruct Hfrom as (Hnd0 & Hincl0).
  destruct (fold_pushIfNew_ok (fun field : string * string => fst field)
              baseMetaFields fromOrder Hnd0) as (Hnd1 & Hmem1).
  cbn zeta in Hnd1, Hmem1.
  destruct (fold_pushIfNew_ok mf_token (customMetaFields project) _ Hnd1)
    as (Hnd2 & Hmem2).
  cbn zeta in Hnd2, Hmem2.
  split; [exact Hnd2 |].
  apply NoDup_Permutation; [exact Hnd2 | apply defaultMetaKeys_NoDup, Hids |].
  intros k. rewrite Hmem2, Hmem1. unfold defaultMetaKeys. rewrite in_app_iff.
  split; [| tauto].
  intros [[H | H] | H]; [| tauto | tauto].
  apply Hincl0 in H. unfold defaultMetaKeys in H. apply in_app_iff in H. exact H.
Qed.

Lemma renderMetaKey_values (project : Project) (key : string) :
  Forall (fun item => meta_value item <> EmptyString) (renderMetaKey project key).
Proof.
  unfold renderMetaKey. destruct (mapGet key baseMetaFieldMap) as [label |].
  - destruct (baseProperty project key) as [[| c v] |]; cbn; repeat constructor.
    cbn. discriminate.
  - destruct (mapGet key (customMetaFieldMap project)) as [field |]; [| constructor].
    destruct (mf_value field) as [| c v] eqn:Hv; cbn; repeat constructor.
    cbn. discriminate.
Qed.

(** X27: [meta_field_order] only reorders.  For a record whose custom
    fields have distinct ids, whatever its [meta_field_order] holds
    (unknown keys, repeated keys, aliases): every base key and every custom
    token is placed exactly once, the items before YEAR, MEDIUM and SERIES
    are a rearrangement of those rendered without an order, the three
    trailing fields stay last, and no rendered item has an empty value. *)
Theorem meta_field_order_only_reorders (project : Project)
    (Hids : NoDup (map mf_token (customMetaFields project))) :
  NoDup (orderedMetaKeys project)
  /\ Permutation (orderedMetaKeys project) (defaultMetaKeys project)
  /\ (exists leading,
        metaItems project
        = leading
          ++ renderTrailing "YEAR" (year project)
          ++ renderTrailing "MEDIUM" (medium project)
          ++ renderTrailing "SERIES" (series project)
        /\ Permutation leading
             (renderTrailing "LOCATION" (location project)
              ++ renderTrailing "DURATION" (duration project)
              ++ renderTrailing "PROGRAM" (program project)
              ++ renderTrailing "STUDIO" (studio project)
              ++ map itemOf (customMetaFields project)))
  /\ Forall (fun item => meta_value item <> EmptyString) (metaItems project).
Proof.
  destruct (orderedMetaKeys_permutation project Hids) as (Hnd & Hperm).
  split; [exact Hnd |]. split; [exact Hperm |]. split.
  - exists (flat_map (renderMetaKey project) (orderedMetaKeys project)).
    split; [reflexivity |].
    rewrite (Permutation_flat_map (renderMetaKey project) Hperm).
    unfold defaultMetaKeys.
    rewrite flat_map_app, renderMetaKey_base, renderMetaKey_custom by auto.
    rewrite <- !app_assoc. reflexivity.
  - unfold metaItems. repeat (apply Forall_app; split);
      try apply renderTrailing_values.
    apply Forall_flat_map, Forall_forall. intros k _. apply renderMetaKey_values.
Qed.

(** A record with an order that names a base key, a custom field by its
    label, an unknown key and a key twice. *)
Definition orderedProject : Project :=
  mkProject "Ordered" None None Js.Undefined
            (Some "Seoul") None None (Some "Studio A") (Some "2024") None None None
            (Some [ mkCustomField None (Some "Client") (Some "City") ])
            (Some [ "studio"; "label:client"; "nonsense"; "studio" ])
            None None.

Lemma meta_field_order_only_reorders_witness :
  NoDup (map mf_token (customMetaFields orderedProject))
  /\ metaLabels orderedProject = ["STUDIO"; "Client"; "LOCATION"; "YEAR"]
  /\ NoDup (orderedMetaKeys orderedProject).
Proof.
  assert (Hids : NoDup (map mf_token (customMetaFields orderedProject))).
  { cbn. repeat constructor. intros []. }
  split; [exact Hids |]. split; [reflexivity |].
  apply (meta_field_order_only_reorders orderedProject Hids).
Defined.

(** ** The repair of the payload leaves well-formed JSON alone *)

Lemma repairMatch_fixed (c : ascii) (m : string) :
  isLineTerminator c = false -> repairMatch m = m ->
  repairMatch (String c m) = String c m.
Proof. intros Hc Hm. rewrite repairMatch_keeps, Hm by exact Hc. reflexivity. Qed.

(** A string token that JSON itself accepts is matched by the pattern up
    to the same closing quote, and the replacer leaves the match as it
    is. *)
Lemma scanString_strict_match (t : string) (v : list N) (rest : string) :
  scanString false t = Some (v, rest) ->
  exists m,
    matchQuoted t = Some (m, rest)
    /\ t = (m ++ rest)%string
    /\ repairMatch m = m.
Proof.
  revert v rest.
  induction t as [t IH] using
    (well_founded_induction (well_founded_ltof _ String.length)).
  assert (IHc : forall n t' v rest,
             String.length t' < String.length t ->
             consValue n (scanString false t') = Some (v, rest) ->
             exists m,
               matchQuoted t' = Some (m, rest)
               /\ t' = (m ++ rest)%string
               /\ repairMatch m = m).
  { intros n t' v rest Hlt H.
    destruct (scanString false t') as [[v' r'] |] eqn:E; [| discriminate].
    cbn in H. injection H as <- <-. exact (IH t' Hlt v' r' E). }
  intros v rest. destruct t as [| c t]; cbn [scanString]; [discriminate |].
  destruct (Ascii.eqb c quote) eqn:Eq.
  - intros [= <- <-]. exists (String c EmptyString). cbn [matchQuoted].
    rewrite Eq. split; [reflexivity |]. split; [reflexivity |].
    apply Ascii.eqb_eq in Eq. subst c. reflexivity.
  - destruct (Ascii.eqb c backslash) eqn:Eb.
    + destruct t as [| d t']; [discriminate |].
      assert (Hc : isLineTerminator c = false)
        by (apply Ascii.eqb_eq in Eb; subst c; reflexivity).
      destruct (Ascii.eqb d "u"%char) eqn:Eu.
      * destruct t' as [| h1 [| h2 [| h3 [| h4 t'']]]]; try discriminate.
        destruct (hex4 h1 h2 h3 h4) as [n |] eqn:Eh; [| discriminate].
        intros H. apply IHc in H; [| cbn; lia].
        destruct H as (m & Hm & Ht & Hr).
        destruct (hex4_digits _ _ _ _ _ Eh) as (x & y & z & w & H1 & H2 & H3 & H4).
        apply hexDigit_plain in H1, H2, H3, H4.
        destruct H1 as (Q1 & B1 & L1), H2 as (Q2 & B2 & L2),
                 H3 as (Q3 & B3 & L3), H4 as (Q4 & B4 & L4).
        assert (Hd : isLineTerminator d = false)
          by (apply Ascii.eqb_eq in Eu; subst d; reflexivity).
        exists (String c (String d (String h1 (String h2 (String h3 (String h4 m)))))).
        split.
        { cbn [matchQuoted].
          rewrite Eq, Eb, Hd, Q1, B1, Q2, B2, Q3, B3, Q4, B4, Hm. reflexivity. }
        split; [cbn [append]; rewrite <- Ht; reflexivity |].
        repeat (apply repairMatch_fixed; [assumption |]). exact Hr.
      * destruct (escapeValue d) as [n |] eqn:Ev; [| discriminate].
        intros H. apply IHc in H; [| cbn; lia].
        destruct H as (m & Hm & Ht & Hr).
        pose proof (escapeValue_not_terminator d n Ev) as Hd.
        exists (String c (String d m)). split.
        { cbn [matchQuoted]. rewrite Eq, Eb, Hd, Hm. reflexivity. }
        split; [cbn [append]; rewrite <- Ht; reflexivity |].
        repeat (apply repairMatch_fixed; [assumption |]). exact Hr.
    + destruct (Js.code c <? 32) eqn:Ec; [discriminate |].
      intros H. apply IHc in H; [| cbn; lia].
      destruct H as (m & Hm & Ht & Hr).
      exists (String c m). split.
      { rewrite matchQuoted_plain, Hm by assumption. reflexivity. }
      split; [cbn [append]; rewrite <- Ht; reflexivity |].
      apply repairMatch_fixed; [apply printable_not_terminator; exact Ec | exact Hr].
Qed.

Lemma escapeNewlines_wellformed (text : string) (tokens : list Token) :
  tokenize false text = Some tokens -> escapeNewlines text = text.
Proof.
  revert tokens.
  induction text as [text IH] using
    (well_founded_induction (well_founded_ltof _ String.length)).
  intros tokens. destruct text as [| c t]; [simp escapeNewlines; auto |].
  rewrite tokenize_cons, escapeNewlines_cons. cbn [matchHere].
  destruct (Ascii.eqb c quote) eqn:Eq.
  - destruct (scanString false t) as [[v rest] |] eqn:Es; [| discriminate].
    destruct (scanString_strict_match t v rest Es) as (m & Hm & Ht & Hr).
    rewrite Hm, Hr. intros H.
    destruct (tokenize false rest) as [tokens' |] eqn:Et; [| discriminate].
    rewrite (IH rest) with (tokens := tokens'); [| | exact Et].
    + cbn [append]. rewrite <- Ht. reflexivity.
    + unfold ltof. apply matchQuoted_shorter in Hm. cbn. lia.
  - intros H.
    destruct (tokenize false t) as [tokens' |] eqn:Et; [| discriminate].
    rewrite (IH t) with (tokens := tokens'); [reflexivity | | exact Et].
    unfold ltof. cbn. lia.
Qed.

(** X28: the repair step of [init] changes nothing in a payload that is
    well-formed JSON already (line breaks between the tokens of a
    pretty-printed payload included), so such a payload is parsed as it
    stands; and on a payload that needs the repair, repairing twice is
    repairing once. *)
Theorem repair_leaves_wellformed_json
    (parseTokens : list Token -> option (list Project))
    (text : string) (tokens : list Token)
    (Hlenient : tokenize true text = Some tokens) :
  escapeNewlines (escapeNewlines text) = escapeNewlines text
  /\ (tokenize false text = Some tokens ->
      escapeNewlines text = text
      /\ parseProjectsData parseTokens (Some text)
         = match JSON_parse parseTokens text with
           | Some records => records
           | None => []
           end).
Proof.
  split.
  - apply (escapeNewlines_wellformed _ tokens), tokenize_escapeNewlines, Hlenient.
  - intros Hstrict. pose proof (escapeNewlines_wellformed text tokens Hstrict) as He.
    split; [exact He |]. unfold parseProjectsData. rewrite He. reflexivity.
Qed.

(** A pretty-printed payload: a bracket, a line feed, the string [A], a
    line feed, a bracket. *)
Definition prettyPayload : string :=
  String "["%char
    (String lineFeed
       (String quote ("A" ++ String quote (String lineFeed "]"))))%string.

Lemma repair_leaves_wellformed_json_witness :
  tokenize true prettyPayload
  = Some [TChar "["%char; TChar lineFeed; TString [65%N]; TChar lineFeed;
          TChar "]"%char]
  /\ escapeNewlines prettyPayload = prettyPayload
  /\ escapeNewlines (escapeNewlines rawNewlinePayload)
     = escapeNewlines rawNewlinePayload
  /\ escapeNewlines rawNewlinePayload <> rawNewlinePayload.
Proof.
  assert (H1 : tokenize true prettyPayload
               = Some [TChar "["%char; TChar lineFeed; TString [65%N];
                       TChar lineFeed; TChar "]"%char]) by reflexivity.
  assert (H2 : tokenize false prettyPayload
               = Some [TChar "["%char; TChar lineFeed; TString [65%N];
                       TChar lineFeed; TChar "]"%char]) by reflexivity.
  assert (H3 : exists tokens, tokenize true rawNewlinePayload = Some tokens)
    by (eexists; vm_compute; reflexivity).
  split; [exact H1 |].
  split; [apply (repair_leaves_wellformed_json titlesOnly _ _ H1), H2 |].
  destruct H3 as (tokens & H3).
  split; [apply (repair_leaves_wellformed_json titlesOnly _ _ H3) |].
  vm_compute. discriminate.
Defined.

(** ** Markup of texts *)

Lemma scanLinkedText_cons (plain : string) (c : ascii) (t : string) :
  scanLinkedText plain (String c t) =
  match matchMarkupHere (String c t) with
  | Some (SizeMatch digits inner rest) =>
      (escapeHtml plain
       ++ sizeMarkup digits (scanLinkedText EmptyString inner)
       ++ scanLinkedText EmptyString rest)%string
  | Some (LinkMatch linkText urlPart rest) =>
      (escapeHtml plain
       ++ linkMarkup linkText urlPart
       ++ scanLinkedText EmptyString rest)%string
  | None => scanLinkedText (plain ++ String c EmptyString) t
  end.
Proof.
  simp scanLinkedText.
  destruct (inspect (matchMarkupHere (String c t))) as [[[d i r | l u r] |] e];
    simp scanLinkedText; rewrite e; reflexivity.
Qed.

Lemma append_assoc_string (a b c : string) :
  ((a ++ b) ++ c = a ++ (b ++ c))%string.
Proof. induction a as [| x a IH]; cbn; [reflexivity | rewrite IH; reflexivity]. Qed.

Lemma append_nil_r_string (a : string) : (a ++ EmptyString)%string = a.
Proof. induction a as [| x a IH]; cbn; [reflexivity | rewrite IH; reflexivity]. Qed.

Lemma escapeHtml_app (a b : string) :
  escapeHtml (a ++ b) = (escapeHtml a ++ escapeHtml b)%string.
Proof.
  induction a as [| c a IH]; [reflexivity |].
  cbn [append escapeHtml]. rewrite IH, append_assoc_string. reflexivity.
Qed.

Definition notBracket (c : ascii) : bool := negb (Ascii.eqb c "["%char).

Definition notAngle (c : ascii) : bool :=
  negb (Ascii.eqb c "<"%char) && negb (Ascii.eqb c ">"%char).

(** The code units [escapeHtml] leaves as they are; the double quote is
    one of them. *)
Definition plainHtmlChar (c : ascii) : bool :=
  negb (Ascii.eqb c "&"%char) && negb (Ascii.eqb c "<"%char)
  && negb (Ascii.eqb c ">"%char) && negb (Ascii.eqb c nbsp).

Lemma allChars_app (f : ascii -> bool) (a b : string) :
  allChars f (a ++ b) = allChars f a && allChars f b.
Proof.
  induction a as [| c a IH]; [reflexivity |].
  cbn [append allChars]. rewrite IH, andb_assoc. reflexivity.
Qed.

Lemma escapeHtml_notAngle (s : string) : allChars notAngle (escapeHtml s) = true.
Proof.
  induction s as [| c t IH]; [reflexivity |].
  cbn [escapeHtml]. rewrite allChars_app, IH, andb_true_r.
  unfold escapeHtmlChar.
  destruct (Ascii.eqb c "&"%char); [reflexivity |].
  destruct (Ascii.eqb c "<"%char) eqn:El; [reflexivity |].
  destruct (Ascii.eqb c ">"%char) eqn:Eg; [reflexivity |].
  destruct (Ascii.eqb c nbsp); [reflexivity |].
  cbn. unfold notAngle. rewrite El, Eg. reflexivity.
Qed.

Lemma escapeHtml_plain (s : string) :
  allChars plainHtmlChar s = true -> escapeHtml s = s.
Proof.
  induction s as [| c t IH]; [reflexivity |]. cbn [allChars escapeHtml].
  intros H. apply andb_true_iff in H. destruct H as [Hc Ht].
  rewrite (IH Ht). unfold plainHtmlChar in Hc.
  repeat (apply andb_true_iff in Hc; destruct Hc as [Hc ?]).
  unfold escapeHtmlChar.
  repeat match goal with
         | H : negb (Ascii.eqb c ?x) = true |- _ =>
             apply negb_true_iff in H; rewrite H; clear H
         end.
  reflexivity.
Qed.

Lemma matchMarkupHere_needs_bracket (c : ascii) (t : string) :
  notBracket c = true -> matchMarkupHere (String c t) = None.
Proof.
  unfold notBracket. intros H. apply negb_true_iff in H.
  unfold matchMarkupHere, matchSizeHere, matchLinkHere.
  rewrite H. cbn [String.prefix].
  destruct (ascii_dec "[" c) as [<- | _]; [discriminate H | reflexivity].
Qed.

(** Text without an opening bracket is passed over by the loop. *)
Lemma scanLinkedText_plain (before plain rest : string) :
  allChars notBracket before = true ->
  scanLinkedText plain (before ++ rest) = scanLinkedText (plain ++ before) rest.
Proof.
  revert plain. induction before as [| c t IH]; intros plain H.
  - cbn [append]. rewrite append_nil_r_string. reflexivity.
  - cbn [allChars] in H. apply andb_true_iff in H. destruct H as [Hc Ht].
    cbn [append]. rewrite scanLinkedText_cons.
    rewrite (matchMarkupHere_needs_bracket c _ Hc), (IH _ Ht).
    rewrite append_assoc_string. reflexivity.
Qed.

Lemma spanChars_app (keep : ascii -> bool) (a : string) (c : ascii) (r : string) :
  allChars keep a = true -> keep c = false ->
  spanChars keep (a ++ String c r) = (a, String c r).
Proof.
  intros Ha Hc. induction a as [| x a IH]; cbn [append spanChars].
  - rewrite Hc. reflexivity.
  - cbn [allChars] in Ha. apply andb_true_iff in Ha. destruct Ha as [Hx Ha].
    rewrite Hx, (IH Ha). reflexivity.
Qed.

Lemma trimStart_spaces (spaces : string) (c : ascii) (r : string) :
  allChars Js.isSpace spaces = true -> Js.isSpace c = false ->
  Js.trimStart (spaces ++ String c r) = String c r.
Proof.
  intros Hs Hc. induction spaces as [| x s IH]; cbn [append Js.trimStart].
  - rewrite Hc. reflexivity.
  - cbn [allChars] in Hs. apply andb_true_iff in Hs. destruct Hs as [Hx Hs].
    rewrite Hx. exact (IH Hs).
Qed.

Lemma prefix_size_bracket (l x : string) :
  String.prefix "size=" (l ++ String "]"%char x) = String.prefix "size=" l.
Proof.
  destruct l as [| c1 [| c2 [| c3 [| c4 [| c5 l]]]]]; cbn [String.prefix append];
    repeat match goal with
           | |- context [ascii_dec ?a ?b] =>
               destruct (ascii_dec a b); cbn [String.prefix append]
           end; try reflexivity; try discriminate.
  destruct l; reflexivity.
Qed.

Definition notClosingBracket (c : ascii) : bool := negb (Ascii.eqb c "]"%char).
Definition notClosingParen (c : ascii) : bool := negb (Ascii.eqb c ")"%char).

(** The text of a link: [[linkText]], white space, [(urlPart)]. *)
Definition linkSource (linkText spaces urlPart : string) : string :=
  (String "["%char linkText
   ++ String "]"%char spaces
   ++ String "("%char urlPart
   ++ String ")"%char EmptyString)%string.

(** X29: what the markup translator lets through.  Text without an
    opening bracket comes out escaped and nothing else, and escaped text
    holds no angle bracket, so plain text cannot open a tag.  A link (a
    bracketed text that does not begin with [size=], optional white space,
    a parenthesized URL part) after such text becomes one anchor: the text
    before it escaped, the anchor with the escaped URL and the escaped link
    text, then the rendering of what follows.  [escapeHtml] changes the
    ampersand, the two angle brackets and the no-break space only: a
    double quote in the URL part reaches the [href] attribute as it is. *)
Theorem renderLinkedText_escapes (before linkText spaces urlPart after : string)
    (Hbefore : allChars notBracket before = true)
    (Htext : Js.isEmpty linkText = false
             /\ allChars notClosingBracket linkText = true
             /\ String.prefix "size=" linkText = false)
    (Hspaces : allChars Js.isSpace spaces = true)
    (Hurl : Js.isEmpty urlPart = false
            /\ allChars notClosingParen urlPart = true) :
  renderLinkedText before = escapeHtml before
  /\ allChars notAngle (renderLinkedText before) = true
  /\ renderLinkedText (before ++ linkSource linkText spaces urlPart ++ after)
     = (escapeHtml before ++ linkMarkup linkText urlPart ++ renderLinkedText after)%string
  /\ (forall s, allChars plainHtmlChar s = true -> escapeHtml s = s)
  /\ plainHtmlChar quote = true.
Proof.
  destruct Htext as (Hl & Hlb & Hsize). destruct Hurl as (Hu & Hup).
  assert (Hplain : renderLinkedText before = escapeHtml before).
  { unfold renderLinkedText.
    rewrite <- (append_nil_r_string before) at 1.
    rewrite (scanLinkedText_plain before EmptyString EmptyString Hbefore).
    simp scanLinkedText. reflexivity. }
  split; [exact Hplain |].
  split; [rewrite Hplain; apply escapeHtml_notAngle |].
  split; [| split; [exact escapeHtml_plain | reflexivity]].
  unfold renderLinkedText.
  rewrite (scanLinkedText_plain before EmptyString _ Hbefore). cbn [append].
  unfold linkSource. cbn [append].
  rewrite scanLinkedText_cons.
  assert (Hshape : forall tail,
            ((linkText ++ String "]"%char spaces
              ++ String "("%char urlPart ++ String ")"%char EmptyString) ++ tail
             = linkText ++ String "]"%char
                 (spaces ++ String "("%char
                    (urlPart ++ String ")"%char tail)))%string).
  { intros tail. rewrite ?append_assoc_string. cbn [append].
    rewrite ?append_assoc_string. cbn [append].
    rewrite ?append_assoc_string. reflexivity. }
  rewrite Hshape.
  assert (Hmatch : matchMarkupHere
            (String "["%char
               (linkText ++ String "]"%char
                  (spaces ++ String "("%char (urlPart ++ String ")"%char after))))
          = Some (LinkMatch linkText urlPart after)).
  { unfold matchMarkupHere.
    assert (Hnosize : matchSizeHere
              (String "["%char
                 (linkText ++ String "]"%char
                    (spaces ++ String "("%char (urlPart ++ String ")"%char after))))
            = None).
    { unfold matchSizeHere.
      change (String.prefix "[size=" (String "["%char ?x))
        with (String.prefix "size=" x).
      cbn [String.prefix]. destruct (ascii_dec "[" "["); [| congruence].
      rewrite prefix_size_bracket, Hsize. reflexivity. }
    rewrite Hnosize. unfold matchLinkHere. cbn [Ascii.eqb Bool.eqb].
    change (fun x : ascii => negb (Ascii.eqb x "]"%char)) with notClosingBracket.
    change (fun x : ascii => negb (Ascii.eqb x ")"%char)) with notClosingParen.
    rewrite (spanChars_app notClosingBracket linkText "]"%char _ Hlb eq_refl).
    cbn [fst snd]. rewrite Hl.
    rewrite (trimStart_spaces spaces "("%char _ Hspaces eq_refl).
    cbn [Ascii.eqb Bool.eqb].
    rewrite (spanChars_app notClosingParen urlPart ")"%char _ Hup eq_refl).
    cbn [fst snd]. rewrite Hu. reflexivity. }
  rewrite Hmatch. reflexivity.
Qed.

Lemma renderLinkedText_escapes_witness :
  allChars notBracket "a < b, see " = true
  /\ (Js.isEmpty "the plan" = false
      /\ allChars notClosingBracket "the plan" = true
      /\ String.prefix "size=" "the plan" = false)
  /\ allChars Js.isSpace " " = true
  /\ (Js.isEmpty "plan.pdf | underline" = false
      /\ allChars notClosingParen "plan.pdf | underline" = true)
  /\ renderLinkedText ("a < b, see " ++ linkSource "the plan" " " "plan.pdf | underline"
                       ++ ".")
     = ("a &lt; b, see <a "
        ++ attribute "href" "plan.pdf" ++ " "
        ++ attribute "class" "link-underline" ++ " "
        ++ attribute "target" "_blank" ++ " "
        ++ attribute "rel" "noopener" ++ ">the plan</a>.")%string.
Proof.
  assert (H1 : allChars notBracket "a < b, see " = true) by reflexivity.
  assert (H2 : Js.isEmpty "the plan" = false
               /\ allChars notClosingBracket "the plan" = true
               /\ String.prefix "size=" "the plan" = false)
    by (repeat split; reflexivity).
  assert (H3 : allChars Js.isSpace " " = true) by reflexivity.
  assert (H4 : Js.isEmpty "plan.pdf | underline" = false
               /\ allChars notClosingParen "plan.pdf | underline" = true)
    by (split; reflexivity).
  split; [exact H1 |]. split; [exact H2 |]. split; [exact H3 |].
  split; [exact H4 |].
  destruct (renderLinkedText_escapes "a < b, see " "the plan" " "
              "plan.pdf | underline" "." H1 H2 H3 H4) as (_ & _ & H & _).
  rewrite H. reflexivity.
Defined.

(** ** The focus trap *)

Lemma last_In {A : Type} (l : list A) (d : A) : l <> [] -> In (last l d) l.
Proof.
  induction l as [| x l IH]; intros H; [congruence |].
  destruct l as [| y l]; [left; reflexivity |].
  right. apply IH. discriminate.
Qed.

Lemma nth_last {A : Type} (l : list A) (d : A) :
  l <> [] -> nth (List.length l - 1) l d = last l d.
Proof.
  induction l as [| x l IH]; intros H; [congruence |].
  destruct l as [| y l]; [reflexivity |].
  cbn [List.length] in IH |- *.
  replace (S (S (List.length l)) - 1) with (S (List.length l)) by lia.
  replace (S (List.length l) - 1) with (List.length l) in IH by lia.
  cbn [nth]. change (last (x :: y :: l) d) with (last (y :: l) d).
  apply IH. discriminate.
Qed.

(** X30: the focus trap.  With at least one focusable element in the
    overlay, [trapFocus] acts at the two ends only, Tab on the
    last element moves the focus to the first and Shift+Tab on the first
    moves it to the last, and these two moves undo each other.  Provided
    the browser's own Tab and Shift+Tab move between neighbours of that
    list, the focus never leaves the list once it is on one of its
    elements. *)
Theorem focus_trap_cycles (Node : Type) (sameNode : Node -> Node -> bool)
    (browserTab : bool -> option Node -> option Node)
    (focusableElements : list Node) (fallback : Node)
    (Hsame : forall x y, sameNode x y = true <-> x = y)
    (Hsome : focusableElements <> [])
    (Hnext : forall i, S i < List.length focusableElements ->
               browserTab false (Some (nth i focusableElements fallback))
               = Some (nth (S i) focusableElements fallback))
    (Hprev : forall i, S i < List.length focusableElements ->
               browserTab true (Some (nth (S i) focusableElements fallback))
               = Some (nth i focusableElements fallback)) :
  let firstElement := hd fallback focusableElements in
  let lastElement := last focusableElements fallback in
  trapFocus sameNode focusableElements false (Some lastElement) = Some firstElement
  /\ trapFocus sameNode focusableElements true (Some firstElement) = Some lastElement
  /\ (forall shiftKey active target,
        trapFocus sameNode focusableElements shiftKey active = Some target ->
        active = Some (if shiftKey then firstElement else lastElement)
        /\ target = (if shiftKey then lastElement else firstElement))
  /\ forall shiftKey active,
       In active focusableElements ->
       exists target,
         focusAfterTab sameNode browserTab focusableElements shiftKey (Some active)
         = Some target
         /\ In target focusableElements.
Proof.
  cbn zeta.
  destruct focusableElements as [| firstElement rest] eqn:Hl; [congruence |].
  rewrite <- Hl in *.
  assert (Hhd : hd fallback focusableElements = firstElement)
    by (rewrite Hl; reflexivity).
  assert (Hlast : last focusableElements firstElement
                  = last focusableElements fallback).
  { rewrite Hl, !last_cons_default. reflexivity. }
  set (lastElement := last focusableElements fallback) in *.
  assert (Hrefl : forall x, sameNode x x = true) by (intros x; apply Hsame; reflexivity).
  assert (Htrap : forall shiftKey active,
            trapFocus sameNode focusableElements shiftKey active
            = if shiftKey
              then if isActive sameNode active firstElement
                   then Some lastElement else None
              else if isActive sameNode active lastElement
                   then Some firstElement else None).
  { intros shiftKey active. unfold trapFocus. rewrite Hl at 1.
    rewrite Hlast. reflexivity. }
  rewrite Hhd.
  split; [rewrite Htrap; cbn [isActive]; rewrite Hrefl; reflexivity |].
  split; [rewrite Htrap; cbn [isActive]; rewrite Hrefl; reflexivity |].
  split.
  { intros shiftKey active target. rewrite Htrap.
    destruct shiftKey, active as [a |]; cbn [isActive]; try discriminate.
    - destruct (sameNode a firstElement) eqn:E; [| discriminate].
      apply Hsame in E. subst a. intros [= <-]. auto.
    - destruct (sameNode a lastElement) eqn:E; [| discriminate].
      apply Hsame in E. subst a. intros [= <-]. auto. }
  intros shiftKey active Hin.
  assert (Hfirst_in : In firstElement focusableElements)
    by (rewrite Hl; left; reflexivity).
  assert (Hlast_in : In lastElement focusableElements)
    by (apply last_In; exact Hsome).
  unfold focusAfterTab. rewrite Htrap.
  destruct (In_nth _ _ fallback Hin) as (i & Hi & Hnth).
  assert (Hfirst_nth : nth 0 focusableElements fallback = firstElement)
    by (rewrite Hl; reflexivity).
  assert (Hlast_nth : nth (List.length focusableElements - 1) focusableElements fallback
                      = lastElement)
    by (apply nth_last; exact Hsome).
  destruct shiftKey; cbn [isActive].
  - destruct (sameNode active firstElement) eqn:E; [eauto |].
    destruct i as [| i].
    { rewrite Hfirst_nth in Hnth. subst active. rewrite Hrefl in E. discriminate. }
    rewrite <- Hnth, (Hprev i Hi). eexists. split; [reflexivity |].
    apply nth_In. lia.
  - destruct (sameNode active lastElement) eqn:E; [eauto |].
    assert (Hlt : S i < List.length focusableElements).
    { destruct (Nat.eq_dec i (List.length focusableElements - 1)) as [-> | Hne];
        [| lia].
      rewrite Hlast_nth in Hnth. subst active. rewrite Hrefl in E. discriminate. }
    rewrite <- Hnth, (Hnext i Hlt). eexists. split; [reflexivity |].
    apply nth_In. exact Hlt.
Qed.

Lemma focus_trap_cycles_witness :
  let browserTab := fun (shiftKey : bool) (active : option nat) =>
    match active with
    | Some n => Some (if shiftKey then n - 1 else n + 1)
    | None => None
    end in
  (forall x y, Nat.eqb x y = true <-> x = y)
  /\ [0; 1; 2] <> []
  /\ trapFocus Nat.eqb [0; 1; 2] false (Some 2) = Some 0
  /\ focusAfterTab Nat.eqb browserTab [0; 1; 2] false (Some 1) = Some 2
  /\ trapFocus Nat.eqb [0; 1; 2] true (Some 0) = Some 2.
Proof.
  cbn zeta.
  set (browserTab := fun (shiftKey : bool) (active : option nat) =>
    match active with
    | Some n => Some (if shiftKey then n - 1 else n + 1)
    | None => None
    end).
  assert (Hsame : forall x y, Nat.eqb x y = true <-> x = y) by apply Nat.eqb_eq.
  assert (Hsome : [0; 1; 2] <> []) by discriminate.
  assert (Hnext : forall i, S i < List.length [0; 1; 2] ->
                    browserTab false (Some (nth i [0; 1; 2] 0))
                    = Some (nth (S i) [0; 1; 2] 0)).
  { intros i Hi. cbn in Hi. destruct i as [| [| i]]; [reflexivity | reflexivity | lia]. }
  assert (Hprev : forall i, S i < List.length [0; 1; 2] ->
                    browserTab true (Some (nth (S i) [0; 1; 2] 0))
                    = Some (nth i [0; 1; 2] 0)).
  { intros i Hi. cbn in Hi. destruct i as [| [| i]]; [reflexivity | reflexivity | lia]. }
  split; [exact Hsame |]. split; [exact Hsome |].
  destruct (focus_trap_cycles nat Nat.eqb browserTab [0; 1; 2] 0
              Hsame Hsome Hnext Hprev) as (H1 & H2 & _ & _).
  split; [exact H1 |]. split; [reflexivity | exact H2].
Defined.
